(** * Route matching in vehicle-tracker: the server handler and the client cascade

    A shallow embedding of
      - [src/app/api/map-match/route.ts]: the [POST] handler (temporal sort,
        time-based sampling, map matching, directions fallback, simple line
        fallback) and its helper [sampleCoordinatesEvenly];
      - [src/components/map-component.tsx]: [performMapMatching],
        [performBatchMapMatching], [performDirectionsMatching] and the
        [processRoute] effect that chains them.

    JavaScript numbers that carry data (latitude, longitude, timestamps as
    milliseconds, confidence) are IEEE-754 doubles and are modelled by Rocq's
    primitive binary64 floats, so [NaN] timestamps and rounding are part of the
    model.  Array lengths and indices are natural numbers.  The one place
    where the source computes an index through doubles,
    [Math.round(i * step)] in [sampleCoordinatesEvenly], is computed in
    doubles here too ([doubleIndex]); the section on the rounding of doubles
    derives the order and the range of these indices from the binary64
    specification of division and multiplication. *)

From Stdlib Require Import String Bool Arith ZArith Lia List Sorted Permutation.
From Stdlib Require Import DecimalString.
From Stdlib Require Import Floats Uint63.
Import ListNotations.

Set Warnings "-inexact-float".

Set Implicit Arguments.

(** ** Numbers *)

Definition number := float.

(** The double nearest to an integer (exact below 2^53). *)
Definition number_of_Z (z : Z) : number :=
  if (z <? 0)%Z then PrimFloat.opp (PrimFloat.of_uint63 (Uint63.of_Z (- z)))
  else PrimFloat.of_uint63 (Uint63.of_Z z).

Definition number_of_nat (n : nat) : number := number_of_Z (Z.of_nat n).

(** JavaScript truthiness of a number: [0], [-0] and [NaN] are falsy. *)
Definition truthy_number (x : number) : bool :=
  PrimFloat.eqb x x && negb (PrimFloat.eqb x 0%float).

(** ** Data model ([src/types/coordinates.ts]) *)

Record Coordinate : Type := mkCoordinate {
  id : string;
  latitude : number;
  longitude : number;
  timestamp : string
}.

(** [geometry: { type: "LineString", coordinates: number[][] }] *)
Record Geometry : Type := LineString { coordinates_of : list (list number) }.

(** The [lon,lat] pair a coordinate contributes to a request URL. *)
Definition lonLat (coord : Coordinate) : number * number :=
  (longitude coord, latitude coord).

(** ** Index-stride sampling: [sampleCoordinatesEvenly] (route.ts 187-202) *)

(** [Math.round x] is [floor (x + 1/2)], computed on the exact value of the
    double; [None] for [NaN] and the infinities. *)
Definition Math_round (x : number) : option Z :=
  match Prim2SF x with
  | S754_zero _ => Some 0%Z
  | S754_finite s m e =>
      let v := if s then Z.neg m else Z.pos m in
      Some (if (0 <=? e)%Z then (v * 2 ^ e)%Z
            else ((2 * v + 2 ^ (- e)) / 2 ^ (1 - e))%Z)
  | _ => None
  end.

(** [Math.round(i * step)] with [step = (len - 1) / (targetCount - 1)]
    (lines 193 and 196): the quotient and the product are rounded to
    doubles, as in the source. *)
Definition doubleIndex (i len targetCount : nat) : option Z :=
  let step := PrimFloat.div (number_of_Z (Z.of_nat len - 1))
                            (number_of_Z (Z.of_nat targetCount - 1)) in
  Math_round (PrimFloat.mul (number_of_nat i) step).

(** [coordinates[index]]: the element at an index inside the array.  Any
    other index reads [undefined]; [stride_indices_ordered] shows that
    [sampleCoordinatesEvenly] reads inside the array whenever it has fewer
    than 2^32 elements, as every JavaScript array has. *)
Definition elementAt (coordinates : list Coordinate) (undefined : Coordinate)
           (index : option Z) : Coordinate :=
  match index with
  | Some z => if (0 <=? z)%Z then nth (Z.to_nat z) coordinates undefined else undefined
  | None => undefined
  end.

Definition sampleCoordinatesEvenly (coordinates : list Coordinate) (targetCount : nat)
  : list Coordinate :=
  if length coordinates <=? targetCount then coordinates
  else
    match coordinates with
    | [] => []
    | first :: _ =>
        let len := length coordinates in
        first
          :: map (fun i => elementAt coordinates first (doubleIndex i len targetCount))
                 (seq 1 (targetCount - 2))
          ++ [nth (len - 1) coordinates first]
    end.

(** The source indices one sampling call reads: [0], the rounded strides
    for [i = 1 .. targetCount - 2], and [len - 1]. *)
Definition doubleIndices (len targetCount : nat) : list nat :=
  0 :: map (fun i => match doubleIndex i len targetCount with
                     | Some z => Z.to_nat z
                     | None => 0
                     end)
           (seq 1 (targetCount - 2))
    ++ [len - 1].

(** *** The index formula of the specification

    [round(i * (len - 1) / (targetCount - 1))] over exact rationals, halves
    upwards, i.e. [floor (x + 1/2)].  The source computes the index in
    doubles and can differ from it at an exact tie
    ([double_index_at_a_tie]). *)
Definition roundedIndex (i len targetCount : nat) : nat :=
  (2 * (i * (len - 1)) + (targetCount - 1)) / (2 * (targetCount - 1)).

(** The index sequence as the specification writes it: [0], then
    [roundedIndex i] for [i = 1 .. targetCount - 2], then [len - 1]. *)
Definition evenIndices (len targetCount : nat) : list nat :=
  0 :: map (fun i => roundedIndex i len targetCount) (seq 1 (targetCount - 2))
    ++ [len - 1].

(** [r] is an integer nearest to [i * (len - 1) / (targetCount - 1)]: at most
    one half away from it, so that either neighbour qualifies at a tie. *)
Definition nearestIndex (i len targetCount r : nat) : bool :=
  let quotient2 := (2 * Z.of_nat i * (Z.of_nat len - 1))%Z in
  let divisor := (Z.of_nat targetCount - 1)%Z in
  let rounded2 := (2 * Z.of_nat r * divisor)%Z in
  (rounded2 <=? quotient2 + divisor)%Z && (quotient2 <=? rounded2 + divisor)%Z.

(** Every stride of one call is rounded, in doubles, to a nearest integer. *)
Definition doubleIndicesNearest (len targetCount : nat) : bool :=
  forallb (fun i =>
             match doubleIndex i len targetCount with
             | Some z => (0 <=? z)%Z && nearestIndex i len targetCount (Z.to_nat z)
             | None => false
             end)
          (seq 1 (targetCount - 2)).

(** ** Temporal normalisation and time-based sampling (route.ts 36-68) *)

Section TimeSampling.

(** [new Date(s).getTime()]: milliseconds since the epoch, [NaN] when [s]
    is not a date. *)
Variable getTime : string -> number.

Definition timeOf (c : Coordinate) : number := getTime (timestamp c).

(** The comparator [(a, b) => getTime(a) - getTime(b)]. *)
Definition compareFn (a b : Coordinate) : number :=
  PrimFloat.sub (timeOf a) (timeOf b).

(** [Array.prototype.sort] with this comparator.  When every timestamp
    is a valid date the comparator orders the coordinates by their
    milliseconds and the sort, which is stable, has one possible result: an
    element moves behind another one only when the comparator is positive,
    which is what inserting each element from the right does.  When a
    comparison is [NaN] the order an engine returns is
    implementation-defined; the insertion below then counts the comparison
    as [0], and what is stated about the order of the sorted coordinates
    ([sort_orders_by_comparator]) assumes valid dates. *)
Fixpoint insertSorted (x : Coordinate) (l : list Coordinate) : list Coordinate :=
  match l with
  | [] => [x]
  | y :: l' =>
      if PrimFloat.ltb 0%float (compareFn x y) then y :: insertSorted x l'
      else x :: l
  end.

Definition sortCoordinates (coordinates : list Coordinate) : list Coordinate :=
  fold_right insertSorted [] coordinates.

(** The body of the [for] loop over the interior indices [1 .. len - 2]:
    [coordTime >= currentTime + timeStep] pushes the coordinate and moves
    [currentTime]. *)
Fixpoint sampleLoop (timeStep currentTime : number) (interior : list Coordinate)
  : list Coordinate :=
  match interior with
  | [] => []
  | c :: rest =>
      let coordTime := timeOf c in
      if PrimFloat.leb (PrimFloat.add currentTime timeStep) coordTime
      then c :: sampleLoop timeStep coordTime rest
      else sampleLoop timeStep currentTime rest
  end.

(** The branch taken when [sortedCoordinates.length > maxCoordinates]. *)
Definition timeBasedSampling (maxCoordinates : nat) (sortedCoordinates : list Coordinate)
  : list Coordinate :=
  match sortedCoordinates with
  | [] => []
  | first :: rest =>
      let lastCoordinate := last sortedCoordinates first in
      let timeSpan := PrimFloat.sub (timeOf lastCoordinate) (timeOf first) in
      let timeStep :=
        PrimFloat.div timeSpan (number_of_Z (Z.of_nat maxCoordinates - 1)) in
      first :: sampleLoop timeStep (timeOf first) (removelast rest)
        ++ [lastCoordinate]
  end.

Definition processCoordinates (maxCoordinates : nat) (sortedCoordinates : list Coordinate)
  : list Coordinate :=
  if maxCoordinates <? length sortedCoordinates
  then timeBasedSampling maxCoordinates sortedCoordinates
  else sortedCoordinates.

End TimeSampling.

(** ** The external services and the effect of calling them *)

(** One entry of [matchings] in a Map Matching response.  The handler reads
    [geometry], [distance] and [duration]; the client component also reads
    [confidence] and [legs?.length], either of which may be missing. *)
Record Matching : Type := mkMatching {
  m_geometry : Geometry;
  m_distance : number;
  m_duration : number;
  m_confidence : option number;
  m_legs : option nat
}.

Record Tracepoint : Type := mkTracepoint {
  matchings_index : nat;
  waypoint_index : nat;
  alternatives_count : nat;
  distance_along_geometry : number
}.

(** A parsed Map Matching body; [None] is a missing property and a [None]
    tracepoint is [null]. *)
Record MapboxMatchingResponse : Type := mkMatchingResponse {
  matchings : option (list Matching);
  tracepoints : option (list (option Tracepoint))
}.

Record DirectionsRoute : Type := mkRoute {
  r_geometry : Geometry;
  r_distance : number;
  r_duration : number
}.

Record DirectionsData : Type := mkDirections {
  routes : option (list DirectionsRoute)
}.

(** What [fetch] resolves to.  [parsed = None] stands for a body that is not
    JSON ([JSON.parse] or [.json()] throws) or that parses to a value whose
    properties cannot be read. *)
Record Response (B : Type) : Type := mkResponse {
  ok : bool;
  http_status : nat;
  parsed : option B
}.

Inductive Fetched (B : Type) : Type :=
| Rejected : Fetched B
| Resolved : Response B -> Fetched B.
Arguments Rejected {B}.

Record Services : Type := mkServices {
  matchingEndpoint : list (number * number) -> Fetched MapboxMatchingResponse;
  directionsEndpoint : list (number * number) -> Fetched DirectionsData
}.

(** A request as it leaves the program: the points of the URL path and, for
    Map Matching, the number of entries of the [radiuses] parameter (each of
    them 25). *)
Inductive Call : Type :=
| MatchingCall (points : list (number * number)) (radiuses : nat)
| DirectionsCall (points : list (number * number)).

Inductive Outcome (A : Type) : Type :=
| Returned : A -> Outcome A
| Thrown : Outcome A.
Arguments Thrown {A}.

(** An asynchronous computation: it reads the services, records the calls it
    issues in order, and returns or throws. *)
Definition Async (A : Type) : Type := Services -> list Call * Outcome A.

Definition ret {A} (a : A) : Async A := fun _ => ([], Returned a).

Definition throw {A} : Async A := fun _ => ([], Thrown).

Definition bind {A B} (m : Async A) (k : A -> Async B) : Async B :=
  fun svc =>
    match m svc with
    | (calls, Returned a) => let (calls', r) := k a svc in (calls ++ calls', r)
    | (calls, Thrown) => (calls, Thrown)
    end.

Notation "x <- m ;; k" := (bind m (fun x => k))
  (at level 61, m at next level, right associativity).

(** [try { m } catch { handler }] *)
Definition tryCatch {A} (m : Async A) (handler : Async A) : Async A :=
  fun svc =>
    match m svc with
    | (calls, Returned a) => (calls, Returned a)
    | (calls, Thrown) => let (calls', r) := handler svc in (calls ++ calls', r)
    end.

(** [await fetch(url)]: a rejected promise throws. *)
Definition fetchMatching (points : list (number * number)) (radiuses : nat)
  : Async (Response MapboxMatchingResponse) :=
  fun svc =>
    ([MatchingCall points radiuses],
     match matchingEndpoint svc points with
     | Rejected => Thrown
     | Resolved r => Returned r
     end).

Definition fetchDirections (points : list (number * number))
  : Async (Response DirectionsData) :=
  fun svc =>
    ([DirectionsCall points],
     match directionsEndpoint svc points with
     | Rejected => Thrown
     | Resolved r => Returned r
     end).

(** [JSON.parse(text)] / [await response.json()] *)
Definition parseJson {B} (r : Response B) : Async B :=
  match parsed r with
  | Some data => ret data
  | None => throw
  end.

(** [x && x.length > 0] on an optional array: its first element. *)
Definition firstOf {A} (xs : option (list A)) : option A :=
  match xs with
  | Some (x :: _) => Some x
  | _ => None
  end.

(** ** The server handler ([src/app/api/map-match/route.ts]) *)

Module Server.

(** The object passed to [NextResponse.json] on success; a key the handler
    leaves out is [None]. *)
Record RouteResult : Type := mkResult {
  geometry : Geometry;
  distance : option number;
  duration : option number;
  confidence : option number;
  method : string;
  processedPoints : nat;
  originalPoints : nat
}.

Inductive Json : Type :=
| RouteJson (result : RouteResult)
| ErrorJson (error : string).

Record HttpResponse : Type := mkHttp {
  status : nat;
  json : Json
}.

Definition maxCoordinates : nat := 100.

(** What [await request.json()] and the destructuring
    [const { coordinates } = ...] of line 26 make of a request: a body that
    is not JSON and the JSON body [null] throw; any other body yields its
    [coordinates] property, [None] when it has none. *)
Inductive RequestBody : Type :=
| NotJson
| JsonNull
| JsonBody (coordinates : option (list Coordinate)).

Definition readBody (request : RequestBody) : Async (option (list Coordinate)) :=
  match request with
  | NotJson | JsonNull => throw
  | JsonBody coordinates => ret coordinates
  end.

Section Handler.

Variable getTime : string -> number.

(** [process.env.MAPBOX_ACCESS_TOKEN] *)
Variable MAPBOX_ACCESS_TOKEN : option string.

(** [!MAPBOX_ACCESS_TOKEN]: undefined or the empty string. *)
Definition tokenMissing : bool :=
  match MAPBOX_ACCESS_TOKEN with
  | None => true
  | Some token => (token =? "")%string
  end.

(** Lines 70-119: one Map Matching request for the processed
    coordinates.  [None] means that control falls through to the
    directions fallback. *)
Definition mapMatching (processedCoordinates : list Coordinate) (originalCount : nat)
  : Async (option HttpResponse) :=
  response <- fetchMatching (map lonLat processedCoordinates)
                            (length processedCoordinates) ;;
  if ok response then
    tryCatch
      (data <- parseJson response ;;
       match firstOf (matchings data) with
       | Some matching =>
           let validTracepoints :=
             match tracepoints data with
             | Some tps => filter (fun tp => match tp with Some _ => true | None => false end) tps
             | None => []
             end in
           let confidence :=
             PrimFloat.div (number_of_nat (length validTracepoints))
                           (number_of_nat (length processedCoordinates)) in
           ret (Some (mkHttp 200 (RouteJson
             {| geometry := m_geometry matching;
                distance := Some (m_distance matching);
                duration := Some (m_duration matching);
                confidence := Some confidence;
                method := "map-matching";
                processedPoints := length processedCoordinates;
                originalPoints := originalCount |})))
       | None => ret None
       end)
      (ret None)
  else ret None.

(** Lines 121-155: the Directions request.  [directionsResponse.json()]
    is awaited outside any inner [try]. *)
Definition directionsCoordinatesOf (processedCoordinates : list Coordinate)
  : list Coordinate :=
  if 25 <? length processedCoordinates
  then sampleCoordinatesEvenly processedCoordinates 25
  else processedCoordinates.

Definition directionsFallback (processedCoordinates : list Coordinate) (originalCount : nat)
  : Async (option HttpResponse) :=
  let directionsCoordinates := directionsCoordinatesOf processedCoordinates in
  directionsResponse <- fetchDirections (map lonLat directionsCoordinates) ;;
  if ok directionsResponse then
    directionsData <- parseJson directionsResponse ;;
    match firstOf (routes directionsData) with
    | Some route =>
        ret (Some (mkHttp 200 (RouteJson
          {| geometry := r_geometry route;
             distance := Some (r_distance route);
             duration := Some (r_duration route);
             confidence := None;
             method := "directions";
             processedPoints := length directionsCoordinates;
             originalPoints := originalCount |})))
    | None => ret None
    end
  else ret None.

(** Lines 157-173: the simple LineString. *)
Definition simpleCoordinatesOf (processedCoordinates : list Coordinate)
  : list Coordinate :=
  if 50 <? length processedCoordinates
  then sampleCoordinatesEvenly processedCoordinates 50
  else processedCoordinates.

Definition simpleFallback (processedCoordinates : list Coordinate) (originalCount : nat)
  : HttpResponse :=
  let simpleCoordinates := simpleCoordinatesOf processedCoordinates in
  mkHttp 200 (RouteJson
    {| geometry :=
         LineString (map (fun coord => [longitude coord; latitude coord]) simpleCoordinates);
       distance := None;
       duration := None;
       confidence := None;
       method := "simple";
       processedPoints := length simpleCoordinates;
       originalPoints := originalCount |}).

(** Everything after the Map Matching attempt has fallen through. *)
Definition afterMatching (processedCoordinates : list Coordinate) (originalCount : nat)
  : Async HttpResponse :=
  routed <- directionsFallback processedCoordinates originalCount ;;
  match routed with
  | Some response => ret response
  | None => ret (simpleFallback processedCoordinates originalCount)
  end.

(** The processed coordinates of a request (lines 36-68). *)
Definition processedOf (coordinates : list Coordinate) : list Coordinate :=
  processCoordinates getTime maxCoordinates (sortCoordinates getTime coordinates).

(** Lines 28-173: the handler once the body of the request is read.
    [coordinates] is the property read from the body, [None] when it is
    missing. *)
Definition afterBody (coordinates : option (list Coordinate)) : Async HttpResponse :=
  if tokenMissing then
    ret (mkHttp 500 (ErrorJson "Mapbox access token not configured"))
  else
    match coordinates with
    | None => ret (mkHttp 400 (ErrorJson "At least 2 coordinates are required"))
    | Some coordinates =>
        if length coordinates <? 2 then
          ret (mkHttp 400 (ErrorJson "At least 2 coordinates are required"))
        else
          let processedCoordinates := processedOf coordinates in
          matched <- mapMatching processedCoordinates (length coordinates) ;;
          match matched with
          | Some response => ret response
          | None => afterMatching processedCoordinates (length coordinates)
          end
    end.

(** The body of the outer [try] (lines 26-173): the request is read
    first. *)
Definition tryBlock (request : RequestBody) : Async HttpResponse :=
  coordinates <- readBody request ;;
  afterBody coordinates.

Definition POST (request : RequestBody) : Async HttpResponse :=
  tryCatch (tryBlock request)
           (ret (mkHttp 500 (ErrorJson "Failed to process route"))).

End Handler.

End Server.

(** ** The client cascade ([src/components/map-component.tsx]) *)

Module Client.

(** [interface MapMatchingResponse] of the component.  Geometries are the
    GeoJSON LineStrings that both endpoints return under
    [geometries=geojson]. *)
Record MapMatchingResponse : Type := mkResult {
  geometry : Geometry;
  method : string;
  confidence : number;
  processedPoints : nat;
  originalPoints : nat
}.

(** [coordinates.slice(start, end)] *)
Definition slice {A} (l : list A) (start stop : nat) : list A :=
  firstn (stop - start) (skipn start l).

(** [x || d] on an optional number. *)
Definition orNumber (x : option number) (d : number) : number :=
  match x with
  | Some v => if truthy_number v then v else d
  | None => d
  end.

(** Lines 34-77.  The [try] covers the request, the status test and the
    parsing; every failure returns [null]. *)
Definition performMapMatching (coordinates : list Coordinate)
  : Async (option MapMatchingResponse) :=
  if length coordinates <? 2 then ret None
  else
    tryCatch
      (response <- fetchMatching (map lonLat coordinates) (length coordinates) ;;
       if negb (ok response) then throw
       else
         data <- parseJson response ;;
         match firstOf (matchings data) with
         | Some matching =>
             ret (Some {| geometry := m_geometry matching;
                          method := "map-matching";
                          confidence := orNumber (m_confidence matching) 0.8%float;
                          processedPoints :=
                            match m_legs matching with Some n => n | None => 0 end;
                          originalPoints := length coordinates |})
         | None => ret None
         end)
      (ret None).

(** Lines 86-92: the loop [for (i = 0; i < length; i += maxPointsPerRequest)]
    keeps every slice of at least two points.  [fuel] bounds the number of
    iterations. *)
Fixpoint batchLoop (maxPointsPerRequest fuel i : nat) (coordinates : list Coordinate)
  : list (list Coordinate) :=
  match fuel with
  | 0 => []
  | S fuel' =>
      if i <? length coordinates then
        let batch := slice coordinates i (i + maxPointsPerRequest) in
        (if 2 <=? length batch then [batch] else [])
          ++ batchLoop maxPointsPerRequest fuel' (i + maxPointsPerRequest) coordinates
      else []
  end.

(** One iteration per window start below the length: [length coordinates]
    iterations are enough as soon as the window is not empty. *)
Definition splitBatches (maxPointsPerRequest : nat) (coordinates : list Coordinate)
  : list (list Coordinate) :=
  batchLoop maxPointsPerRequest (length coordinates) 0 coordinates.

Definition maxPointsPerRequest : nat := 100.

(** [Promise.all(batches.map(performMapMatching))]: every request is issued,
    in batch order, and none of the promises rejects. *)
Fixpoint allSettled {A B} (f : A -> Async B) (xs : list A) : Async (list B) :=
  match xs with
  | [] => ret []
  | x :: xs' => r <- f x ;; rs <- allSettled f xs' ;; ret (r :: rs)
  end.

Definition successes {A} (results : list (option A)) : list A :=
  flat_map (fun r => match r with Some a => [a] | None => [] end) results.

(** Lines 80-137. *)
Definition performBatchMapMatching (coordinates : list Coordinate)
  : Async (option MapMatchingResponse) :=
  if length coordinates <? 2 then ret None
  else
    let batches := splitBatches maxPointsPerRequest coordinates in
    match batches with
    | [] => ret None
    | _ :: _ =>
        tryCatch
          (batchResults <- allSettled performMapMatching batches ;;
           let successfulResults := successes batchResults in
           match successfulResults with
           | [] => ret None
           | _ :: _ =>
               let combinedCoordinates :=
                 flat_map (fun result => coordinates_of (geometry result)) successfulResults in
               let totalConfidence :=
                 fold_left (fun acc result => PrimFloat.add acc (confidence result))
                           successfulResults 0%float in
               let totalProcessedPoints :=
                 fold_left (fun acc result => acc + processedPoints result)
                           successfulResults 0 in
               ret (Some {| geometry := LineString combinedCoordinates;
                            method := "map-matching";
                            confidence :=
                              PrimFloat.div totalConfidence
                                (number_of_nat (length successfulResults));
                            processedPoints := totalProcessedPoints;
                            originalPoints := length coordinates |})
           end)
          (ret None)
    end.

(** Lines 151-156: [for (i = step; i < length - 1; i += step)]. *)
Fixpoint waypointLoop (step fuel i : nat) (coordinates : list Coordinate) (d : Coordinate)
  : list Coordinate :=
  match fuel with
  | 0 => []
  | S fuel' =>
      if i <? length coordinates - 1
      then nth i coordinates d :: waypointLoop step fuel' (i + step) coordinates d
      else []
  end.

Definition waypointsOf (coordinates : list Coordinate) : list Coordinate :=
  match coordinates with
  | [] => []
  | first :: _ =>
      let len := length coordinates in
      first
        :: (if 2 <? len
            then let step := Nat.max 1 (len / 23) in
                 waypointLoop step len step coordinates first
            else [])
        ++ [nth (len - 1) coordinates first]
  end.

(** Lines 140-191. *)
Definition performDirectionsMatching (coordinates : list Coordinate)
  : Async (option MapMatchingResponse) :=
  if length coordinates <? 2 then ret None
  else
    tryCatch
      (let waypoints := waypointsOf coordinates in
       response <- fetchDirections (map lonLat waypoints) ;;
       if negb (ok response) then throw
       else
         data <- parseJson response ;;
         match firstOf (routes data) with
         | Some route =>
             ret (Some {| geometry := r_geometry route;
                          method := "directions";
                          confidence := 0.9%float;
                          processedPoints := length waypoints;
                          originalPoints := length coordinates |})
         | None => ret None
         end)
      (ret None).

(** Lines 223-243: the value handed to [setMatchedRouteData], if any. *)
Definition processRoute (coordinates : list Coordinate)
  : Async (option MapMatchingResponse) :=
  matchedRoute <-
    (if length coordinates <=? 100 then performMapMatching coordinates
     else performBatchMapMatching coordinates) ;;
  match matchedRoute with
  | Some route => ret (Some route)
  | None => performDirectionsMatching coordinates
  end.

End Client.

(** ** Outcomes of the two service calls

    The ways in which a resolved call yields nothing the handler can use.  A
    rejected [fetch], and a Directions answer with a success status whose
    body is not JSON, are not among them: those throw past the stage. *)

Definition noUsableMatch (answer : Fetched MapboxMatchingResponse) : bool :=
  match answer with
  | Rejected => false
  | Resolved r =>
      negb (ok r)
      || match parsed r with
         | None => true
         | Some data => match firstOf (matchings data) with Some _ => false | None => true end
         end
  end.

Definition noUsableRoute (answer : Fetched DirectionsData) : bool :=
  match answer with
  | Rejected => false
  | Resolved r =>
      negb (ok r)
      || match parsed r with
         | None => false
         | Some data => match firstOf (routes data) with Some _ => false | None => true end
         end
  end.

(** A Directions answer with a success status and a non-empty [routes]. *)
Definition routeFound (answer : Fetched DirectionsData) : option DirectionsRoute :=
  match answer with
  | Rejected => None
  | Resolved r =>
      if ok r then match parsed r with Some data => firstOf (routes data) | None => None end
      else None
  end.

(** The input of the batch splitter without its short tail: when the last
    window holds fewer than two fixes it is left out. *)
Definition withoutShortTail {A} (window : nat) (l : list A) : list A :=
  if length l mod window <? 2 then firstn (length l - length l mod window) l else l.

(** The Map Matching request for one batch of fixes. *)
Definition matchingCallFor (batch : list Coordinate) : Call :=
  MatchingCall (map lonLat batch) (length batch).

(** ** Concrete requests used to exercise the definitions *)

Module Sample.

Definition t0 : string := "1970-01-01T00:00:00.000Z".
Definition t99 : string := "1970-01-01T00:00:00.099Z".

(** [new Date(s).getTime()] on the two timestamps above: 0 ms and 99 ms. *)
Definition getTime (s : string) : number :=
  if (s =? t99)%string then 99%float else 0%float.

Definition fixAt (name t : string) : Coordinate :=
  mkCoordinate name 12.5%float 77.5%float t.

Definition twoFixes : list Coordinate := [fixAt "a" t0; fixAt "b" t99].

(** 101 fixes in time order: a hundred recorded at 0 ms, the last at 99 ms. *)
Definition clustered : list Coordinate := repeat (fixAt "a" t0) 100 ++ [fixAt "b" t99].

(** 101 fixes with one and the same timestamp. *)
Definition simultaneous : list Coordinate := repeat (fixAt "a" t0) 101.

Definition line : Geometry := LineString [[77.5%float; 12.5%float]; [77.5%float; 12.5%float]].

Definition refused {B} : Fetched B := Resolved (mkResponse false 422 None).

(** Both endpoints answer with a non-success status. *)
Definition bothRefuse : Services := mkServices (fun _ => refused) (fun _ => refused).

(** Map Matching is refused, Directions returns one route. *)
Definition onlyDirections : Services :=
  mkServices (fun _ => refused)
             (fun _ => Resolved (mkResponse true 200
                (Some (mkDirections (Some [mkRoute line 10%float 5%float]))))).

(** Map Matching answers 200 with a body that is not JSON. *)
Definition garbledMatching : Services :=
  mkServices (fun _ => Resolved (mkResponse true 200 None))
             (fun _ => refused).

Definition token : option string := Some "pk.test"%string.

(** [n] fixes recorded at one instant, told apart by their ids
    ["0"], ["1"], ... *)
Definition track (n : nat) : list Coordinate :=
  map (fun k => fixAt (NilEmpty.string_of_uint (Nat.to_uint k)) t0) (seq 0 n).

End Sample.

(** ** Further vocabulary *)

(** [s] is obtained from [l] by leaving elements out, the order kept. *)
Inductive Subsequence {A : Type} : list A -> list A -> Prop :=
| sub_nil : forall l, Subsequence [] l
| sub_take : forall x s l, Subsequence s l -> Subsequence (x :: s) (x :: l)
| sub_skip : forall x s l, Subsequence s l -> Subsequence s (x :: l).

(** The walk of the specification, in its words: "walk the sequence once,
    emitting a fix whenever its timestamp has advanced at least [timeStep]
    past the timestamp of the last emitted fix".  [Emitted getTime timeStep
    t fixes emitted]: walking [fixes] when the last emitted fix bears the
    timestamp [t] emits [emitted]. *)
Definition advancedBy (timeStep lastEmitted t : number) : bool :=
  PrimFloat.leb (PrimFloat.add lastEmitted timeStep) t.

Inductive Emitted (getTime : string -> number) (timeStep : number)
  : number -> list Coordinate -> list Coordinate -> Prop :=
| emitted_end : forall t, Emitted getTime timeStep t [] []
| emitted_fix : forall t c fixes emitted,
    advancedBy timeStep t (getTime (timestamp c)) = true ->
    Emitted getTime timeStep (getTime (timestamp c)) fixes emitted ->
    Emitted getTime timeStep t (c :: fixes) (c :: emitted)
| emitted_skip : forall t c fixes emitted,
    advancedBy timeStep t (getTime (timestamp c)) = false ->
    Emitted getTime timeStep t fixes emitted ->
    Emitted getTime timeStep t (c :: fixes) emitted.

(** [timeSpan / (M - 1)] for the fixes [first] and [lastFix]. *)
Definition timeStepOf (getTime : string -> number) (M : nat) (first lastFix : Coordinate)
  : number :=
  PrimFloat.div (PrimFloat.sub (getTime (timestamp lastFix)) (getTime (timestamp first)))
                (number_of_Z (Z.of_nat M - 1)).

(** [n] is [Math.round] of the double nearest to [i * S], where [S] is a
    step in units of [2^-52]: the double is [N * 2^k] in these units, within
    half of [2^k] of the exact product, and [2^k] is the spacing of the
    doubles in the binade of the exact product. *)
Definition roundedProduct (S i n : Z) : Prop :=
  exists k N : Z,
    (0 <= k
     /\ 2 ^ 52 <= N <= 2 ^ 53
     /\ n = (2 * (N * 2 ^ k) + 2 ^ 52) / 2 ^ 53
     /\ 2 * (N * 2 ^ k) - 2 ^ k <= 2 * (i * S) <= 2 * (N * 2 ^ k) + 2 ^ k
     /\ 2 ^ 52 * 2 ^ k <= i * S < 2 ^ 53 * 2 ^ k)%Z.

(** A double that holds a positive whole number below [2^53], such as the
    [getTime()] of a date after 1970: its mantissa [m] and exponent [e]
    have [m * 2^e = z]. *)
Definition holdsInteger (x : number) (z : Z) : Prop :=
  exists m e,
    (Prim2SF x = S754_finite false m e
     /\ 2 ^ 52 <= Z.pos m < 2 ^ 53
     /\ -52 <= e <= 0
     /\ Z.pos m = z * 2 ^ (- e))%Z.

(** The value of the positive double of mantissa [m] and exponent [e], in
    units of [2^-160]. *)
Definition units (m : positive) (e : Z) : Z := (Z.pos m * 2 ^ (e + 160))%Z.

(** A binary64 value strictly above zero. *)
Definition SFpositive (r : spec_float) : bool :=
  match r with
  | S754_finite false _ _ | S754_infinity false => true
  | _ => false
  end.

(** [isNaN(x)] *)
Definition isNaN (x : number) : bool := negb (PrimFloat.eqb x x).

(** The comparator of the sort calls for a swap. *)
Definition outOfOrder (getTime : string -> number) (a b : Coordinate) : bool :=
  PrimFloat.ltb 0%float (compareFn getTime a b).

(** No element is directly followed by one the comparator would put before
    it. *)
Fixpoint inComparatorOrder (getTime : string -> number) (l : list Coordinate) : bool :=
  match l with
  | a :: ((b :: _) as rest) => negb (outOfOrder getTime a b) && inComparatorOrder getTime rest
  | _ => true
  end.

(** The answer of the Map Matching endpoint is a success the handler uses. *)
Definition matchFound (answer : Fetched MapboxMatchingResponse)
  : option (MapboxMatchingResponse * Matching) :=
  match answer with
  | Rejected => None
  | Resolved r =>
      if ok r then
        match parsed r with
        | Some data =>
            match firstOf (matchings data) with
            | Some matching => Some (data, matching)
            | None => None
            end
        | None => None
        end
      else None
  end.

(** [tracepoints?.filter((tp) => tp !== null) || []], counted. *)
Definition validTracepointCount (data : MapboxMatchingResponse) : nat :=
  match tracepoints data with
  | Some tps => length (filter (fun tp => match tp with Some _ => true | None => false end) tps)
  | None => 0
  end.

(** A Directions call that throws past the fallback stage: the request is
    rejected, or the answer has a success status and a body that is not
    JSON. *)
Definition directionsThrows (answer : Fetched DirectionsData) : bool :=
  match answer with
  | Rejected => true
  | Resolved r => ok r && match parsed r with None => true | Some _ => false end
  end.

(** The answer of the outer [catch] (route.ts 174-183). *)
Definition processingFailure : Server.HttpResponse :=
  Server.mkHttp 500 (Server.ErrorJson "Failed to process route").

(** The answer built from a successful match (route.ts 96-112). *)
Definition matchedResponse (data : MapboxMatchingResponse) (matching : Matching)
           (processedCoordinates : list Coordinate) (originalCount : nat)
  : Server.HttpResponse :=
  Server.mkHttp 200 (Server.RouteJson
    {| Server.geometry := m_geometry matching;
       Server.distance := Some (m_distance matching);
       Server.duration := Some (m_duration matching);
       Server.confidence :=
         Some (PrimFloat.div (number_of_nat (validTracepointCount data))
                             (number_of_nat (length processedCoordinates)));
       Server.method := "map-matching";
       Server.processedPoints := length processedCoordinates;
       Server.originalPoints := originalCount |}).

(** The answer built from a route of the Directions endpoint (route.ts
    146-153). *)
Definition routedResponse (route : DirectionsRoute) (processedCoordinates : list Coordinate)
           (originalCount : nat) : Server.HttpResponse :=
  Server.mkHttp 200 (Server.RouteJson
    {| Server.geometry := r_geometry route;
       Server.distance := Some (r_distance route);
       Server.duration := Some (r_duration route);
       Server.confidence := None;
       Server.method := "directions";
       Server.processedPoints := length (Server.directionsCoordinatesOf processedCoordinates);
       Server.originalPoints := originalCount |}).

(** ** The route effect of the map component (map-component.tsx 220-247) *)

(** The indices read by [waypointLoop]. *)
Fixpoint waypointIndices (step fuel i len : nat) : list nat :=
  match fuel with
  | 0 => []
  | S fuel' =>
      if i <? len - 1 then i :: waypointIndices step fuel' (i + step) len else []
  end.

(** [if (coordinates.length >= 2 && !routeData) processRoute()]; [routeData]
    is the route handed down by the page, if any. *)
Definition routeEffect (coordinates : list Coordinate) (routeData : bool)
  : Async (option Client.MapMatchingResponse) :=
  if (2 <=? length coordinates) && negb routeData
  then Client.processRoute coordinates
  else ret None.

(** What [performMapMatching] resolves to for one batch. *)
Definition batchAnswer (svc : Services) (batch : list Coordinate)
  : option Client.MapMatchingResponse :=
  match snd (Client.performMapMatching batch svc) with
  | Returned answer => answer
  | Thrown => None
  end.

(** The vertices a batch contributes to the merged geometry. *)
Definition batchVertices (svc : Services) (batch : list Coordinate) : list (list number) :=
  match batchAnswer svc batch with
  | Some result => coordinates_of (Client.geometry result)
  | None => []
  end.

(** ** Reading an uploaded file ([src/components/file-upload.tsx]) *)

Module Upload.

Set Warnings "-register-all".

(** A value produced by [JSON.parse]; an object lists its members once per
    key. *)
Inductive JSON : Type :=
| JNull
| JBool (b : bool)
| JNumber (x : number)
| JString (s : string)
| JArray (items : list JSON)
| JObject (members : list (string * JSON)).

(** [item.key]; [None] is [undefined].  [members] lists the members in the
    order of the file; of two members with one key [JSON.parse] keeps the
    later. *)
Fixpoint member (key : string) (members : list (string * JSON)) : option JSON :=
  match members with
  | [] => None
  | (k, v) :: rest =>
      match member key rest with
      | Some later => Some later
      | None => if (k =? key)%string then Some v else None
      end
  end.

Definition truthy (v : option JSON) : bool :=
  match v with
  | None | Some JNull => false
  | Some (JBool b) => b
  | Some (JNumber x) => truthy_number x
  | Some (JString s) => negb (s =? "")%string
  | Some (JArray _) | Some (JObject _) => true
  end.

(** The coordinate built from one item; [id] and [timestamp] keep the JSON
    value found in the file, if any. *)
Record Parsed : Type := mkParsed {
  p_id : JSON;
  p_latitude : number;
  p_longitude : number;
  p_timestamp : JSON
}.

Inductive Failure : Type :=
| InvalidCoordinateFormat (index : nat)
| CannotReadProperty
| NoCoordinatesInFile
| NoValidCoordinates.

Section Conversion.

(** [Number.parseFloat(v)] on a JSON value or [undefined]. *)
Variable parseFloat : option JSON -> number.
(** [generateId()] and [new Date().toISOString()] as evaluated for the item
    at a given index. *)
Variable generateId : nat -> string.
Variable now : nat -> string.

(** [v || d] *)
Definition orElse (v : option JSON) (d : JSON) : JSON :=
  match v with
  | Some x => if truthy v then x else d
  | None => d
  end.

(** Lines 41-58: the callback of [data.map] for a direct array. *)
Definition convertItem (index : nat) (item : JSON) : Failure + Parsed :=
  match item with
  | JNull => inl CannotReadProperty
  | JObject members =>
      if truthy (member "latitude" members) && truthy (member "longitude" members)
      then inr {| p_id := orElse (member "id" members) (JString (generateId index));
                  p_latitude := parseFloat (member "latitude" members);
                  p_longitude := parseFloat (member "longitude" members);
                  p_timestamp := orElse (member "timestamp" members) (JString (now index)) |}
      else inl (InvalidCoordinateFormat index)
  | JArray items =>
      if 2 <=? length items
      then inr {| p_id := JString (generateId index);
                  p_latitude := parseFloat (nth_error items 0);
                  p_longitude := parseFloat (nth_error items 1);
                  p_timestamp := JString (now index) |}
      else inl (InvalidCoordinateFormat index)
  | _ => inl (InvalidCoordinateFormat index)
  end.

(** [data.map(callback)]: the first throwing item ends the conversion. *)
Fixpoint convertFrom (index : nat) (items : list JSON) : Failure + list Parsed :=
  match items with
  | [] => inr []
  | item :: rest =>
      match convertItem index item with
      | inl failure => inl failure
      | inr coordinate =>
          match convertFrom (S index) rest with
          | inl failure => inl failure
          | inr coordinates => inr (coordinate :: coordinates)
          end
      end
  end.

End Conversion.

(** Lines 87-91: the range filter. *)
Definition inRange (lat lng : number) : bool :=
  PrimFloat.leb (-90)%float lat && PrimFloat.leb lat 90%float
  && PrimFloat.leb (-180)%float lng && PrimFloat.leb lng 180%float.

(** What the component does after a successful validation: the list handed
    to [onCoordinatesUpload], the count of the success message and, when
    some were dropped, the count of the "skipped" message. *)
Record Accepted (A : Type) : Type := mkAccepted {
  uploaded : list A;
  loaded : nat;
  skipped : option nat
}.

(** Lines 82-102, for coordinates whose latitude and longitude are numbers. *)
Definition validate {A : Type} (lat lng : A -> number) (coordinates : list A)
  : Failure + Accepted A :=
  if length coordinates =? 0 then inl NoCoordinatesInFile
  else
    let validCoordinates := filter (fun coord => inRange (lat coord) (lng coord)) coordinates in
    if length validCoordinates =? 0 then inl NoValidCoordinates
    else inr {| uploaded := validCoordinates;
                loaded := length validCoordinates;
                skipped := if length validCoordinates <? length coordinates
                           then Some (length coordinates - length validCoordinates)
                           else None |}.

(** [processFile] on a file whose JSON is a direct array. *)
Definition processArray (parseFloat : option JSON -> number) (generateId now : nat -> string)
           (items : list JSON) : Failure + Accepted Parsed :=
  match convertFrom parseFloat generateId now 0 items with
  | inl failure => inl failure
  | inr coordinates => validate p_latitude p_longitude coordinates
  end.

End Upload.

(** An item the callback of the direct-array branch turns into a
    coordinate: an object whose [latitude] and [longitude] are both truthy,
    or an array of at least two entries. *)
Definition acceptableItem (item : Upload.JSON) : bool :=
  match item with
  | Upload.JObject members =>
      Upload.truthy (Upload.member "latitude" members)
      && Upload.truthy (Upload.member "longitude" members)
  | Upload.JArray items => 2 <=? length items
  | _ => false
  end.

(** The failure the callback throws for an item it cannot use. *)
Definition itemFailure (index : nat) (item : Upload.JSON) : Upload.Failure :=
  match item with
  | Upload.JNull => Upload.CannotReadProperty
  | _ => Upload.InvalidCoordinateFormat index
  end.

(** The values an item's latitude and longitude are parsed from. *)
Definition latitudeOf (item : Upload.JSON) : option Upload.JSON :=
  match item with
  | Upload.JObject members => Upload.member "latitude" members
  | Upload.JArray items => nth_error items 0
  | _ => None
  end.

Definition longitudeOf (item : Upload.JSON) : option Upload.JSON :=
  match item with
  | Upload.JObject members => Upload.member "longitude" members
  | Upload.JArray items => nth_error items 1
  | _ => None
  end.

(** ** The manual entry form ([src/unnamed/part_002], [CoordinateForm]) *)

Module Form.

Inductive Outcome : Type :=
| Refused (error : string)
| Added (coordinate : Coordinate).

(** Lines 23-55; [generateId] and [now] are the values of
    [Math.random().toString(36).substr(2, 9)] and
    [new Date().toISOString()] at the time of the call. *)
Definition handleSubmit (parseFloat : string -> number) (generateId now : string)
           (latitude longitude : string) : Outcome :=
  let lat := parseFloat latitude in
  let lng := parseFloat longitude in
  if isNaN lat || isNaN lng then
    Refused "Please enter valid numbers for latitude and longitude"
  else if PrimFloat.ltb lat (-90)%float || PrimFloat.ltb 90%float lat then
    Refused "Latitude must be between -90 and 90"
  else if PrimFloat.ltb lng (-180)%float || PrimFloat.ltb 180%float lng then
    Refused "Longitude must be between -180 and 180"
  else
    Added {| id := generateId; latitude := lat; longitude := lng; timestamp := now |}.

End Form.

(** ** The page state ([src/unnamed/part_000], [VehicleTracker]) *)

Module Page.

Record State : Type := mkState {
  coordinates : list Coordinate;
  selectedCoordinate : option Coordinate;
  isLoading : bool;
  routeData : option Server.Json
}.

Definition initial : State := mkState [] None false None.

Definition handleCoordinatesUpload (newCoordinates : list Coordinate) (s : State) : State :=
  mkState newCoordinates None (isLoading s) (routeData s).

Definition handleAddCoordinate (coordinate : Coordinate) (s : State) : State :=
  mkState (coordinates s ++ [coordinate]) (selectedCoordinate s) (isLoading s) (routeData s).

(** [selectedCoordinate?.id === id] *)
Definition selectedHasId (s : State) (key : string) : bool :=
  match selectedCoordinate s with
  | Some c => (id c =? key)%string
  | None => false
  end.

Definition handleDeleteCoordinate (key : string) (s : State) : State :=
  mkState (filter (fun coord => negb (id coord =? key)%string) (coordinates s))
          (if selectedHasId s key then None else selectedCoordinate s)
          (isLoading s) (routeData s).

Definition handleCoordinateSelect (coordinate : Coordinate) (s : State) : State :=
  mkState (coordinates s) (Some coordinate) (isLoading s) (routeData s).

Definition handleClearAll (s : State) : State :=
  mkState [] None (isLoading s) None.

(** [response.ok] *)
Definition okStatus (status : nat) : bool := (200 <=? status) && (status <=? 299).

(** [handleSnapToRoads]: [api] is the request to [/api/map-match] with the
    listed coordinates, [None] when it fails to deliver a JSON answer.  The
    result is the state once the handler has finished, with whether a
    request was made. *)
Definition handleSnapToRoads (api : list Coordinate -> option Server.HttpResponse)
           (s : State) : bool * State :=
  if length (coordinates s) <? 2 then (false, s)
  else
    match api (coordinates s) with
    | Some response =>
        if okStatus (Server.status response)
        then (true, mkState (coordinates s) (selectedCoordinate s) false
                            (Some (Server.json response)))
        else (true, mkState (coordinates s) (selectedCoordinate s) false (routeData s))
    | None => (true, mkState (coordinates s) (selectedCoordinate s) false (routeData s))
    end.

(** The handler [POST] behind [/api/map-match], for given services. *)
Definition mapMatchApi (getTime : string -> number) (token : option string) (svc : Services)
           (submitted : list Coordinate) : option Server.HttpResponse :=
  match snd (Server.POST getTime token (Server.JsonBody (Some submitted)) svc) with
  | Returned response => Some response
  | Thrown => None
  end.

(** What the user can do on the page. *)
Inductive Action : Type :=
| Upload (newCoordinates : list Coordinate)
| Add (coordinate : Coordinate)
| Delete (key : string)
| Select (coordinate : Coordinate)
| ClearAll
| SnapToRoads.

Definition step (api : list Coordinate -> option Server.HttpResponse)
           (s : State) (a : Action) : State :=
  match a with
  | Upload newCoordinates => handleCoordinatesUpload newCoordinates s
  | Add coordinate => handleAddCoordinate coordinate s
  | Delete key => handleDeleteCoordinate key s
  | Select coordinate => handleCoordinateSelect coordinate s
  | ClearAll => handleClearAll s
  | SnapToRoads => snd (handleSnapToRoads api s)
  end.

(** The list and the map offer only listed coordinates for selection. *)
Definition offered (s : State) (a : Action) : Prop :=
  match a with
  | Select coordinate => In (id coordinate) (map id (coordinates s))
  | _ => True
  end.

(** A run of actions, each one offered in the state it is taken in. *)
Fixpoint run (api : list Coordinate -> option Server.HttpResponse)
         (s : State) (actions : list Action) : State :=
  match actions with
  | [] => s
  | a :: rest => run api (step api s a) rest
  end.

Fixpoint allOffered (api : list Coordinate -> option Server.HttpResponse)
         (s : State) (actions : list Action) : Prop :=
  match actions with
  | [] => True
  | a :: rest => offered s a /\ allOffered api (step api s a) rest
  end.

(** The selected coordinate, if any, bears the id of a listed one. *)
Definition selectionListed (s : State) : Prop :=
  match selectedCoordinate s with
  | Some c => In (id c) (map id (coordinates s))
  | None => True
  end.

End Page.

(** ** More concrete data *)

Module Fixture.

Definition equator : Upload.JSON :=
  Upload.JObject [("latitude"%string, Upload.JNumber 0%float);
                  ("longitude"%string, Upload.JNumber 36.8%float)].

Definition nairobi : Upload.JSON :=
  Upload.JObject [("latitude"%string, Upload.JNumber (-1.3)%float);
                  ("longitude"%string, Upload.JNumber 36.8%float)].

(** [Number.parseFloat] on the numbers of the two items above. *)
Definition parseFloat (v : option Upload.JSON) : number :=
  match v with
  | Some (Upload.JNumber x) => x
  | _ => PrimFloat.nan
  end.

(** [Number.parseFloat] on three strings a user may type. *)
Definition parseText (s : string) : number :=
  if (s =? "12.5")%string then 12.5%float
  else if (s =? "77.5")%string then 77.5%float
  else if (s =? "91")%string then 91%float
  else PrimFloat.nan.

Definition matched : Services :=
  mkServices
    (fun _ => Resolved (mkResponse true 200
       (Some (mkMatchingResponse
                (Some [mkMatching Sample.line 10%float 5%float (Some 0.5%float) (Some 1)])
                (Some [Some (mkTracepoint 0 0 0 0%float); None])))))
    (fun _ => Sample.refused).

Definition unreachable : Services := mkServices (fun _ => Rejected) (fun _ => Rejected).

Definition directionsGarbled : Services :=
  mkServices (fun _ => Sample.refused) (fun _ => Resolved (mkResponse true 200 None)).

(** 45 fixes. *)
Definition fortyFive : list Coordinate := repeat (Sample.fixAt "a" Sample.t0) 45.

(** [new Date(s).getTime()] on four timestamps one millisecond apart. *)
Definition millisecond (s : string) : Z :=
  if (s =? "1970-01-01T00:00:00.001Z")%string then 1
  else if (s =? "1970-01-01T00:00:00.002Z")%string then 2
  else if (s =? "1970-01-01T00:00:00.003Z")%string then 3
  else 4.

Definition getTime (s : string) : number := number_of_Z (millisecond s).

(** [new Date(s).getTime()] on five timestamps one millisecond apart, from
    [2^52] ms after the epoch on, where consecutive doubles are 1 apart. *)
Definition farGetTime (s : string) : number :=
  if (s =? "+144683-05-23T16:29:30.496Z")%string then 4503599627370496%float
  else if (s =? "+144683-05-23T16:29:30.497Z")%string then 4503599627370497%float
  else if (s =? "+144683-05-23T16:29:30.498Z")%string then 4503599627370498%float
  else if (s =? "+144683-05-23T16:29:30.499Z")%string then 4503599627370499%float
  else 4503599627370500%float.

Definition farFixes : list Coordinate :=
  [Sample.fixAt "a" "+144683-05-23T16:29:30.496Z";
   Sample.fixAt "b" "+144683-05-23T16:29:30.497Z";
   Sample.fixAt "c" "+144683-05-23T16:29:30.498Z";
   Sample.fixAt "d" "+144683-05-23T16:29:30.499Z";
   Sample.fixAt "e" "+144683-05-23T16:29:30.500Z"].

(** Four fixes, one per millisecond. *)
Definition fourFixes : list Coordinate :=
  [Sample.fixAt "a" "1970-01-01T00:00:00.001Z";
   Sample.fixAt "b" "1970-01-01T00:00:00.002Z";
   Sample.fixAt "c" "1970-01-01T00:00:00.003Z";
   Sample.fixAt "d" "1970-01-01T00:00:00.004Z"].

End Fixture.

(** * Properties *)

(** ** The rounding of doubles

    What binary64 division and multiplication return on the numbers of
    [sampleCoordinatesEvenly], and what subtraction, division, addition and
    [<=] return on the whole-millisecond timestamps of the time-based
    sampling, derived from their specification ([SFdiv], [SFmul], [SFsub],
    [SFadd], [SFleb]): right shifts, rounding to nearest, and the values of
    the results in units of a fixed power of two. *)

Section DoubleRounding.

Local Open Scope Z_scope.

Lemma iter_pos_nat (A : Type) (f : A -> A) (p : positive) :
  forall x, iter_pos f p x = Nat.iter (Pos.to_nat p) f x.
Proof.
  induction p as [p IH|p IH|]; intros x; cbn [iter_pos].
  - rewrite !IH. rewrite Pos2Nat.inj_xI.
    replace (S (2 * Pos.to_nat p))%nat with (Pos.to_nat p + (Pos.to_nat p + 1))%nat by lia.
    rewrite !Nat.iter_add. reflexivity.
  - rewrite !IH. rewrite Pos2Nat.inj_xO.
    replace (2 * Pos.to_nat p)%nat with (Pos.to_nat p + Pos.to_nat p)%nat by lia.
    rewrite Nat.iter_add. reflexivity.
  - reflexivity.
Qed.

Lemma shr_1_nonneg (m : Z) (r s : bool) :
  0 <= m ->
  shr_1 (Build_shr_record m r s) = Build_shr_record (m / 2) (Z.odd m) (r || s).
Proof.
  intros Hm. destruct m as [|p|p]; [reflexivity| |lia].
  destruct p as [p|p|]; cbn [shr_1].
  - assert (E : Z.pos p~1 / 2 = Z.pos p)
      by (symmetry; apply Z.div_unique with 1; lia).
    rewrite E. reflexivity.
  - assert (E : Z.pos p~0 / 2 = Z.pos p)
      by (symmetry; apply Z.div_unique with 0; lia).
    rewrite E. reflexivity.
  - reflexivity.
Qed.

(** After [n + 1] right shifts. *)
Lemma shr_iter (m : Z) (n : nat) :
  0 <= m ->
  Nat.iter (S n) shr_1 (Build_shr_record m false false)
  = Build_shr_record (m / 2 ^ Z.of_nat (S n))
                     (Z.odd (m / 2 ^ Z.of_nat n))
                     (negb (m mod 2 ^ Z.of_nat n =? 0)).
Proof.
  intros Hm. induction n as [|n IH].
  - cbn [Nat.iter]. rewrite shr_1_nonneg by assumption.
    change (2 ^ Z.of_nat 1) with 2. change (2 ^ Z.of_nat 0) with 1.
    rewrite Z.div_1_r, Z.mod_1_r. reflexivity.
  - change (Nat.iter (S (S n)) shr_1 ?x) with (shr_1 (Nat.iter (S n) shr_1 x)).
    rewrite IH. rewrite shr_1_nonneg by (apply Z.div_pos; lia).
    f_equal.
    + rewrite Z.div_div by lia. f_equal.
      rewrite (Nat2Z.inj_succ (S n)), Z.pow_succ_r by lia. ring.
    + rewrite (Nat2Z.inj_succ n), Z.pow_succ_r by lia.
      set (w := 2 ^ Z.of_nat n). assert (Hw : 0 < w) by (subst w; lia).
      pose proof (Z.div_mod m w ltac:(lia)) as E.
      pose proof (Z.mod_pos_bound m w Hw) as B.
      pose proof (Z.div_mod (m / w) 2 ltac:(lia)) as E2.
      pose proof (Z.mod_pos_bound (m / w) 2 ltac:(lia)) as B2.
      assert (Hmod : m mod (2 * w) = w * ((m / w) mod 2) + m mod w).
      { symmetry. apply Z.mod_unique with (m / w / 2); [left; nia|]. nia. }
      rewrite Hmod. rewrite Zodd_mod.
      destruct (Z.eqb_spec ((m / w) mod 2) 1) as [H1|H1];
        destruct (Z.eqb_spec (m mod w) 0) as [H0|H0]; cbn;
        symmetry; rewrite ?negb_true_iff, ?negb_false_iff;
        try (apply Z.eqb_neq; nia); try (apply Z.eqb_eq; nia).
Qed.

Lemma digits2_pos_size (p : positive) : digits2_pos p = Pos.size p.
Proof. induction p as [p IH|p IH|]; cbn; now rewrite ?IH. Qed.

Lemma Zdigits2_log2 (p : positive) : Zdigits2 (Z.pos p) = Z.log2 (Z.pos p) + 1.
Proof.
  cbn [Zdigits2]. rewrite digits2_pos_size.
  pose proof (Pos.size_gt p) as Hgt. pose proof (Pos.size_le p) as Hle.
  apply Pos2Z.pos_lt_pos in Hgt. apply Pos2Z.pos_le_pos in Hle.
  rewrite Pos2Z.inj_pow in Hgt, Hle. rewrite (Pos2Z.inj_xO p) in Hle.
  change (Z.pos 2) with 2 in *.
  set (d := Z.pos (Pos.size p)) in *.
  assert (Hd : 0 <= d - 1) by (subst d; lia).
  assert (E : 2 ^ d = 2 * 2 ^ (d - 1)).
  { replace d with (Z.succ (d - 1)) at 1 by lia. now rewrite Z.pow_succ_r. }
  assert (L : Z.log2 (Z.pos p) = d - 1).
  { apply Z.log2_unique; [exact Hd|].
    replace (Z.succ (d - 1)) with d by lia. lia. }
  lia.
Qed.

Lemma Zdigits2_unique (z d : Z) :
  0 < d -> 2 ^ (d - 1) <= z < 2 ^ d -> Zdigits2 z = d.
Proof.
  intros Hd [Hlo Hhi].
  assert (Hz : 0 < z) by (pose proof (Z.pow_pos_nonneg 2 (d - 1)); lia).
  destruct z as [|p|p]; try lia.
  rewrite Zdigits2_log2.
  rewrite (Z.log2_unique (Z.pos p) (d - 1)); [lia|lia|].
  replace (Z.succ (d - 1)) with d by lia. split; assumption.
Qed.

Lemma Zdigits2_bounds (p : positive) :
  2 ^ (Zdigits2 (Z.pos p) - 1) <= Z.pos p < 2 ^ Zdigits2 (Z.pos p).
Proof.
  rewrite Zdigits2_log2.
  pose proof (Z.log2_spec (Z.pos p) ltac:(lia)) as H.
  replace (Z.log2 (Z.pos p) + 1 - 1) with (Z.log2 (Z.pos p)) by lia.
  replace (Z.log2 (Z.pos p) + 1) with (Z.succ (Z.log2 (Z.pos p))) by lia.
  exact H.
Qed.

(** Rounding to nearest after [n + 1] right shifts: the result is within
    half a unit of the shifted number. *)
Lemma round_after_shift (m : Z) (n : nat) :
  0 <= m ->
  let shifted := Nat.iter (S n) shr_1 (Build_shr_record m false false) in
  let N := round_nearest_even (shr_m shifted) (loc_of_shr_record shifted) in
  let half := 2 ^ Z.of_nat n in
  m / (2 * half) <= N <= m / (2 * half) + 1
  /\ N * (2 * half) - half <= m <= N * (2 * half) + half.
Proof.
  intros Hm shifted N half. subst shifted N.
  rewrite shr_iter by assumption.
  rewrite (Nat2Z.inj_succ n), Z.pow_succ_r by lia. fold half.
  assert (Hh : 0 < half) by (subst half; lia).
  pose proof (Z.div_mod m half ltac:(lia)) as E.
  pose proof (Z.mod_pos_bound m half Hh) as B.
  pose proof (Z.div_mod (m / half) 2 ltac:(lia)) as E2.
  pose proof (Z.mod_pos_bound (m / half) 2 ltac:(lia)) as B2.
  assert (Hq : m / (2 * half) = m / half / 2).
  { rewrite (Z.mul_comm 2 half). rewrite Z.div_div by lia. reflexivity. }
  rewrite Hq. cbn [shr_m loc_of_shr_record]. rewrite Zodd_mod.
  set (q := m / half / 2) in *.
  destruct (Z.eqb_spec ((m / half) mod 2) 1) as [H1|H1];
    destruct (Z.eqb_spec (m mod half) 0) as [H0|H0]; cbn [negb round_nearest_even];
    try destruct (Z.even q); nia.
Qed.

Lemma fexp_normal (x : Z) : -1021 <= x -> fexp prec emax x = x - 53.
Proof. intros H. unfold fexp, SpecFloat.emin, prec, emax. lia. Qed.

Lemma shr_fexp_canonical (N E : Z) :
  2 ^ 52 <= N < 2 ^ 53 -> -1074 <= E ->
  shr_fexp prec emax N E loc_Exact = (Build_shr_record N false false, E).
Proof.
  intros HN HE. unfold shr_fexp.
  rewrite (@Zdigits2_unique N 53) by (change (53 - 1) with 52; lia).
  rewrite fexp_normal by lia.
  replace (53 + E - 53 - E) with 0 by lia. reflexivity.
Qed.

Lemma shr_fexp_overflow (E : Z) :
  -1074 <= E ->
  shr_fexp prec emax (2 ^ 53) E loc_Exact = (Build_shr_record (2 ^ 52) false false, E + 1).
Proof.
  intros HE. unfold shr_fexp.
  rewrite (@Zdigits2_unique (2 ^ 53) 54) by (change (54 - 1) with 53; lia).
  rewrite fexp_normal by lia.
  replace (54 + E - 53 - E) with 1 by lia. reflexivity.
Qed.

(** The second half of [binary_round_aux]: a rounded mantissa between
    [2^52] and [2^53] yields a finite double of the same value. *)
Lemma binary_round_aux_from (sx : bool) (mx ex : Z) (lx : location)
      (shifted : shr_record) (E : Z) :
  shr_fexp prec emax mx ex lx = (shifted, E) ->
  let N := round_nearest_even (shr_m shifted) (loc_of_shr_record shifted) in
  2 ^ 52 <= N <= 2 ^ 53 -> -1074 <= E < 971 ->
  exists m e,
    binary_round_aux prec emax sx mx ex lx = S754_finite sx m e
    /\ 2 ^ 52 <= Z.pos m < 2 ^ 53
    /\ E <= e <= E + 1
    /\ Z.pos m * 2 ^ (e - E) = N.
Proof.
  intros Hshr N HN HE. unfold binary_round_aux. rewrite Hshr. fold N.
  destruct (Z.eq_dec N (2 ^ 53)) as [Htop|Htop].
  - rewrite Htop, shr_fexp_overflow by lia. cbn [shr_m].
    exists (Z.to_pos (2 ^ 52)), (E + 1).
    change (2 ^ 52) with (Z.pos (Z.to_pos (2 ^ 52))).
    cbv beta iota.
    replace (E + 1 <=? emax - prec) with true
      by (symmetry; apply Z.leb_le; unfold emax, prec; lia).
    split; [reflexivity|]. split; [lia|]. split; [lia|].
    replace (E + 1 - E) with 1 by lia. reflexivity.
  - rewrite shr_fexp_canonical by lia. cbn [shr_m].
    destruct N as [|p|p] eqn:EN; try lia.
    exists p, E.
    replace (E <=? emax - prec) with true
      by (symmetry; apply Z.leb_le; unfold emax, prec; lia).
    split; [reflexivity|]. split; [lia|]. split; [lia|].
    rewrite Z.sub_diag. lia.
Qed.

(** Rounding an exact positive number [P * 2^e] of [53 + n] digits,
    [n > 0]. *)
Lemma shr_fexp_exact (P : positive) (e : Z) (n : nat) :
  2 ^ (52 + Z.of_nat (S n)) <= Z.pos P < 2 ^ (53 + Z.of_nat (S n)) ->
  -1074 <= Z.of_nat (S n) + e ->
  shr_fexp prec emax (Z.pos P) e loc_Exact
  = (Nat.iter (S n) shr_1 (Build_shr_record (Z.pos P) false false), e + Z.of_nat (S n)).
Proof.
  intros HP He. unfold shr_fexp.
  rewrite (@Zdigits2_unique (Z.pos P) (53 + Z.of_nat (S n))).
  2: lia.
  2:{ replace (53 + Z.of_nat (S n) - 1) with (52 + Z.of_nat (S n)) by lia. exact HP. }
  rewrite fexp_normal by lia.
  replace (53 + Z.of_nat (S n) + e - 53 - e) with (Z.pos (Pos.of_succ_nat n)) by lia.
  cbn [shr_record_of_loc shr]. rewrite iter_pos_nat.
  rewrite SuccNat2Pos.id_succ.
  reflexivity.
Qed.

Lemma binary_round_aux_exact (P : positive) (e : Z) (n : nat) :
  2 ^ (52 + Z.of_nat (S n)) <= Z.pos P < 2 ^ (53 + Z.of_nat (S n)) ->
  -1074 <= Z.of_nat (S n) + e < 971 ->
  exists m e' N,
    binary_round_aux prec emax false (Z.pos P) e loc_Exact = S754_finite false m e'
    /\ 2 ^ 52 <= Z.pos m < 2 ^ 53
    /\ e + Z.of_nat (S n) <= e' <= e + Z.of_nat (S n) + 1
    /\ Z.pos m * 2 ^ (e' - (e + Z.of_nat (S n))) = N
    /\ 2 ^ 52 <= N <= 2 ^ 53
    /\ N * 2 ^ Z.of_nat (S n) - 2 ^ Z.of_nat n <= Z.pos P
       <= N * 2 ^ Z.of_nat (S n) + 2 ^ Z.of_nat n.
Proof.
  intros HP He.
  pose proof (@shr_fexp_exact P e n HP ltac:(lia)) as Hshr.
  pose proof (@round_after_shift (Z.pos P) n ltac:(lia)) as Hround.
  cbv zeta in Hround.
  set (shifted := Nat.iter (S n) shr_1 (Build_shr_record (Z.pos P) false false)) in *.
  set (N := round_nearest_even (shr_m shifted) (loc_of_shr_record shifted)) in *.
  assert (Hpow : 2 ^ Z.of_nat (S n) = 2 * 2 ^ Z.of_nat n)
    by (rewrite Nat2Z.inj_succ, Z.pow_succ_r by lia; reflexivity).
  assert (H52 : 2 ^ (52 + Z.of_nat (S n)) = 2 ^ 52 * 2 ^ Z.of_nat (S n))
    by (rewrite Z.pow_add_r by lia; reflexivity).
  assert (H53 : 2 ^ (53 + Z.of_nat (S n)) = 2 ^ 53 * 2 ^ Z.of_nat (S n))
    by (rewrite Z.pow_add_r by lia; reflexivity).
  assert (Hh : 0 < 2 ^ Z.of_nat n) by lia.
  destruct Hround as [[Hlo Hhi] Hnear].
  assert (HN : 2 ^ 52 <= N <= 2 ^ 53).
  { rewrite H52, H53, Hpow in HP. set (h := 2 ^ Z.of_nat n) in *.
    assert (2 ^ 52 <= Z.pos P / (2 * h)) by (apply Z.div_le_lower_bound; lia).
    assert (Z.pos P / (2 * h) < 2 ^ 53) by (apply Z.div_lt_upper_bound; lia).
    lia. }
  destruct (@binary_round_aux_from false (Z.pos P) e loc_Exact shifted
              (e + Z.of_nat (S n)) Hshr HN ltac:(lia))
    as (m & e' & Eq & Hm & He' & Hval).
  exists m, e', N. fold N in Hval. rewrite Hpow. repeat split; try lia; try assumption.
Qed.

Lemma iter_xO_pow (p k : positive) : Z.pos (Pos.iter xO p k) = Z.pos p * 2 ^ Z.pos k.
Proof.
  induction k as [|k IH] using Pos.peano_ind.
  - cbn [Pos.iter]. rewrite Pos2Z.inj_xO. change (2 ^ 1) with 2. lia.
  - rewrite Pos.iter_succ, Pos2Z.inj_xO, IH, Pos2Z.inj_succ, Z.pow_succ_r by lia. lia.
Qed.

Lemma shl_align_spec (p : positive) (ex ex' : Z) :
  ex' <= ex ->
  exists mz, shl_align p ex ex' = (mz, ex') /\ Z.pos mz = Z.pos p * 2 ^ (ex - ex').
Proof.
  intros H. unfold shl_align.
  destruct (ex' - ex) as [|k|k] eqn:E; try lia.
  - assert (ex' = ex) by lia. subst ex'. exists p. rewrite Z.sub_diag. split; [reflexivity | lia].
  - exists (Pos.iter xO p k). split; [reflexivity|].
    rewrite iter_xO_pow. f_equal. f_equal. lia.
Qed.

Lemma round_nearest_even_bounds (m : Z) (l : location) :
  m <= round_nearest_even m l <= m + 1.
Proof.
  destruct l as [|[| |]]; cbn [round_nearest_even]; try destruct (Z.even m); lia.
Qed.

Lemma shr_m_of_loc (m : Z) (l : location) : shr_m (shr_record_of_loc m l) = m.
Proof. destruct l as [|[| |]]; reflexivity. Qed.

(** A canonical mantissa rounds to itself. *)
Lemma binary_round_aux_canonical (m : positive) (e : Z) :
  2 ^ 52 <= Z.pos m < 2 ^ 53 -> -1074 <= e < 971 ->
  binary_round_aux prec emax false (Z.pos m) e loc_Exact = S754_finite false m e.
Proof.
  intros Hm He.
  destruct (@binary_round_aux_from false (Z.pos m) e loc_Exact
              (Build_shr_record (Z.pos m) false false) e
              (@shr_fexp_canonical (Z.pos m) e Hm ltac:(lia)))
    as (m' & e' & Eq & Hm' & He' & Hval).
  - cbn [round_nearest_even shr_m loc_of_shr_record]. lia.
  - lia.
  - cbn [round_nearest_even shr_m loc_of_shr_record] in Hval. rewrite Eq.
    assert (e' = e).
    { destruct (Z.eq_dec e' e) as [|Hne]; [assumption|].
      assert (e' - e = 1) as E1 by lia. rewrite E1 in Hval. change (2 ^ 1) with 2 in Hval. lia. }
    subst e'. rewrite Z.sub_diag in Hval. f_equal. lia.
Qed.

(** The double of a positive integer below [2^53] is that integer. *)
Lemma binary_normalize_integer (n : positive) :
  Z.pos n < 2 ^ 53 ->
  exists m e,
    binary_normalize prec emax (Z.pos n) 0 false = S754_finite false m e
    /\ 2 ^ 52 <= Z.pos m < 2 ^ 53
    /\ -52 <= e <= 0
    /\ Z.pos m = Z.pos n * 2 ^ (- e).
Proof.
  intros Hn. cbn [binary_normalize]. unfold binary_round.
  pose proof (Zdigits2_bounds n) as Hd.
  set (d := Zdigits2 (Z.pos n)) in *.
  assert (Hd1 : 1 <= d) by (subst d; cbn; lia).
  assert (Hd53 : d <= 53).
  { destruct (Z.le_gt_cases d 53) as [|Hgt]; [assumption|].
    assert (2 ^ 53 <= 2 ^ (d - 1)) by (apply Z.pow_le_mono_r; lia). lia. }
  change (Z.pos (digits2_pos n)) with d.
  rewrite fexp_normal by lia.
  destruct (@shl_align_spec n 0 (d + 0 - 53) ltac:(lia)) as (mz & Eq & Hmz).
  rewrite Eq.
  replace (0 - (d + 0 - 53)) with (53 - d) in Hmz by lia.
  assert (Hpow : 2 ^ (53 - d) * 2 ^ (d - 1) = 2 ^ 52)
    by (rewrite <- Z.pow_add_r by lia; f_equal; lia).
  assert (Hpow' : 2 ^ (53 - d) * 2 ^ d = 2 ^ 53)
    by (rewrite <- Z.pow_add_r by lia; f_equal; lia).
  assert (0 < 2 ^ (53 - d)) by (apply Z.pow_pos_nonneg; lia).
  assert (Hm : 2 ^ 52 <= Z.pos mz < 2 ^ 53) by nia.
  rewrite binary_round_aux_canonical by lia.
  exists mz, (d + 0 - 53). split; [reflexivity|]. split; [exact Hm|]. split; [lia|].
  rewrite Hmz. f_equal. f_equal. lia.
Qed.

Lemma number_of_Z_spec (n : Z) :
  0 < n < 2 ^ 53 ->
  exists m e,
    Prim2SF (PrimFloat.of_uint63 (Uint63.of_Z n)) = S754_finite false m e
    /\ 2 ^ 52 <= Z.pos m < 2 ^ 53
    /\ -52 <= e <= 0
    /\ Z.pos m = n * 2 ^ (- e).
Proof.
  intros Hn. rewrite of_uint63_spec, Uint63.of_Z_spec.
  rewrite Z.mod_small by (unfold Uint63.wB; cbn; lia).
  destruct n as [|p|p]; try lia.
  apply binary_normalize_integer. lia.
Qed.

(** The product of two positive normal doubles: what [SFmul] returns is
    a nearest multiple of [2^E] to the exact product, [E] being the
    exponent at which the product has 53 digits. *)
Lemma SFmul_nearest (mx my : positive) (ex ey : Z) :
  2 ^ 52 <= Z.pos mx < 2 ^ 53 -> 2 ^ 52 <= Z.pos my < 2 ^ 53 ->
  -1074 <= ex + ey + 52 -> ex + ey + 53 < 971 ->
  exists m e N n,
    SFmul prec emax (S754_finite false mx ex) (S754_finite false my ey)
    = S754_finite false m e
    /\ 2 ^ 52 <= Z.pos m < 2 ^ 53
    /\ 52 <= n <= 53
    /\ ex + ey + n <= e <= ex + ey + n + 1
    /\ Z.pos m * 2 ^ (e - (ex + ey + n)) = N
    /\ 2 ^ 52 <= N <= 2 ^ 53
    /\ 2 * N * 2 ^ n - 2 ^ n <= 2 * (Z.pos mx * Z.pos my) <= 2 * N * 2 ^ n + 2 ^ n
    /\ 2 ^ 52 * 2 ^ n <= Z.pos mx * Z.pos my < 2 ^ 53 * 2 ^ n.
Proof.
  intros Hx Hy Hlo Hhi. cbn [SFmul xorb].
  assert (HP : 2 ^ 104 <= Z.pos (mx * my) < 2 ^ 106).
  { rewrite Pos2Z.inj_mul. change (2 ^ 104) with (2 ^ 52 * 2 ^ 52).
    change (2 ^ 106) with (2 ^ 53 * 2 ^ 53). nia. }
  destruct (Z.lt_ge_cases (Z.pos (mx * my)) (2 ^ 105)) as [Hsmall|Hbig].
  - destruct (@binary_round_aux_exact (mx * my) (ex + ey) 51) as (m & e & N & Eq & Hm & He & Hv & HN & Hn).
    + change (52 + Z.of_nat 52) with 104. change (53 + Z.of_nat 52) with 105. lia.
    + change (Z.of_nat 52) with 52. lia.
    + exists m, e, N, 52. change (Z.of_nat 52) with 52 in *. change (Z.of_nat 51) with 51 in *.
      rewrite Pos2Z.inj_mul in *.
      change (2 ^ 52 * 2 ^ 52) with (2 ^ 104). change (2 ^ 53 * 2 ^ 52) with (2 ^ 105).
      change (2 ^ 52) with (2 * 2 ^ 51) in Hn at 1 2.
      repeat split; try lia; try assumption.
  - destruct (@binary_round_aux_exact (mx * my) (ex + ey) 52) as (m & e & N & Eq & Hm & He & Hv & HN & Hn).
    + change (52 + Z.of_nat 53) with 105. change (53 + Z.of_nat 53) with 106. lia.
    + change (Z.of_nat 53) with 53. lia.
    + exists m, e, N, 53. change (Z.of_nat 53) with 53 in *. change (Z.of_nat 52) with 52 in *.
      rewrite Pos2Z.inj_mul in *.
      change (2 ^ 52 * 2 ^ 53) with (2 ^ 105). change (2 ^ 53 * 2 ^ 53) with (2 ^ 106).
      repeat split; try lia; try assumption.
Qed.

(** The quotient of two positive normal doubles: [SFdiv] returns one of
    the two multiples of [2^E] around the exact quotient. *)
Lemma SFdiv_bracket (m1 m2 : positive) (e1 e2 : Z) :
  2 ^ 52 <= Z.pos m1 < 2 ^ 53 -> 2 ^ 52 <= Z.pos m2 < 2 ^ 53 ->
  -1021 <= e1 - e2 < 1023 ->
  exists m e N n,
    SFdiv prec emax (S754_finite false m1 e1) (S754_finite false m2 e2)
    = S754_finite false m e
    /\ 2 ^ 52 <= Z.pos m < 2 ^ 53
    /\ 0 <= n <= 1
    /\ e1 - e2 - 53 + n <= e <= e1 - e2 - 53 + n + 1
    /\ Z.pos m * 2 ^ (e - (e1 - e2 - 53 + n)) = N
    /\ 2 ^ 52 <= N <= 2 ^ 53
    /\ (N - 1) * 2 ^ n * Z.pos m2 <= Z.pos m1 * 2 ^ 53 <= (N + 1) * 2 ^ n * Z.pos m2
    /\ 2 ^ 52 * 2 ^ n * Z.pos m2 <= Z.pos m1 * 2 ^ 53 < 2 ^ 53 * 2 ^ n * Z.pos m2.
Proof.
  intros H1 H2 He. cbn [SFdiv xorb]. unfold SFdiv_core_binary.
  rewrite (@Zdigits2_unique (Z.pos m1) 53) by (change (53 - 1) with 52; lia).
  rewrite (@Zdigits2_unique (Z.pos m2) 53) by (change (53 - 1) with 52; lia).
  rewrite fexp_normal by lia.
  replace (Z.min (53 + e1 - (53 + e2) - 53) (e1 - e2)) with (e1 - e2 - 53) by lia.
  replace (e1 - e2 - (e1 - e2 - 53)) with 53 by lia.
  rewrite Z.shiftl_mul_pow2 by lia.
  pose proof (Z_div_mod (Z.pos m1 * 2 ^ 53) (Z.pos m2) ltac:(lia)) as Hdiv.
  destruct (Z.div_eucl (Z.pos m1 * 2 ^ 53) (Z.pos m2)) as [q r].
  destruct Hdiv as [Hq Hr].
  set (l := new_location (Z.pos m2) r).
  assert (Hqlo : 2 ^ 52 <= q) by nia.
  assert (Hqhi : q < 2 ^ 54) by (change (2 ^ 54) with (2 * 2 ^ 53); nia).
  destruct (Z.lt_ge_cases q (2 ^ 53)) as [Hsmall|Hbig].
  - assert (Hshr : shr_fexp prec emax q (e1 - e2 - 53) l
                   = (shr_record_of_loc q l, e1 - e2 - 53)).
    { unfold shr_fexp.
      rewrite (@Zdigits2_unique q 53) by (change (53 - 1) with 52; lia).
      rewrite fexp_normal by lia.
      replace (53 + (e1 - e2 - 53) - 53 - (e1 - e2 - 53)) with 0 by lia. reflexivity. }
    pose proof (round_nearest_even_bounds q (loc_of_shr_record (shr_record_of_loc q l))) as HN.
    destruct (@binary_round_aux_from false q (e1 - e2 - 53) l _ _ Hshr)
      as (m & e & Eq & Hm & He' & Hv).
    + rewrite shr_m_of_loc. lia.
    + lia.
    + rewrite shr_m_of_loc in Hv.
      exists m, e, (round_nearest_even q (loc_of_shr_record (shr_record_of_loc q l))), 0.
      change (2 ^ 0) with 1. rewrite !Z.add_0_r.
      repeat split; try lia; try assumption; nia.
  - assert (Hshr : shr_fexp prec emax q (e1 - e2 - 53) l
                   = (shr_1 (shr_record_of_loc q l), e1 - e2 - 53 + 1)).
    { unfold shr_fexp.
      rewrite (@Zdigits2_unique q 54) by (change (54 - 1) with 53; lia).
      rewrite fexp_normal by lia.
      replace (54 + (e1 - e2 - 53) - 53 - (e1 - e2 - 53)) with 1 by lia. reflexivity. }
    assert (Hm2 : shr_m (shr_1 (shr_record_of_loc q l)) = q / 2).
    { destruct (shr_record_of_loc q l) as [m0 r0 s0] eqn:Erec.
      assert (m0 = q) by (rewrite <- (shr_m_of_loc q l), Erec; reflexivity). subst m0.
      rewrite shr_1_nonneg by lia. reflexivity. }
    pose proof (round_nearest_even_bounds (q / 2)
                  (loc_of_shr_record (shr_1 (shr_record_of_loc q l)))) as HN.
    pose proof (Z.div_mod q 2 ltac:(lia)) as Eq2.
    pose proof (Z.mod_pos_bound q 2 ltac:(lia)) as Bq2.
    destruct (@binary_round_aux_from false q (e1 - e2 - 53) l _ _ Hshr)
      as (m & e & Eq & Hm & He' & Hv).
    + rewrite Hm2. lia.
    + lia.
    + rewrite Hm2 in Hv.
      exists m, e, (round_nearest_even (q / 2)
                      (loc_of_shr_record (shr_1 (shr_record_of_loc q l)))), 1.
      change (2 ^ 1) with 2.
      repeat split; try lia; try assumption; nia.
Qed.

(** [Math.round] of a positive double no smaller than [2^-52], in terms
    of its value [X] in units of [2^-52]: [floor ((2 X + 2^52) / 2^53)]. *)
Lemma Math_round_positive (x : number) (m : positive) (e : Z) :
  Prim2SF x = S754_finite false m e -> -52 <= e ->
  Math_round x = Some ((2 * (Z.pos m * 2 ^ (e + 52)) + 2 ^ 52) / 2 ^ 53).
Proof.
  intros Hx He. unfold Math_round. rewrite Hx. f_equal.
  destruct (Z.leb_spec 0 e) as [Hpos|Hneg].
  - rewrite Z.pow_add_r by lia.
    apply Z.div_unique with (2 ^ 52); [lia|].
    change (2 ^ 53) with (2 * 2 ^ 52). ring.
  - rewrite <- (Z.div_mul_cancel_r (2 * Z.pos m + 2 ^ (- e)) (2 ^ (1 - e)) (2 ^ (e + 52)))
      by (apply Z.pow_nonzero; lia).
    f_equal.
    + rewrite Z.mul_add_distr_r, <- Z.pow_add_r by lia.
      replace (- e + (e + 52)) with 52 by lia. ring.
    + rewrite <- Z.pow_add_r by lia. f_equal. lia.
Qed.

Lemma quotient_units (a b N U K : Z) :
  0 < K -> 0 < b -> b < a -> b < K -> 1 <= U -> K <= N ->
  (N - 1) * U * b <= a * K -> a * K <= (N + 1) * U * b ->
  K < N * U
  /\ K * (b * (N * U) - a * K) <= b * (N * U)
  /\ K * (a * K - b * (N * U)) <= b * (N * U).
Proof.
  intros HK Hb Hab HbK HU HN Hlo Hhi.
  assert (HbU : 0 < b * U) by nia.
  split; [|split].
  - destruct (Z.eq_dec U 1) as [->|HU1].
    + rewrite !Z.mul_1_r in *.
      assert ((b + 1) * K <= (N + 1) * b) by nia.
      assert (K * b < N * b) by nia.
      nia.
    + assert (2 <= U) by lia. nia.
  - assert (b * (N * U) - a * K <= b * U) by nia.
    assert (K * (b * U) <= b * (N * U)) by nia.
    nia.
  - assert (a * K - b * (N * U) <= b * U) by nia.
    assert (K * (b * U) <= b * (N * U)) by nia.
    nia.
Qed.

Lemma cancel_scale (x y w : Z) : 0 < w -> x * w <= y * w -> x <= y.
Proof. intros Hw H. now apply Z.mul_le_mono_pos_r in H. Qed.

Lemma cancel_scale_lt (x y w : Z) : 0 < w -> x * w < y * w -> x < y.
Proof. intros Hw H. now apply Z.mul_lt_mono_pos_r in H. Qed.

(** The step [(len - 1) / (targetCount - 1)] as a double, for
    [0 < b < a]: a normal double above 1, within one unit in the last
    place of [a / b].  [S] is its value in units of [2^-52]. *)
Lemma step_double (a b : Z) :
  0 < b -> b < a -> a < 2 ^ 52 ->
  exists ms es,
    Prim2SF (PrimFloat.div (number_of_Z a) (number_of_Z b)) = S754_finite false ms es
    /\ 2 ^ 52 <= Z.pos ms < 2 ^ 53
    /\ -52 <= es <= 1
    /\ let S := Z.pos ms * 2 ^ (es + 52) in
       2 ^ 52 < S
       /\ 2 ^ 52 * (b * S - a * 2 ^ 52) <= b * S
       /\ 2 ^ 52 * (a * 2 ^ 52 - b * S) <= b * S.
Proof.
  intros Hb Hab Ha.
  unfold number_of_Z.
  destruct (Z.ltb_spec a 0); [lia|]. destruct (Z.ltb_spec b 0); [lia|].
  destruct (@number_of_Z_spec a ltac:(lia)) as (m1 & e1 & E1 & Hm1 & He1 & Hv1).
  destruct (@number_of_Z_spec b ltac:(lia)) as (m2 & e2 & E2 & Hm2 & He2 & Hv2).
  rewrite FloatAxioms.div_spec, E1, E2. unfold SF64div.
  destruct (@SFdiv_bracket m1 m2 e1 e2 Hm1 Hm2 ltac:(lia))
    as (m & e & N & n & Eq & Hm & Hn & He & Hv & HN & Hbr & Hbin).
  set (w := 2 ^ (- e1)) in *.
  assert (Pw : 0 < w) by (subst w; apply Z.pow_pos_nonneg; lia).
  assert (P2 : 0 < 2 ^ (- e2)) by (apply Z.pow_pos_nonneg; lia).
  (* the exponents are ordered as the integers are *)
  assert (Hexp : e2 <= e1).
  { destruct (Z.le_gt_cases e2 e1) as [|Hgt]; [assumption|exfalso].
    assert (Ht : w = 2 ^ (- e2) * 2 ^ (e2 - e1))
      by (subst w; rewrite <- Z.pow_add_r by lia; f_equal; lia).
    assert (Ht2 : 2 <= 2 ^ (e2 - e1))
      by (change 2 with (2 ^ 1) at 1; apply Z.pow_le_mono_r; lia).
    set (t := 2 ^ (e2 - e1)) in *. set (w2 := 2 ^ (- e2)) in *.
    clearbody w w2 t. clear - Hm1 Hm2 Hv1 Hv2 Ht Ht2 Hab Hb P2.
    rewrite Hv1 in Hm1. rewrite Hv2 in Hm2. subst w.
    assert (Hc1 : b * w2 <= a * w2) by (apply Z.mul_le_mono_nonneg_r; lia).
    assert (Hc2 : a * w2 * 2 <= a * w2 * t) by (apply Z.mul_le_mono_nonneg_l; lia).
    change (2 ^ 53) with (2 * 2 ^ 52) in *.
    rewrite Z.mul_assoc in Hm1. lia. }
  set (D := 2 ^ (e1 - e2)).
  assert (HD : 2 ^ (- e2) = w * D)
    by (subst w D; rewrite <- Z.pow_add_r by lia; f_equal; lia).
  assert (PD : 1 <= D) by (subst D; change 1 with (2 ^ 0); apply Z.pow_le_mono_r; lia).
  set (T := 2 ^ n * D).
  assert (HT : T = 2 ^ (n + (e1 - e2))) by (subst T D; rewrite Z.pow_add_r by lia; reflexivity).
  rewrite Hv1, Hv2, HD in Hbr, Hbin.
  destruct Hbr as [Hbr1 Hbr2]. destruct Hbin as [Hbin1 Hbin2].
  assert (Hlo : (N - 1) * T * b <= a * 2 ^ 53).
  { apply (@cancel_scale _ _ w Pw). subst T.
    replace ((N - 1) * (2 ^ n * D) * b * w) with ((N - 1) * 2 ^ n * (b * (w * D))) by ring.
    replace (a * 2 ^ 53 * w) with (a * w * 2 ^ 53) by ring. exact Hbr1. }
  assert (Hhi : a * 2 ^ 53 <= (N + 1) * T * b).
  { apply (@cancel_scale _ _ w Pw). subst T.
    replace ((N + 1) * (2 ^ n * D) * b * w) with ((N + 1) * 2 ^ n * (b * (w * D))) by ring.
    replace (a * 2 ^ 53 * w) with (a * w * 2 ^ 53) by ring. exact Hbr2. }
  assert (Hbhi : a * 2 ^ 53 < 2 ^ 53 * T * b).
  { apply (@cancel_scale_lt _ _ w Pw). subst T.
    replace (2 ^ 53 * (2 ^ n * D) * b * w) with (2 ^ 53 * 2 ^ n * (b * (w * D))) by ring.
    replace (a * 2 ^ 53 * w) with (a * w * 2 ^ 53) by ring. exact Hbin2. }
  assert (HT2 : 2 <= T).
  { assert (PT : 0 < T) by (rewrite HT; apply Z.pow_pos_nonneg; lia).
    clear - Hbhi Hab Hb PT. nia. }
  assert (HE : 1 <= n + (e1 - e2)).
  { destruct (Z.le_gt_cases 1 (n + (e1 - e2))) as [|Hlt]; [assumption|exfalso].
    assert (Hz : n + (e1 - e2) = 0) by lia.
    rewrite HT, Hz in HT2. change (2 ^ 0) with 1 in HT2. lia. }
  set (U := 2 ^ (n + (e1 - e2) - 1)).
  assert (HU : T = 2 * U).
  { rewrite HT. subst U. rewrite <- Z.pow_succ_r by lia. f_equal. lia. }
  assert (PU : 1 <= U) by (subst U; change 1 with (2 ^ 0); apply Z.pow_le_mono_r; lia).
  assert (HS : Z.pos m * 2 ^ (e + 52) = N * U).
  { rewrite <- Hv. subst U.
    rewrite <- Z.mul_assoc, <- Z.pow_add_r by lia. f_equal. f_equal. lia. }
  exists m, e. split; [exact Eq|]. split; [exact Hm|]. split; [lia|].
  cbv zeta. rewrite HS.
  apply quotient_units.
  - lia.
  - exact Hb.
  - exact Hab.
  - lia.
  - exact PU.
  - lia.
  - rewrite HU in Hlo. change (2 ^ 53) with (2 * 2 ^ 52) in Hlo.
    clear - Hlo. nia.
  - rewrite HU in Hhi. change (2 ^ 53) with (2 * 2 ^ 52) in Hhi.
    clear - Hhi. nia.
Qed.

(** The product [i * step] as a double: a nearest multiple of [2^k] (in
    units of [2^-52]) to the exact product, [k] being fixed by the binade
    of the exact product. *)
Lemma stride_product (i : Z) (s : number) (ms : positive) (es : Z) :
  0 < i < 2 ^ 53 ->
  Prim2SF s = S754_finite false ms es ->
  2 ^ 52 <= Z.pos ms < 2 ^ 53 -> -52 <= es <= 1 ->
  let S := Z.pos ms * 2 ^ (es + 52) in
  exists mx ex k N,
    Prim2SF (PrimFloat.mul (number_of_Z i) s) = S754_finite false mx ex
    /\ -52 <= ex
    /\ 0 <= k
    /\ Z.pos mx * 2 ^ (ex + 52) = N * 2 ^ k
    /\ 2 ^ 52 <= N <= 2 ^ 53
    /\ 2 * (N * 2 ^ k) - 2 ^ k <= 2 * (i * S) <= 2 * (N * 2 ^ k) + 2 ^ k
    /\ 2 ^ 52 * 2 ^ k <= i * S < 2 ^ 53 * 2 ^ k.
Proof.
  intros Hi Hs Hms Hes S.
  unfold number_of_Z. destruct (Z.ltb_spec i 0); [lia|].
  destruct (@number_of_Z_spec i Hi) as (mi & ei & Ei & Hmi & Hei & Hvi).
  rewrite FloatAxioms.mul_spec, Ei, Hs. unfold SF64mul.
  destruct (@SFmul_nearest mi ms ei es Hmi Hms ltac:(lia) ltac:(lia))
    as (m & e & N & n & Eq & Hm & Hn & He & Hv & HN & [Hn1 Hn2] & [Hb1 Hb2]).
  set (k := ei + es + n + 52).
  assert (Hk : 0 <= k) by (subst k; lia).
  set (w := 2 ^ (- ei)) in *. set (v := 2 ^ (es + 52)) in *.
  assert (Pw : 0 < w) by (subst w; apply Z.pow_pos_nonneg; lia).
  assert (Pv : 0 < v) by (subst v; apply Z.pow_pos_nonneg; lia).
  assert (Hnv : 2 ^ n * v = 2 ^ k * w).
  { subst v w k. rewrite <- !Z.pow_add_r by lia. f_equal. lia. }
  assert (HP : Z.pos mi * Z.pos ms * v = i * S * w) by (rewrite Hvi; subst S; fold v; ring).
  exists m, e, k, N.
  split; [exact Eq|]. split; [lia|]. split; [exact Hk|].
  split.
  { rewrite <- Hv. subst k. rewrite <- Z.mul_assoc, <- Z.pow_add_r by lia.
    f_equal. f_equal. lia. }
  split; [exact HN|].
  split; [split|split].
  - apply (@cancel_scale _ _ w Pw).
    replace ((2 * (N * 2 ^ k) - 2 ^ k) * w) with ((2 * N - 1) * (2 ^ k * w)) by ring.
    rewrite <- Hnv.
    replace (2 * (i * S) * w) with (2 * (i * S * w)) by ring. rewrite <- HP.
    replace ((2 * N - 1) * (2 ^ n * v)) with ((2 * N * 2 ^ n - 2 ^ n) * v) by ring.
    replace (2 * (Z.pos mi * Z.pos ms * v)) with (2 * (Z.pos mi * Z.pos ms) * v) by ring.
    apply Z.mul_le_mono_nonneg_r; [lia | exact Hn1].
  - apply (@cancel_scale _ _ w Pw).
    replace ((2 * (N * 2 ^ k) + 2 ^ k) * w) with ((2 * N + 1) * (2 ^ k * w)) by ring.
    rewrite <- Hnv.
    replace (2 * (i * S) * w) with (2 * (i * S * w)) by ring. rewrite <- HP.
    replace ((2 * N + 1) * (2 ^ n * v)) with ((2 * N * 2 ^ n + 2 ^ n) * v) by ring.
    replace (2 * (Z.pos mi * Z.pos ms * v)) with (2 * (Z.pos mi * Z.pos ms) * v) by ring.
    apply Z.mul_le_mono_nonneg_r; [lia | exact Hn2].
  - apply (@cancel_scale _ _ w Pw).
    replace (2 ^ 52 * 2 ^ k * w) with (2 ^ 52 * (2 ^ k * w)) by ring.
    rewrite <- Hnv, <- HP.
    replace (2 ^ 52 * (2 ^ n * v)) with (2 ^ 52 * 2 ^ n * v) by ring.
    apply Z.mul_le_mono_nonneg_r; [lia | exact Hb1].
  - apply (@cancel_scale_lt _ _ w Pw).
    replace (2 ^ 53 * 2 ^ k * w) with (2 ^ 53 * (2 ^ k * w)) by ring.
    rewrite <- Hnv, <- HP.
    replace (2 ^ 53 * (2 ^ n * v)) with (2 ^ 53 * 2 ^ n * v) by ring.
    apply Z.mul_lt_mono_pos_r; [lia | exact Hb2].
Qed.

Lemma floor_half_bounds (X n : Z) :
  n = (2 * X + 2 ^ 52) / 2 ^ 53 ->
  2 ^ 53 * n <= 2 * X + 2 ^ 52 < 2 ^ 53 * n + 2 ^ 53.
Proof.
  intros ->.
  pose proof (Z.div_mod (2 * X + 2 ^ 52) (2 ^ 53) ltac:(lia)) as E.
  pose proof (Z.mod_pos_bound (2 * X + 2 ^ 52) (2 ^ 53) ltac:(lia)) as B.
  lia.
Qed.

Lemma roundedProduct_increasing (S i n n' : Z) :
  2 ^ 52 < S -> 0 < i -> (i + 1) * S < 2 ^ 104 ->
  roundedProduct S i n -> roundedProduct S (i + 1) n' ->
  n < n'.
Proof.
  intros HS Hi Hmax (k & N & Hk & HN & Hn & [Hlo Hhi] & [Hb1 Hb2])
         (k' & N' & Hk' & HN' & Hn' & [Hlo' Hhi'] & [Hb1' Hb2']).
  apply floor_half_bounds in Hn. apply floor_half_bounds in Hn'.
  destruct (Z.lt_ge_cases n n') as [|Hge]; [assumption|exfalso].
  replace ((i + 1) * S) with (i * S + S) in * by ring.
  assert (Pu : 0 < 2 ^ k) by (apply Z.pow_pos_nonneg; lia).
  assert (Pu' : 0 < 2 ^ k') by (apply Z.pow_pos_nonneg; lia).
  (* the unit of the second product divides one half *)
  assert (Hk51 : k' <= 51).
  { destruct (Z.le_gt_cases k' 51) as [|Hgt]; [assumption|exfalso].
    assert (2 ^ 52 <= 2 ^ k') by (apply Z.pow_le_mono_r; lia).
    assert (2 ^ 52 * 2 ^ 52 <= 2 ^ 52 * 2 ^ k') by (apply Z.mul_le_mono_nonneg_l; lia).
    change (2 ^ 104) with (2 ^ 52 * 2 ^ 52) in Hmax. lia. }
  set (c := 2 ^ (51 - k')).
  assert (Pc : 0 < c) by (subst c; apply Z.pow_pos_nonneg; lia).
  assert (Hc : 2 ^ 52 = 2 * 2 ^ k' * c).
  { subst c. rewrite <- Z.pow_succ_r, <- Z.pow_add_r by lia. f_equal. lia. }
  set (u := 2 ^ k) in *. set (u' := 2 ^ k') in *.
  change (2 ^ 53) with (2 * 2 ^ 52) in *.
  (* the second double lies a full unit below n + 1/2 *)
  assert (H1 : N' < (2 * n + 1) * c).
  { apply (@cancel_scale_lt _ _ (2 * u') ltac:(lia)).
    replace ((2 * n + 1) * c * (2 * u')) with ((2 * n + 1) * (2 * u' * c)) by ring.
    rewrite <- Hc. lia. }
  assert (H2 : N' * u' <= ((2 * n + 1) * c - 1) * u')
    by (apply Z.mul_le_mono_nonneg_r; lia).
  assert (H3 : 2 * (N' * u') <= (2 * n + 1) * 2 ^ 52 - 2 * u').
  { replace ((2 * n + 1) * 2 ^ 52) with ((2 * n + 1) * c * (2 * u')) by (rewrite Hc; ring).
    lia. }
  (* so the unit of the first product is the larger one *)
  assert (H4 : u' < u) by lia.
  assert (H5 : k' < k) by (apply (Z.pow_lt_mono_r_iff 2); lia).
  assert (H6 : 2 * u' <= u).
  { subst u u'. rewrite <- Z.pow_succ_r by lia. apply Z.pow_le_mono_r; lia. }
  (* which contradicts the order of the exact products *)
  assert (H7 : 2 * 2 ^ 52 * u' <= 2 ^ 52 * u).
  { replace (2 * 2 ^ 52 * u') with (2 ^ 52 * (2 * u')) by ring.
    apply Z.mul_le_mono_nonneg_l; lia. }
  lia.
Qed.

Lemma roundedProduct_positive (S i n : Z) : roundedProduct S i n -> 1 <= n.
Proof.
  intros (k & N & Hk & HN & Hn & _ & _).
  apply floor_half_bounds in Hn.
  assert (Pu : 1 <= 2 ^ k) by (change 1 with (2 ^ 0); apply Z.pow_le_mono_r; lia).
  assert (2 ^ 52 * 1 <= N * 2 ^ k) by (apply Z.mul_le_mono_nonneg; lia).
  change (2 ^ 53) with (2 * 2 ^ 52) in *. lia.
Qed.

(** The step exceeds [a / b] by little. *)
Lemma step_above (S a b : Z) :
  0 < a ->
  2 ^ 52 * (b * S - a * 2 ^ 52) <= b * S ->
  b * S <= a * 2 ^ 52 + 2 * a.
Proof. intros Ha H. lia. Qed.

Lemma roundedProduct_below (S a b i n : Z) :
  0 < b -> b < a -> a < 2 ^ 49 -> 0 < i <= b - 1 ->
  2 ^ 52 < S ->
  2 ^ 52 * (b * S - a * 2 ^ 52) <= b * S ->
  roundedProduct S i n ->
  n <= a - 1.
Proof.
  intros Hb Hab Ha Hi HS HS2 (k & N & Hk & HN & Hn & [Hlo Hhi] & [Hb1 Hb2]).
  apply floor_half_bounds in Hn.
  pose proof (@step_above S a b ltac:(lia) HS2) as Hstep.
  assert (HiS : i * S <= b * S - S).
  { replace (b * S - S) with ((b - 1) * S) by ring.
    apply Z.mul_le_mono_nonneg_r; lia. }
  set (u := 2 ^ k) in *.
  change (2 ^ 53) with (2 * 2 ^ 52) in *. change (2 ^ 49) with 562949953421312 in Ha.
  lia.
Qed.

Lemma roundedProduct_nearest (S a b i n : Z) :
  0 < b -> b < a -> a * b <= 2 ^ 50 -> 0 < i < b ->
  2 ^ 52 * (b * S - a * 2 ^ 52) <= b * S ->
  2 ^ 52 * (a * 2 ^ 52 - b * S) <= b * S ->
  roundedProduct S i n ->
  2 * n * b <= 2 * i * a + b /\ 2 * i * a <= 2 * n * b + b.
Proof.
  intros Hb Hab Hsize Hi HS2 HS3 (k & N & Hk & HN & Hn & [Hlo Hhi] & [Hb1 Hb2]).
  apply floor_half_bounds in Hn.
  pose proof (@step_above S a b ltac:(lia) HS2) as Hstep.
  set (u := 2 ^ k) in *. set (X := N * u) in *.
  assert (Pu : 0 < u) by (subst u; apply Z.pow_pos_nonneg; lia).
  set (P := i * (b * S)). set (Q := b * X).
  assert (r1a : 2 * P - b * u <= 2 * Q).
  { subst P Q. replace (2 * (i * (b * S)) - b * u) with (b * (2 * (i * S) - u)) by ring.
    replace (2 * (b * X)) with (b * (2 * X)) by ring.
    apply Z.mul_le_mono_nonneg_l; lia. }
  assert (r1b : 2 * Q <= 2 * P + b * u).
  { subst P Q. replace (2 * (i * (b * S)) + b * u) with (b * (2 * (i * S) + u)) by ring.
    replace (2 * (b * X)) with (b * (2 * X)) by ring.
    apply Z.mul_le_mono_nonneg_l; lia. }
  assert (r2a : 2 ^ 52 * (P - i * a * 2 ^ 52) <= P).
  { subst P. replace (2 ^ 52 * (i * (b * S) - i * a * 2 ^ 52))
      with (i * (2 ^ 52 * (b * S - a * 2 ^ 52))) by ring.
    apply Z.mul_le_mono_nonneg_l; lia. }
  assert (r2b : 2 ^ 52 * (i * a * 2 ^ 52 - P) <= P).
  { subst P. replace (2 ^ 52 * (i * a * 2 ^ 52 - i * (b * S)))
      with (i * (2 ^ 52 * (a * 2 ^ 52 - b * S))) by ring.
    apply Z.mul_le_mono_nonneg_l; lia. }
  assert (r3 : 2 ^ 52 * (b * u) <= P).
  { subst P. replace (2 ^ 52 * (b * u)) with (b * (2 ^ 52 * u)) by ring.
    replace (i * (b * S)) with (b * (i * S)) by ring.
    apply Z.mul_le_mono_nonneg_l; lia. }
  assert (r4 : 2 ^ 53 * (n * b) <= 2 * Q + 2 ^ 52 * b < 2 ^ 53 * (n * b) + 2 ^ 53 * b).
  { subst Q. split.
    - replace (2 ^ 53 * (n * b)) with (b * (2 ^ 53 * n)) by ring.
      replace (2 * (b * X) + 2 ^ 52 * b) with (b * (2 * X + 2 ^ 52)) by ring.
      apply Z.mul_le_mono_nonneg_l; lia.
    - replace (2 ^ 53 * (n * b) + 2 ^ 53 * b) with (b * (2 ^ 53 * n + 2 ^ 53)) by ring.
      replace (2 * (b * X) + 2 ^ 52 * b) with (b * (2 * X + 2 ^ 52)) by ring.
      apply Z.mul_lt_mono_pos_l; lia. }
  assert (r5 : P <= a * b * 2 ^ 52 + 2 * (a * b)).
  { subst P. apply Z.le_trans with (b * (b * S)).
    - apply Z.mul_le_mono_nonneg_r; lia.
    - replace (a * b * 2 ^ 52 + 2 * (a * b)) with (b * (a * 2 ^ 52 + 2 * a)) by ring.
      apply Z.mul_le_mono_nonneg_l; lia. }
  clearbody P Q u X.
  replace (2 * n * b) with (2 * (n * b)) by ring.
  replace (2 * i * a) with (2 * (i * a)) by ring.
  change (2 ^ 53) with (2 * 2 ^ 52) in *.
  change (2 ^ 50) with 1125899906842624 in *.
  change (2 ^ 52) with 4503599627370496 in *.
  split; lia.
Qed.

(** Every index of one call is the rounding of a product with one and the
    same step. *)
Lemma doubleIndex_rounded (len targetCount : nat) :
  (2 <= targetCount)%nat -> (targetCount < len)%nat -> Z.of_nat len <= 2 ^ 49 ->
  let a := Z.of_nat len - 1 in
  let b := Z.of_nat targetCount - 1 in
  exists S,
    2 ^ 52 < S
    /\ 2 ^ 52 * (b * S - a * 2 ^ 52) <= b * S
    /\ 2 ^ 52 * (a * 2 ^ 52 - b * S) <= b * S
    /\ forall i, (1 <= i)%nat -> (i < len)%nat ->
         exists n, doubleIndex i len targetCount = Some n
                   /\ roundedProduct S (Z.of_nat i) n.
Proof.
  intros HM Hlen Hsize a b.
  change (2 ^ 49) with 562949953421312 in Hsize.
  destruct (@step_double a b ltac:(subst b; lia) ltac:(subst a b; lia)
              ltac:(subst a; change (2 ^ 52) with 4503599627370496; lia))
    as (ms & es & Es & Hms & Hes & HS1 & HS2 & HS3).
  cbv zeta in HS1, HS2, HS3.
  exists (Z.pos ms * 2 ^ (es + 52)).
  split; [exact HS1|]. split; [exact HS2|]. split; [exact HS3|].
  intros i Hi Hilen. unfold doubleIndex. fold a b. unfold number_of_nat.
  destruct (@stride_product (Z.of_nat i) _ ms es
              ltac:(change (2 ^ 53) with 9007199254740992; lia) Es Hms Hes)
    as (mx & ex & k & N & Ex & Hex & Hk & HX & HN & Hnear & Hbin).
  rewrite (@Math_round_positive _ mx ex Ex Hex). rewrite HX.
  eexists. split; [reflexivity|].
  exists k, N. repeat split; try assumption; try lia.
Qed.

(** *** Whole milliseconds: subtraction, division, addition and [<=] *)

(** Rounding a positive number [P * 2^e] to a double loses at most one part
    in [2^53]. *)
Lemma binary_round_lower (P : positive) (e : Z) :
  -960 <= e <= 700 -> Z.pos P < 2 ^ 200 ->
  exists m e',
    binary_round prec emax false P e = S754_finite false m e'
    /\ 2 ^ 52 <= Z.pos m < 2 ^ 53
    /\ e - 52 <= e' <= e + 148
    /\ (forall K, 0 <= e + K -> 0 <= e' + K ->
          Z.pos P * 2 ^ (e + K) * (2 ^ 53 - 1) <= Z.pos m * 2 ^ (e' + K) * 2 ^ 53
          /\ Z.pos m * 2 ^ (e' + K) * 2 ^ 53 <= Z.pos P * 2 ^ (e + K) * (2 ^ 53 + 1)).
Proof.
  intros He HP. unfold binary_round.
  pose proof (Zdigits2_bounds P) as Hd.
  set (d := Zdigits2 (Z.pos P)) in *.
  assert (Hd1 : 1 <= d) by (subst d; cbn; lia).
  assert (Hd200 : d <= 200).
  { destruct (Z.le_gt_cases d 200) as [|Hgt]; [assumption|exfalso].
    assert (2 ^ 200 <= 2 ^ (d - 1)) by (apply Z.pow_le_mono_r; lia). lia. }
  change (Z.pos (digits2_pos P)) with d.
  rewrite fexp_normal by lia.
  destruct (Z.le_gt_cases d 53) as [Hsmall|Hbig].
  - destruct (@shl_align_spec P e (d + e - 53) ltac:(lia)) as (mz & Eq & Hmz).
    rewrite Eq.
    replace (e - (d + e - 53)) with (53 - d) in Hmz by lia.
    assert (Hpow : 2 ^ (53 - d) * 2 ^ (d - 1) = 2 ^ 52)
      by (rewrite <- Z.pow_add_r by lia; f_equal; lia).
    assert (Hpow' : 2 ^ (53 - d) * 2 ^ d = 2 ^ 53)
      by (rewrite <- Z.pow_add_r by lia; f_equal; lia).
    assert (Pw : 0 < 2 ^ (53 - d)) by (apply Z.pow_pos_nonneg; lia).
    assert (Hm : 2 ^ 52 <= Z.pos mz < 2 ^ 53).
    { rewrite Hmz, <- Hpow, <- Hpow'. split.
      - rewrite (Z.mul_comm (Z.pos P)). apply Z.mul_le_mono_nonneg_l; lia.
      - rewrite (Z.mul_comm (Z.pos P)). apply Z.mul_lt_mono_pos_l; lia. }
    rewrite binary_round_aux_canonical by lia.
    exists mz, (d + e - 53). split; [reflexivity|]. split; [exact Hm|]. split; [lia|].
    intros K HK HK'.
    assert (Hexact : Z.pos mz * 2 ^ (d + e - 53 + K) = Z.pos P * 2 ^ (e + K)).
    { rewrite Hmz, <- Z.mul_assoc, <- Z.pow_add_r by lia. f_equal. f_equal. lia. }
    rewrite Hexact.
    assert (0 < Z.pos P * 2 ^ (e + K)) by (apply Z.mul_pos_pos; [lia | apply Z.pow_pos_nonneg; lia]).
    change (2 ^ 53) with 9007199254740992. lia.
  - assert (Hshl : shl_align P e (d + e - 53) = (P, e)).
    { unfold shl_align. destruct (d + e - 53 - e) eqn:E; try reflexivity. lia. }
    rewrite Hshl.
    set (n := Z.to_nat (d - 54)).
    assert (Hn : Z.of_nat (S n) = d - 53) by (subst n; lia).
    destruct (@binary_round_aux_exact P e n) as (m & e' & N & Eq & Hm & He' & Hv & HN & [Hn1 Hn2]).
    + rewrite Hn. replace (52 + (d - 53)) with (d - 1) by lia.
      replace (53 + (d - 53)) with d by lia. exact Hd.
    + rewrite Hn. lia.
    + exists m, e'. split; [exact Eq|]. split; [exact Hm|]. split; [lia|].
      intros K HK HK'.
      rewrite Hn in He', Hv.
      assert (Hval : Z.pos m * 2 ^ (e' + K) = N * 2 ^ (e + (d - 53) + K)).
      { rewrite <- Hv, <- Z.mul_assoc, <- Z.pow_add_r by lia. f_equal. f_equal. lia. }
      rewrite Hval.
      assert (Hsplit : 2 ^ (e + (d - 53) + K) = 2 ^ Z.of_nat (S n) * 2 ^ (e + K)).
      { rewrite <- Z.pow_add_r by lia. f_equal. lia. }
      rewrite Hsplit.
      set (w := 2 ^ (e + K)). assert (Pw : 0 < w) by (subst w; apply Z.pow_pos_nonneg; lia).
      assert (Hpow : 2 ^ Z.of_nat (S n) = 2 * 2 ^ Z.of_nat n)
        by (rewrite Nat2Z.inj_succ, Z.pow_succ_r by lia; reflexivity).
      assert (Hbin : 2 ^ 53 * 2 ^ Z.of_nat n <= Z.pos P).
      { destruct Hd as [Hlo _]. replace (d - 1) with (53 + Z.of_nat n) in Hlo by lia.
        rewrite Z.pow_add_r in Hlo by lia. exact Hlo. }
      rewrite Hpow in *. set (h := 2 ^ Z.of_nat n) in *.
      assert (Ph : 0 < h) by (subst h; apply Z.pow_pos_nonneg; lia).
      replace (N * (2 * h * w) * 2 ^ 53) with ((N * (2 * h) * 2 ^ 53) * w) by ring.
      replace (Z.pos P * w * (2 ^ 53 - 1)) with ((Z.pos P * (2 ^ 53 - 1)) * w) by ring.
      replace (Z.pos P * w * (2 ^ 53 + 1)) with ((Z.pos P * (2 ^ 53 + 1)) * w) by ring.
      change (2 ^ 53) with 9007199254740992 in *.
      split; apply Z.mul_le_mono_nonneg_r; lia.
Qed.

Lemma holdsInteger_number_of_Z (z : Z) :
  0 < z < 2 ^ 53 -> holdsInteger (number_of_Z z) z.
Proof.
  intros Hz. unfold number_of_Z. destruct (Z.ltb_spec z 0); [lia|].
  exact (@number_of_Z_spec z Hz).
Qed.

Lemma holdsInteger_positive (x : number) (z : Z) : holdsInteger x z -> 0 < z < 2 ^ 53.
Proof.
  intros (m & e & _ & Hm & He & Hv).
  assert (Pw : 0 < 2 ^ (- e)) by (apply Z.pow_pos_nonneg; lia).
  assert (1 <= 2 ^ (- e)) by lia.
  split.
  - destruct (Z.lt_ge_cases 0 z); [assumption|]. exfalso.
    assert (z * 2 ^ (- e) <= 0) by (apply Z.mul_nonpos_nonneg; lia). lia.
  - destruct (Z.lt_ge_cases z (2 ^ 53)); [assumption|]. exfalso.
    assert (2 ^ 53 * 1 <= z * 2 ^ (- e)) by (apply Z.mul_le_mono_nonneg; lia). lia.
Qed.

(** Rounding is exact on a whole number below [2^53]. *)
Lemma binary_round_integer (P : positive) (e z : Z) :
  -52 <= e <= 0 -> 0 < z < 2 ^ 53 -> Z.pos P = z * 2 ^ (- e) ->
  exists m e',
    binary_round prec emax false P e = S754_finite false m e'
    /\ 2 ^ 52 <= Z.pos m < 2 ^ 53
    /\ -52 <= e' <= 0
    /\ Z.pos m = z * 2 ^ (- e').
Proof.
  intros He Hz HP. unfold binary_round.
  destruct z as [|pz|pz]; try lia.
  pose proof (Zdigits2_bounds pz) as Hdz.
  set (dz := Zdigits2 (Z.pos pz)) in *.
  assert (Hdz1 : 1 <= dz) by (subst dz; cbn; lia).
  assert (Hdz53 : dz <= 53).
  { destruct (Z.le_gt_cases dz 53) as [|Hgt]; [assumption|exfalso].
    assert (2 ^ 53 <= 2 ^ (dz - 1)) by (apply Z.pow_le_mono_r; lia). lia. }
  assert (Pw : 0 < 2 ^ (- e)) by (apply Z.pow_pos_nonneg; lia).
  assert (Hd : Zdigits2 (Z.pos P) = dz - e).
  { apply Zdigits2_unique; [lia|].
    replace (dz - e - 1) with (dz - 1 + - e) by lia.
    replace (dz - e) with (dz + - e) by lia.
    rewrite !Z.pow_add_r, HP by lia. split.
    - apply Z.mul_le_mono_nonneg_r; lia.
    - apply Z.mul_lt_mono_pos_r; lia. }
  change (Z.pos (digits2_pos P)) with (Zdigits2 (Z.pos P)). rewrite Hd.
  rewrite fexp_normal by lia.
  replace (dz - e + e - 53) with (dz - 53) by lia.
  set (M := Z.pos pz * 2 ^ (53 - dz)).
  assert (P53 : 0 < 2 ^ (53 - dz)) by (apply Z.pow_pos_nonneg; lia).
  assert (HM : 2 ^ 52 <= M < 2 ^ 53).
  { assert (E1 : 2 ^ 52 = 2 ^ (dz - 1) * 2 ^ (53 - dz))
      by (rewrite <- Z.pow_add_r by lia; f_equal; lia).
    assert (E2 : 2 ^ 53 = 2 ^ dz * 2 ^ (53 - dz))
      by (rewrite <- Z.pow_add_r by lia; f_equal; lia).
    rewrite E1, E2. subst M. split.
    - apply Z.mul_le_mono_nonneg_r; lia.
    - apply Z.mul_lt_mono_pos_r; lia. }
  destruct (Z.le_gt_cases (dz - 53) e) as [Hsmall|Hbig].
  - destruct (@shl_align_spec P e (dz - 53) Hsmall) as (mz & Eq & Hmz).
    rewrite Eq.
    assert (HmzM : Z.pos mz = M).
    { rewrite Hmz, HP. subst M. rewrite <- Z.mul_assoc, <- Z.pow_add_r by lia.
      f_equal. f_equal. lia. }
    rewrite binary_round_aux_canonical by lia.
    exists mz, (dz - 53). split; [reflexivity|]. split; [lia|]. split; [lia|].
    rewrite HmzM. subst M. f_equal. f_equal. lia.
  - assert (Hshl : shl_align P e (dz - 53) = (P, e)).
    { unfold shl_align. destruct (dz - 53 - e) eqn:E; try reflexivity. lia. }
    rewrite Hshl.
    set (n := Z.to_nat (dz - 54 - e)).
    assert (Hn : Z.of_nat (S n) = dz - 53 - e) by (subst n; lia).
    assert (HPM : Z.pos P = M * 2 ^ Z.of_nat (S n)).
    { rewrite HP, Hn. subst M. rewrite <- Z.mul_assoc, <- Z.pow_add_r by lia.
      f_equal. f_equal. lia. }
    destruct (@binary_round_aux_exact P e n) as (m & e' & N & Eq & Hm & He' & Hv & HN & [Hn1 Hn2]).
    + rewrite HPM, !Z.pow_add_r by lia. split.
      * apply Z.mul_le_mono_nonneg_r; lia.
      * apply Z.mul_lt_mono_pos_r; lia.
    + rewrite Hn. lia.
    + assert (Hpow : 2 ^ Z.of_nat (S n) = 2 * 2 ^ Z.of_nat n)
        by (rewrite Nat2Z.inj_succ, Z.pow_succ_r by lia; reflexivity).
      assert (Ph : 0 < 2 ^ Z.of_nat n) by (apply Z.pow_pos_nonneg; lia).
      assert (HNM : N = M).
      { rewrite HPM, Hpow in Hn1, Hn2. set (h := 2 ^ Z.of_nat n) in *.
        assert ((2 * N - 1) * h <= (2 * M) * h) by lia.
        assert ((2 * M) * h <= (2 * N + 1) * h) by lia.
        assert (2 * N - 1 <= 2 * M) by (apply (@cancel_scale _ _ h); assumption).
        assert (2 * M <= 2 * N + 1) by (apply (@cancel_scale _ _ h); assumption).
        lia. }
      rewrite Hn in He', Hv.
      assert (e' = dz - 53).
      { destruct (Z.eq_dec e' (dz - 53)) as [|Hne]; [assumption|exfalso].
        assert (E1 : e' - (e + (dz - 53 - e)) = 1) by lia.
        rewrite E1 in Hv. change (2 ^ 1) with 2 in Hv. lia. }
      subst e'. replace (dz - 53 - (e + (dz - 53 - e))) with 0 in Hv by lia.
      change (2 ^ 0) with 1 in Hv.
      exists m, (dz - 53). split; [exact Eq|]. split; [exact Hm|]. split; [lia|].
      replace (Z.pos m) with M by lia. subst M. f_equal. f_equal. lia.
Qed.

(** Whole numbers below [2^53] subtract exactly. *)
Lemma holdsInteger_sub (x y : number) (a b : Z) :
  holdsInteger x a -> holdsInteger y b -> b < a ->
  holdsInteger (PrimFloat.sub x y) (a - b).
Proof.
  intros Hx Hy Hab.
  pose proof (holdsInteger_positive Hx) as Ha. pose proof (holdsInteger_positive Hy) as Hb.
  destruct Hx as (mx & ex & Ex & Hmx & Hex & Hvx).
  destruct Hy as (my & ey & Ey & Hmy & Hey & Hvy).
  unfold holdsInteger. rewrite FloatAxioms.sub_spec, Ex, Ey. unfold SF64sub. cbn [SFsub cond_Zopp].
  set (ez := Z.min ex ey).
  destruct (@shl_align_spec mx ex ez ltac:(subst ez; lia)) as (ax & Eax & Hax).
  destruct (@shl_align_spec my ey ez ltac:(subst ez; lia)) as (ay & Eay & Hay).
  rewrite Eax, Eay. cbn [fst].
  assert (Hez : -52 <= ez <= 0) by (subst ez; lia).
  assert (Hdiff : Z.pos ax - Z.pos ay = (a - b) * 2 ^ (- ez)).
  { rewrite Hax, Hay, Hvx, Hvy, <- !Z.mul_assoc, <- !Z.pow_add_r by lia.
    replace (- ex + (ex - ez)) with (- ez) by lia.
    replace (- ey + (ey - ez)) with (- ez) by lia. ring. }
  assert (Pw : 0 < 2 ^ (- ez)) by (apply Z.pow_pos_nonneg; lia).
  assert (Hpos : 0 < Z.pos ax - Z.pos ay) by (rewrite Hdiff; apply Z.mul_pos_pos; lia).
  destruct (Z.pos ax - Z.pos ay) as [|P|P] eqn:EP; try lia.
  cbn [binary_normalize].
  apply (@binary_round_integer P ez (a - b)); [lia | lia | exact Hdiff].
Qed.

Lemma units_integer (m : positive) (e z : Z) :
  -52 <= e <= 0 -> Z.pos m = z * 2 ^ (- e) -> units m e = z * 2 ^ 160.
Proof.
  intros He Hv. unfold units. rewrite Hv, <- Z.mul_assoc, <- Z.pow_add_r by lia.
  f_equal. f_equal. lia.
Qed.

(** The quotient of two whole numbers, as a double, is at least the exact
    quotient less one part in [2^52]. *)
Lemma quotient_lower (x y : number) (a b : Z) :
  holdsInteger x a -> holdsInteger y b ->
  exists ms es,
    Prim2SF (PrimFloat.div x y) = S754_finite false ms es
    /\ 2 ^ 52 <= Z.pos ms < 2 ^ 53
    /\ -106 <= es <= 1
    /\ a * 2 ^ 160 * 2 ^ 52 <= (2 ^ 52 + 1) * (b * units ms es).
Proof.
  intros Hx Hy.
  pose proof (holdsInteger_positive Hx) as Ha. pose proof (holdsInteger_positive Hy) as Hb.
  destruct Hx as (m1 & e1 & E1 & Hm1 & He1 & Hv1).
  destruct Hy as (m2 & e2 & E2 & Hm2 & He2 & Hv2).
  rewrite FloatAxioms.div_spec, E1, E2. unfold SF64div.
  destruct (@SFdiv_bracket m1 m2 e1 e2 Hm1 Hm2 ltac:(lia))
    as (m & e & N & n & Eq & Hm & Hn & He & Hv & HN & [_ Hbr] & _).
  exists m, e. split; [exact Eq|]. split; [exact Hm|]. split; [lia|].
  set (E0 := e1 - e2 - 53 + n) in *.
  assert (Hunits : units m e = N * 2 ^ (E0 + 160)).
  { unfold units. rewrite <- Hv, <- Z.mul_assoc, <- Z.pow_add_r by lia.
    f_equal. f_equal. lia. }
  rewrite Hunits.
  set (w := 2 ^ (- e1)) in *. set (u := 2 ^ (- e2)) in *.
  assert (Pw : 0 < w) by (subst w; apply Z.pow_pos_nonneg; lia).
  assert (Pu : 0 < u) by (subst u; apply Z.pow_pos_nonneg; lia).
  assert (Pn : 0 < 2 ^ n) by (apply Z.pow_pos_nonneg; lia).
  set (X := 2 ^ n * u * 2 ^ 160).
  assert (PX : 0 < X) by (subst X; repeat apply Z.mul_pos_pos; lia).
  assert (HcX : 2 ^ (E0 + 160) * (w * 2 ^ 53) = X).
  { subst X w u. rewrite <- !Z.pow_add_r by lia. f_equal. lia. }
  apply (@cancel_scale _ _ (w * 2 ^ 53)); [apply Z.mul_pos_pos; lia|].
  replace ((2 ^ 52 + 1) * (b * (N * 2 ^ (E0 + 160))) * (w * 2 ^ 53))
    with ((2 ^ 52 + 1) * N * (b * (2 ^ (E0 + 160) * (w * 2 ^ 53)))) by ring.
  rewrite HcX.
  replace (a * 2 ^ 160 * 2 ^ 52 * (w * 2 ^ 53))
    with ((a * w * 2 ^ 53) * (2 ^ 52 * 2 ^ 160)) by ring.
  rewrite <- Hv1.
  assert (H1 : Z.pos m1 * 2 ^ 53 * (2 ^ 52 * 2 ^ 160)
               <= (N + 1) * 2 ^ n * Z.pos m2 * (2 ^ 52 * 2 ^ 160))
    by (apply Z.mul_le_mono_nonneg_r; [lia | exact Hbr]).
  rewrite Hv2 in H1.
  replace ((N + 1) * 2 ^ n * (b * u) * (2 ^ 52 * 2 ^ 160))
    with (((N + 1) * 2 ^ 52) * (b * X)) in H1 by (subst X; ring).
  assert (PbX : 0 < b * X) by (apply Z.mul_pos_pos; lia).
  assert (H2 : (N + 1) * 2 ^ 52 * (b * X) <= (2 ^ 52 + 1) * N * (b * X)).
  { apply Z.mul_le_mono_nonneg_r; [lia|]. change (2 ^ 52) with 4503599627370496 in *. lia. }
  lia.
Qed.

(** Adding a positive double to a whole number loses at most one part in
    [2^53]. *)
Lemma sum_lower (x y : number) (v : Z) (ms : positive) (es : Z) :
  holdsInteger x v ->
  Prim2SF y = S754_finite false ms es -> 2 ^ 52 <= Z.pos ms < 2 ^ 53 -> -106 <= es <= 1 ->
  exists m e,
    Prim2SF (PrimFloat.add x y) = S754_finite false m e
    /\ 2 ^ 52 <= Z.pos m < 2 ^ 53
    /\ -160 <= e
    /\ (v * 2 ^ 160 + units ms es) * (2 ^ 53 - 1) <= units m e * 2 ^ 53.
Proof.
  intros (mx & ex & Ex & Hmx & Hex & Hvx) Ey Hms Hes.
  rewrite FloatAxioms.add_spec, Ex, Ey. unfold SF64add. cbn [SFadd cond_Zopp].
  set (ez := Z.min ex es).
  assert (Hez : -106 <= ez <= 0) by (subst ez; lia).
  destruct (@shl_align_spec mx ex ez ltac:(subst ez; lia)) as (ax & Eax & Hax).
  destruct (@shl_align_spec ms es ez ltac:(subst ez; lia)) as (ay & Eay & Hay).
  rewrite Eax, Eay. cbn [fst].
  change (Z.pos ax + Z.pos ay) with (Z.pos (ax + ay)). cbn [binary_normalize].
  assert (Hax' : Z.pos ax < 2 ^ 53 * 2 ^ 107).
  { rewrite Hax. apply Z.mul_lt_mono_nonneg; [lia | lia | apply Z.pow_nonneg; lia |].
    apply Z.pow_lt_mono_r; lia. }
  assert (Hay' : Z.pos ay < 2 ^ 53 * 2 ^ 108).
  { rewrite Hay. apply Z.mul_lt_mono_nonneg; [lia | lia | apply Z.pow_nonneg; lia |].
    apply Z.pow_lt_mono_r; lia. }
  destruct (@binary_round_lower (ax + ay) ez ltac:(lia)) as (m & e & Eq & Hm & He & Hval).
  { rewrite Pos2Z.inj_add. change (2 ^ 53 * 2 ^ 107) with (2 ^ 160) in Hax'.
    change (2 ^ 53 * 2 ^ 108) with (2 ^ 161) in Hay'.
    assert (2 ^ 160 + 2 ^ 161 < 2 ^ 200) by (vm_compute; reflexivity). lia. }
  exists m, e. split; [exact Eq|]. split; [exact Hm|]. split; [lia|].
  destruct (Hval 160 ltac:(lia) ltac:(lia)) as [Hlo _].
  assert (Hsum : Z.pos (ax + ay) * 2 ^ (ez + 160) = v * 2 ^ 160 + units ms es).
  { rewrite Pos2Z.inj_add, Hax, Hay, Hvx. unfold units.
    rewrite Z.mul_add_distr_r, <- !Z.mul_assoc, <- !Z.pow_add_r by lia.
    replace (- ex + (ex - ez + (ez + 160))) with 160 by lia.
    replace (es - ez + (ez + 160)) with (es + 160) by lia. reflexivity. }
  rewrite Hsum in Hlo. unfold units. exact Hlo.
Qed.

(** [<=] on positive doubles is [<=] on their values. *)
Lemma leb_units (x y : number) (m1 m2 : positive) (e1 e2 : Z) :
  Prim2SF x = S754_finite false m1 e1 -> 2 ^ 52 <= Z.pos m1 < 2 ^ 53 -> -160 <= e1 ->
  Prim2SF y = S754_finite false m2 e2 -> 2 ^ 52 <= Z.pos m2 < 2 ^ 53 -> -160 <= e2 ->
  PrimFloat.leb x y = true -> units m1 e1 <= units m2 e2.
Proof.
  intros E1 Hm1 He1 E2 Hm2 He2. rewrite FloatAxioms.leb_spec, E1, E2.
  unfold SFleb. cbn [SFcompare]. unfold units.
  destruct (Z.compare_spec e1 e2) as [->|Hlt|Hgt].
  - change (PosDef.Pos.compare_cont Eq m1 m2) with (Pos.compare m1 m2).
    destruct (Pos.compare_spec m1 m2) as [->|Hm|Hm]; intros H; try discriminate.
    + lia.
    + apply Z.mul_le_mono_nonneg_r; [apply Z.pow_nonneg; lia | lia].
  - intros _.
    replace (e2 + 160) with (e2 - e1 + (e1 + 160)) by lia.
    rewrite (Z.pow_add_r 2 (e2 - e1) (e1 + 160)), Z.mul_assoc by lia.
    apply Z.mul_le_mono_nonneg_r; [apply Z.pow_nonneg; lia|].
    assert (2 ^ 1 <= 2 ^ (e2 - e1)) by (apply Z.pow_le_mono_r; lia).
    change (2 ^ 1) with 2 in *.
    assert (2 ^ 52 * 2 <= Z.pos m2 * 2 ^ (e2 - e1)) by (apply Z.mul_le_mono_nonneg; lia).
    change (2 ^ 53) with (2 ^ 52 * 2) in *. lia.
  - discriminate.
Qed.

(** One comparison of the sampling walk, on whole-millisecond timestamps:
    a fix at [w] ms that [>=] finds a time step past the last emitted fix
    at [v] ms is at least [D / b] ms later, in exact arithmetic. *)
Lemma advance_is_a_full_step (cur timeStep coordTime span divisor : number) (v w D b : Z) :
  holdsInteger cur v -> holdsInteger coordTime w ->
  holdsInteger span D -> holdsInteger divisor b ->
  timeStep = PrimFloat.div span divisor ->
  b * v <= 2 ^ 50 -> D <= 2 ^ 50 ->
  PrimFloat.leb (PrimFloat.add cur timeStep) coordTime = true ->
  D <= b * (w - v).
Proof.
  intros Hcur Hw Hspan Hdiv -> Hbv HD Hleb.
  pose proof (holdsInteger_positive Hcur) as Pv.
  pose proof (holdsInteger_positive Hdiv) as Pb.
  destruct (@quotient_lower span divisor D b Hspan Hdiv) as (ms & es & Es & Hms & Hes & Hq).
  destruct (@sum_lower cur (PrimFloat.div span divisor) v ms es Hcur Es Hms Hes)
    as (m & e & Er & Hm & He & Hsum).
  destruct Hw as (mw & ew & Ew & Hmw & Hew & Hvw).
  pose proof (@leb_units _ _ m mw e ew Er Hm He Ew Hmw ltac:(lia) Hleb) as Hle.
  rewrite (@units_integer mw ew w Hew Hvw) in Hle.
  set (R := units m e) in *. set (TS := units ms es) in *.
  destruct (Z.le_gt_cases D (b * (w - v))) as [|Hcontra]; [assumption|exfalso].
  assert (H1 : b * R <= b * (w * 2 ^ 160)) by (apply Z.mul_le_mono_nonneg_l; lia).
  assert (H2 : b * ((v * 2 ^ 160 + TS) * (2 ^ 53 - 1)) <= b * (R * 2 ^ 53))
    by (apply Z.mul_le_mono_nonneg_l; lia).
  assert (H3 : b * w <= b * v + D - 1) by lia.
  clear - H1 H2 H3 Hq Hbv HD Pv Pb.
  change (2 ^ 160) with 1461501637330902918203684832716283019655932542976 in *.
  change (2 ^ 53) with 9007199254740992 in *.
  change (2 ^ 52) with 4503599627370496 in *.
  change (2 ^ 50) with 1125899906842624 in *.
  lia.
Qed.

End DoubleRounding.

(** ** Index-stride sampling *)

Lemma seq_ends (n : nat) :
  2 <= n -> seq 0 n = 0 :: seq 1 (n - 2) ++ [n - 1].
Proof.
  intros H. replace n with (S (n - 2 + 1)) at 1 by lia.
  cbn [seq]. rewrite seq_app. cbn [seq]. do 3 f_equal. lia.
Qed.

Lemma map_seq_increasing_on (f : nat -> nat) :
  forall n s,
    (forall i j, s <= i -> i < j -> j < s + n -> f i < f j) ->
    StronglySorted lt (map f (seq s n)).
Proof.
  induction n as [|n IH]; intros s Hf; simpl.
  - constructor.
  - constructor.
    + apply IH. intros i j Hi Hij Hj. apply Hf; lia.
    + apply Forall_forall. intros y Hy.
      apply in_map_iff in Hy. destruct Hy as [j [<- Hj]].
      apply in_seq in Hj. apply Hf; lia.
Qed.

Lemma StronglySorted_snoc (l : list nat) (x : nat) :
  StronglySorted lt l -> Forall (fun k => k < x) l -> StronglySorted lt (l ++ [x]).
Proof.
  induction 1 as [|y l Hl IH Hy]; intros Hx; simpl.
  - constructor; constructor.
  - inversion Hx; subst. constructor; [now apply IH|].
    apply Forall_app. split; [assumption | constructor; [assumption | constructor]].
Qed.

Lemma sampleCoordinatesEvenly_length (coordinates : list Coordinate) (targetCount : nat) :
  2 <= targetCount ->
  length (sampleCoordinatesEvenly coordinates targetCount)
  = Nat.min (length coordinates) targetCount.
Proof.
  intros HM. unfold sampleCoordinatesEvenly.
  destruct (Nat.leb_spec (length coordinates) targetCount) as [H|H]; [lia|].
  destruct coordinates as [|first rest]; [simpl in H; lia|].
  cbv zeta. set (l := first :: rest) in *.
  cbn [length]. rewrite length_app, length_map, length_seq. cbn [length]. lia.
Qed.

(** In doubles the product [i * step] can fall just below an exact tie, and
    [Math.round] then returns the lower of the two nearest integers. *)
Lemma double_index_at_a_tie :
  doubleIndex 15 197 25 = Some 122%Z /\ roundedIndex 15 197 25 = 123.
Proof. split; vm_compute; reflexivity. Qed.

(** The rounded strides of one call, as natural numbers: each of them is an
    index strictly inside the array, and they increase with [i]. *)
Lemma stride_indices_ordered (len targetCount : nat) :
  2 <= targetCount -> targetCount < len -> (Z.of_nat len <= 2 ^ 49)%Z ->
  let index := fun i => match doubleIndex i len targetCount with
                        | Some z => Z.to_nat z
                        | None => 0
                        end in
  (forall i, 1 <= i <= targetCount - 2 ->
             doubleIndex i len targetCount = Some (Z.of_nat (index i)))
  /\ (forall i, 1 <= i <= targetCount - 2 -> 1 <= index i <= len - 2)
  /\ (forall i j, 1 <= i -> i < j -> j <= targetCount - 2 -> index i < index j).
Proof.
  intros HM Hlen Hsize index.
  destruct (@doubleIndex_rounded len targetCount HM Hlen Hsize)
    as (stepUnits & HS1 & HS2 & HS3 & Hall).
  set (a := (Z.of_nat len - 1)%Z) in *. set (b := (Z.of_nat targetCount - 1)%Z) in *.
  assert (Ha : (a < 2 ^ 49)%Z) by (subst a; lia).
  assert (Hfacts : forall i, 1 <= i <= targetCount - 2 ->
             exists n, doubleIndex i len targetCount = Some n
                       /\ roundedProduct stepUnits (Z.of_nat i) n
                       /\ (1 <= n <= a - 1)%Z).
  { intros i Hi. destruct (Hall i ltac:(lia) ltac:(lia)) as (n & E & R).
    exists n. split; [exact E|]. split; [exact R|]. split.
    - exact (roundedProduct_positive R).
    - apply (@roundedProduct_below stepUnits a b (Z.of_nat i) n); try assumption;
        subst a b; lia. }
  assert (Hindex : forall i, 1 <= i <= targetCount - 2 ->
             roundedProduct stepUnits (Z.of_nat i) (Z.of_nat (index i))
             /\ (1 <= Z.of_nat (index i) <= a - 1)%Z).
  { intros i Hi. destruct (Hfacts i Hi) as (n & E & R & Hn).
    subst index. cbv beta. rewrite E. rewrite Z2Nat.id by lia. split; assumption. }
  split; [|split].
  - intros i Hi. destruct (Hfacts i Hi) as (n & E & R & Hn).
    subst index. cbv beta. rewrite E. rewrite Z2Nat.id by lia. reflexivity.
  - intros i Hi. destruct (Hindex i Hi) as [_ Hn]. subst a. lia.
  - assert (Hstep : forall i, 1 <= i -> S i <= targetCount - 2 -> index i < index (S i)).
    { intros i Hi Hsucc.
      destruct (Hindex i ltac:(lia)) as [R _]. destruct (Hindex (S i) ltac:(lia)) as [R' _].
      rewrite Nat2Z.inj_succ in R'. unfold Z.succ in R'.
      pose proof (@step_above stepUnits a b ltac:(subst a; lia) HS2) as Habove.
      assert (Hbound : ((Z.of_nat i + 1) * stepUnits <= b * stepUnits)%Z)
        by (apply Z.mul_le_mono_nonneg_r; subst b; lia).
      pose proof (@roundedProduct_increasing stepUnits (Z.of_nat i) _ _ HS1 ltac:(lia)
                    ltac:(change (2 ^ 104)%Z with 20282409603651670423947251286016%Z;
                          change (2 ^ 49)%Z with 562949953421312%Z in Ha;
                          change (2 ^ 52)%Z with 4503599627370496%Z in Habove; lia)
                    R R') as Hlt.
      lia. }
    intros i j Hi Hij Hj. induction Hij as [|m Hm IH].
    + apply Hstep; lia.
    + pose proof (Hstep m ltac:(lia) ltac:(lia)). specialize (IH ltac:(lia)). lia.
Qed.

(** The indices read by one call are as many as the target, strictly
    increasing, and inside the array. *)
Lemma doubleIndices_ordered (len targetCount : nat) :
  2 <= targetCount -> targetCount < len -> (Z.of_nat len <= 2 ^ 49)%Z ->
  length (doubleIndices len targetCount) = targetCount
  /\ StronglySorted lt (doubleIndices len targetCount)
  /\ Forall (fun k => k < len) (doubleIndices len targetCount).
Proof.
  intros HM Hlen Hsize.
  destruct (@stride_indices_ordered len targetCount HM Hlen Hsize) as (_ & Hrange & Hmono).
  cbv zeta in Hrange, Hmono. unfold doubleIndices.
  set (index := fun i => match doubleIndex i len targetCount with
                         | Some z => Z.to_nat z
                         | None => 0
                         end) in *.
  assert (Hin : forall k, In k (map index (seq 1 (targetCount - 2))) -> 1 <= k <= len - 2).
  { intros k Hk. apply in_map_iff in Hk. destruct Hk as (i & <- & Hi).
    apply in_seq in Hi. apply Hrange. lia. }
  split; [|split].
  - cbn [length]. rewrite length_app, length_map, length_seq. cbn [length]. lia.
  - constructor.
    + apply StronglySorted_snoc.
      * apply map_seq_increasing_on. intros i j Hi Hij Hj. apply Hmono; lia.
      * apply Forall_forall. intros k Hk. specialize (Hin k Hk). lia.
    + apply Forall_app. split.
      * apply Forall_forall. intros k Hk. specialize (Hin k Hk). lia.
      * constructor; [lia | constructor].
  - constructor; [lia|]. apply Forall_app. split.
    + apply Forall_forall. intros k Hk. specialize (Hin k Hk). lia.
    + constructor; [lia | constructor].
Qed.

(** The function reads exactly the positions of [doubleIndices]. *)
Lemma sampleCoordinatesEvenly_reads (coordinates : list Coordinate) (targetCount : nat)
      (d : Coordinate) :
  2 <= targetCount -> targetCount < length coordinates ->
  (Z.of_nat (length coordinates) <= 2 ^ 49)%Z ->
  sampleCoordinatesEvenly coordinates targetCount
  = map (fun k => nth k coordinates d) (doubleIndices (length coordinates) targetCount).
Proof.
  intros HM Hlen Hsize.
  destruct (@stride_indices_ordered (length coordinates) targetCount HM Hlen Hsize)
    as (Hsome & Hrange & _).
  cbv zeta in Hsome, Hrange.
  unfold sampleCoordinatesEvenly, doubleIndices.
  destruct (Nat.leb_spec (length coordinates) targetCount) as [H|_]; [lia|].
  destruct coordinates as [|first rest]; [simpl in Hlen; lia|].
  cbv zeta. set (l := first :: rest) in *.
  rewrite map_cons, map_app, map_map. f_equal. f_equal.
  - apply map_ext_in. intros i Hi. apply in_seq in Hi.
    rewrite (Hsome i ltac:(lia)). unfold elementAt.
    destruct (Z.leb_spec 0 (Z.of_nat
      match doubleIndex i (length l) targetCount with
      | Some z => Z.to_nat z
      | None => 0
      end)) as [_|Hneg]; [|lia].
    rewrite Nat2Z.id. apply nth_indep. specialize (Hrange i ltac:(lia)). lia.
  - cbn [map]. f_equal. apply nth_indep. lia.
Qed.

Lemma nearestIndex_spec (i len targetCount r : nat) :
  1 <= len -> 1 <= targetCount ->
  nearestIndex i len targetCount r = true
  <-> 2 * r * (targetCount - 1) <= 2 * (i * (len - 1)) + (targetCount - 1)
      /\ 2 * (i * (len - 1)) <= 2 * r * (targetCount - 1) + (targetCount - 1).
Proof.
  intros Hlen HM. unfold nearestIndex. cbv zeta.
  rewrite andb_true_iff, !Z.leb_le.
  replace (Z.of_nat len - 1)%Z with (Z.of_nat (len - 1)) by lia.
  replace (Z.of_nat targetCount - 1)%Z with (Z.of_nat (targetCount - 1)) by lia.
  generalize (len - 1) (targetCount - 1). intros a b. lia.
Qed.

(** As long as [len * targetCount <= 2^50], every index is an integer
    nearest to [i * (len - 1) / (targetCount - 1)]. *)
Lemma doubleIndices_nearest (len targetCount : nat) :
  2 <= targetCount -> targetCount < len ->
  (Z.of_nat len * Z.of_nat targetCount <= 2 ^ 50)%Z ->
  doubleIndicesNearest len targetCount = true.
Proof.
  intros HM Hlen Hsize.
  assert (Hsmall : (Z.of_nat len <= 2 ^ 49)%Z).
  { change (2 ^ 50)%Z with (2 ^ 49 * 2)%Z in Hsize.
    assert ((Z.of_nat len * 2 <= Z.of_nat len * Z.of_nat targetCount)%Z)
      by (apply Z.mul_le_mono_nonneg_l; lia).
    lia. }
  destruct (@doubleIndex_rounded len targetCount HM Hlen Hsmall)
    as (stepUnits & HS1 & HS2 & HS3 & Hall).
  set (a := (Z.of_nat len - 1)%Z) in *. set (b := (Z.of_nat targetCount - 1)%Z) in *.
  unfold doubleIndicesNearest. apply forallb_forall. intros i Hi. apply in_seq in Hi.
  destruct (Hall i ltac:(lia) ltac:(lia)) as (n & E & R). rewrite E.
  pose proof (roundedProduct_positive R) as Hn.
  assert (Hab : (a * b <= 2 ^ 50)%Z).
  { apply Z.le_trans with (Z.of_nat len * Z.of_nat targetCount)%Z; [|exact Hsize].
    apply Z.mul_le_mono_nonneg; subst a b; lia. }
  destruct (@roundedProduct_nearest stepUnits a b (Z.of_nat i) n
              ltac:(subst b; lia) ltac:(subst a b; lia) Hab ltac:(subst b; lia) HS2 HS3 R)
    as [Hlo Hhi].
  apply andb_true_intro. split; [apply Z.leb_le; lia|].
  unfold nearestIndex. cbv zeta. fold a b. rewrite Z2Nat.id by lia.
  apply andb_true_intro. split; apply Z.leb_le; lia.
Qed.

(** The index formula of the specification fails on the code: of 197
    coordinates and a target of 25, slot 15 is read at index 122, where
    [round(15 * 196 / 24)] is 123. *)
Lemma index_stride_formula_counterexample :
  let track := Sample.track 197 in
  let d := Sample.fixAt "" "" in
  length track = 197
  /\ roundedIndex 15 197 25 = 123
  /\ nth 15 (sampleCoordinatesEvenly track 25) d = nth 122 track d
  /\ nth 15 (sampleCoordinatesEvenly track 25) d
     <> nth (roundedIndex 15 197 25) track d
  /\ doubleIndices 197 25 <> evenIndices 197 25.
Proof.
  cbv zeta. split; [reflexivity|]. split; [vm_compute; reflexivity|].
  split; [vm_compute; reflexivity|]. split.
  - intros H. apply (f_equal id) in H. vm_compute in H. discriminate H.
  - intros H. apply (f_equal (fun l => nth 15 l 0)) in H. vm_compute in H. discriminate H.
Qed.

(** C6. For an input of length at least 2 (and below 2^32, as every
    JavaScript array) and a target of at least 2, index-stride sampling
    returns [min len targetCount] elements: the input itself when
    [len <= targetCount], and otherwise the elements at the source indices
    [doubleIndices]: 0, then [Math.round(i * step)] for
    [i = 1 .. targetCount - 2] with [step = (len - 1) / (targetCount - 1)],
    quotient and product rounded to doubles, then [len - 1].  That index
    sequence is strictly increasing and stays inside the input, and as long
    as [len * targetCount <= 2^50] each index is an integer nearest to
    [i * (len - 1) / (targetCount - 1)]. *)
Theorem index_stride_length_and_order (coordinates : list Coordinate) (targetCount : nat) :
  2 <= length coordinates -> 2 <= targetCount ->
  (Z.of_nat (length coordinates) < 2 ^ 32)%Z ->
  let len := length coordinates in
  length (sampleCoordinatesEvenly coordinates targetCount) = Nat.min len targetCount
  /\ (len <= targetCount -> sampleCoordinatesEvenly coordinates targetCount = coordinates)
  /\ (targetCount < len ->
      (forall d, sampleCoordinatesEvenly coordinates targetCount
                 = map (fun k => nth k coordinates d) (doubleIndices len targetCount))
      /\ doubleIndices len targetCount
         = 0 :: map (fun i => match doubleIndex i len targetCount with
                              | Some z => Z.to_nat z
                              | None => 0
                              end) (seq 1 (targetCount - 2))
             ++ [len - 1]
      /\ (forall i, 1 <= i <= targetCount - 2 ->
                    exists k, doubleIndex i len targetCount = Some (Z.of_nat k)
                              /\ 1 <= k <= len - 2)
      /\ length (doubleIndices len targetCount) = targetCount
      /\ StronglySorted lt (doubleIndices len targetCount)
      /\ Forall (fun k => k < len) (doubleIndices len targetCount)
      /\ ((Z.of_nat len * Z.of_nat targetCount <= 2 ^ 50)%Z ->
          doubleIndicesNearest len targetCount = true)).
Proof.
  intros Hlen HM Hsize len.
  assert (Hsmall : (Z.of_nat len <= 2 ^ 49)%Z).
  { subst len. change (2 ^ 32)%Z with 4294967296%Z in Hsize.
    change (2 ^ 49)%Z with 562949953421312%Z. lia. }
  split; [|split].
  - apply sampleCoordinatesEvenly_length. exact HM.
  - intros H. unfold sampleCoordinatesEvenly.
    destruct (Nat.leb_spec (length coordinates) targetCount); [reflexivity | subst len; lia].
  - intros H.
    destruct (@stride_indices_ordered len targetCount HM H Hsmall) as (Hsome & Hrange & _).
    destruct (@doubleIndices_ordered len targetCount HM H Hsmall) as (Hcount & Hsorted & Hin).
    split; [intros d; now apply sampleCoordinatesEvenly_reads|].
    split; [reflexivity|].
    split.
    { intros i Hi. eexists. split; [apply (Hsome i Hi) | apply (Hrange i Hi)]. }
    split; [exact Hcount|]. split; [exact Hsorted|]. split; [exact Hin|].
    intros Hprod. now apply doubleIndices_nearest.
Qed.

Lemma index_stride_length_and_order_witness :
  length (sampleCoordinatesEvenly Sample.clustered 50) = 50
  /\ StronglySorted lt (doubleIndices 101 50)
  /\ Forall (fun k => k < 101) (doubleIndices 101 50)
  /\ doubleIndicesNearest 101 50 = true.
Proof.
  destruct (@index_stride_length_and_order Sample.clustered 50)
    as (A & _ & B).
  - vm_compute. lia.
  - lia.
  - vm_compute. reflexivity.
  - destruct B as (_ & _ & _ & _ & C & D & E); [vm_compute; lia|].
    split; [exact A | split; [exact C | split; [exact D|]]].
    apply E. vm_compute. discriminate.
Defined.

(** ** Time-based sampling *)

Section TimeSamplingFacts.

Variable getTime : string -> number.

Lemma sampleLoop_length (timeStep currentTime : number) (interior : list Coordinate) :
  length (sampleLoop getTime timeStep currentTime interior) <= length interior.
Proof.
  revert currentTime. induction interior as [|c rest IH]; intros currentTime; simpl.
  - lia.
  - destruct (PrimFloat.leb _ _); simpl.
    + specialize (IH (timeOf getTime c)). lia.
    + specialize (IH currentTime). lia.
Qed.

Lemma length_removelast (A : Type) (l : list A) :
  length (removelast l) = length l - 1.
Proof.
  rewrite removelast_firstn_len, length_firstn. lia.
Qed.

Lemma timeBasedSampling_shape (maxCoordinates : nat) (first : Coordinate)
      (rest : list Coordinate) :
  exists interior,
    timeBasedSampling getTime maxCoordinates (first :: rest)
    = first :: interior ++ [last (first :: rest) first]
    /\ length interior <= length rest - 1.
Proof.
  unfold timeBasedSampling. eexists. split; [reflexivity|].
  etransitivity; [apply sampleLoop_length|].
  rewrite length_removelast. lia.
Qed.

Lemma processCoordinates_short (maxCoordinates : nat) (sortedCoordinates : list Coordinate) :
  length sortedCoordinates <= maxCoordinates ->
  processCoordinates getTime maxCoordinates sortedCoordinates = sortedCoordinates.
Proof.
  intros H. unfold processCoordinates.
  destruct (Nat.ltb_spec maxCoordinates (length sortedCoordinates)); [lia | reflexivity].
Qed.

Lemma processCoordinates_length (maxCoordinates : nat) (sortedCoordinates : list Coordinate) :
  2 <= length sortedCoordinates ->
  2 <= length (processCoordinates getTime maxCoordinates sortedCoordinates)
    <= length sortedCoordinates.
Proof.
  intros Hlen. unfold processCoordinates.
  destruct (Nat.ltb_spec maxCoordinates (length sortedCoordinates)) as [H|H]; [|lia].
  destruct sortedCoordinates as [|first rest]; [simpl in Hlen; lia|].
  destruct (timeBasedSampling_shape maxCoordinates first rest) as [interior [-> Hi]].
  simpl in *. rewrite length_app. simpl. lia.
Qed.

End TimeSamplingFacts.

Lemma last_indep (A : Type) (l : list A) (d d' : A) :
  l <> [] -> last l d = last l d'.
Proof.
  induction l as [|x xs IH]; intros Hne; [contradiction|].
  destruct xs as [|y ys]; [reflexivity|].
  change (last (y :: ys) d = last (y :: ys) d'). apply IH. discriminate.
Qed.

(** C5. For an input of length at least 2 and a target of at least 2, the
    output of time-interval sampling starts with the first element of the
    input and ends with its last element. *)
Theorem time_sampling_keeps_ends (getTime : string -> number) (maxCoordinates : nat)
        (sortedCoordinates : list Coordinate) :
  2 <= length sortedCoordinates -> 2 <= maxCoordinates ->
  forall d,
    hd d (processCoordinates getTime maxCoordinates sortedCoordinates)
    = hd d sortedCoordinates
    /\ last (processCoordinates getTime maxCoordinates sortedCoordinates) d
       = last sortedCoordinates d.
Proof.
  intros Hlen _ d.
  destruct sortedCoordinates as [|first rest]; [simpl in Hlen; lia|].
  unfold processCoordinates.
  destruct (Nat.ltb_spec maxCoordinates (length (first :: rest))) as [H|H];
    [|split; reflexivity].
  destruct (timeBasedSampling_shape getTime maxCoordinates first rest) as [interior [-> _]].
  split; [reflexivity|].
  change (first :: interior ++ [last (first :: rest) first])
    with ((first :: interior) ++ [last (first :: rest) first]).
  rewrite last_last. apply last_indep. discriminate.
Qed.

Lemma time_sampling_keeps_ends_witness :
  hd (Sample.fixAt "" "") (processCoordinates Sample.getTime 100 Sample.clustered)
  = Sample.fixAt "a" Sample.t0
  /\ last (processCoordinates Sample.getTime 100 Sample.clustered) (Sample.fixAt "" "")
     = Sample.fixAt "b" Sample.t99.
Proof.
  destruct (@time_sampling_keeps_ends Sample.getTime 100 Sample.clustered) with
    (d := Sample.fixAt "" "") as [A B].
  - vm_compute. lia.
  - lia.
  - rewrite A, B. split; reflexivity.
Defined.

(** C4, counterexample. 101 fixes in time order, a hundred of them recorded
    at the same instant: the interior never advances by a time step, and only
    the two end points are emitted, not [min 101 100 = 100]. *)
Lemma time_sampling_length_counterexample :
  2 <= length Sample.clustered
  /\ sortCoordinates Sample.getTime Sample.clustered = Sample.clustered
  /\ length (processCoordinates Sample.getTime 100 Sample.clustered) = 2
  /\ length (processCoordinates Sample.getTime 100 Sample.clustered)
     <> Nat.min (length Sample.clustered) 100.
Proof.
  split; [vm_compute; lia|]. split; [vm_compute; reflexivity|].
  split; [vm_compute; reflexivity|]. vm_compute. discriminate.
Qed.

(** With a time span of zero the step is zero, every interior fix is
    emitted, and the output is longer than the target. *)
Lemma time_sampling_can_exceed_target :
  length (processCoordinates Sample.getTime 100 Sample.simultaneous) = 101.
Proof. vm_compute. reflexivity. Qed.

(** Nor does the target hold for timestamps so large that adding the time
    step is rounded away: five fixes one millisecond apart, [2^52] ms after
    the epoch, and a target of 4 give a step of [4/3] ms, [currentTime +
    timeStep] rounds down to the next millisecond, and all five are
    emitted. *)
Lemma time_sampling_rounding_exceeds_target :
  PrimFloat.div (PrimFloat.sub (Fixture.farGetTime "+144683-05-23T16:29:30.500Z")
                               (Fixture.farGetTime "+144683-05-23T16:29:30.496Z"))
                (number_of_Z 3)
  = PrimFloat.div 4%float 3%float
  /\ PrimFloat.add 4503599627370496%float (PrimFloat.div 4%float 3%float)
     = 4503599627370497%float
  /\ processCoordinates Fixture.farGetTime 4 Fixture.farFixes = Fixture.farFixes
  /\ length (processCoordinates Fixture.farGetTime 4 Fixture.farFixes) = 5.
Proof. repeat split; vm_compute; reflexivity. Qed.

Lemma sampleLoop_emits (getTime : string -> number) (timeStep : number)
      (interior : list Coordinate) :
  forall currentTime,
    Emitted getTime timeStep currentTime interior
            (sampleLoop getTime timeStep currentTime interior).
Proof.
  induction interior as [|c rest IH]; intros currentTime; cbn [sampleLoop].
  - constructor.
  - cbv zeta. unfold timeOf.
    destruct (PrimFloat.leb (PrimFloat.add currentTime timeStep) (getTime (timestamp c)))
      eqn:E.
    + apply emitted_fix; [exact E | apply IH].
    + apply emitted_skip; [exact E | apply IH].
Qed.

Lemma Emitted_unique (getTime : string -> number) (timeStep : number) (t : number)
      (fixes emitted other : list Coordinate) :
  Emitted getTime timeStep t fixes emitted ->
  Emitted getTime timeStep t fixes other ->
  other = emitted.
Proof.
  intros H. revert other.
  induction H as [t|t c fixes emitted Hadv _ IH|t c fixes emitted Hadv _ IH];
    intros other Hother; inversion Hother; subst; try congruence.
  - f_equal. now apply IH.
  - now apply IH.
Qed.

Lemma Emitted_subsequence (getTime : string -> number) (timeStep : number) (t : number)
      (fixes emitted : list Coordinate) :
  Emitted getTime timeStep t fixes emitted -> Subsequence emitted fixes.
Proof. induction 1; [constructor | now apply sub_take | now apply sub_skip]. Qed.

Lemma In_removelast (A : Type) (x : A) (l : list A) : In x (removelast l) -> In x l.
Proof.
  induction l as [|y l IH]; cbn [removelast]; [tauto|].
  destruct l as [|z l]; [intros []|].
  intros [<-|H]; [left; reflexivity | right; exact (IH H)].
Qed.

Lemma In_last (A : Type) (x : A) (l : list A) : In (last (x :: l) x) (x :: l).
Proof.
  revert x. induction l as [|y l IH]; intros x; [left; reflexivity|].
  right. change (last (x :: y :: l) x) with (last (y :: l) x).
  rewrite (@last_indep _ (y :: l) x y) by discriminate. apply IH.
Qed.

(** The walk over whole-millisecond timestamps that all lie before [tl]:
    the [j]-th emitted fix is at least [j] exact time steps [D / b] past
    the first fix, so fewer than [b] fixes are emitted. *)
Lemma sampleLoop_within_target (getTime : string -> number) (ms : Coordinate -> Z)
      (timeStep span divisor : number) (D b t0 tl : Z) (interior : list Coordinate) :
  holdsInteger span D -> holdsInteger divisor b ->
  timeStep = PrimFloat.div span divisor ->
  (0 < t0)%Z -> D = (tl - t0)%Z -> (b * tl <= 2 ^ 50)%Z ->
  (forall c, In c interior ->
     holdsInteger (getTime (timestamp c)) (ms c) /\ (ms c < tl)%Z) ->
  forall (j v : Z) (currentTime : number),
    holdsInteger currentTime v -> (v < tl)%Z -> (0 <= j)%Z -> (j * D <= b * (v - t0))%Z ->
    (Z.of_nat (length (sampleLoop getTime timeStep currentTime interior)) + j <= b - 1)%Z.
Proof.
  intros Hspan Hdiv Hts Ht0 HD Hbound.
  pose proof (holdsInteger_positive Hspan) as PD.
  pose proof (holdsInteger_positive Hdiv) as Pb.
  induction interior as [|c rest IH]; intros Hin j v currentTime Hcur Hv Hj Hinv;
    pose proof (holdsInteger_positive Hcur) as Pv; cbn [sampleLoop].
  - cbn [length].
    assert (H1 : (b * (v - t0) < b * D)%Z) by (apply Z.mul_lt_mono_pos_l; lia).
    assert (H2 : (j < b)%Z) by (apply (@cancel_scale_lt j b D); lia).
    lia.
  - cbv zeta. unfold timeOf.
    destruct (Hin c (or_introl eq_refl)) as [Hc Hctl].
    assert (Hrest : forall c', In c' rest ->
              holdsInteger (getTime (timestamp c')) (ms c') /\ (ms c' < tl)%Z)
      by (intros c' Hc'; apply Hin; right; exact Hc').
    destruct (PrimFloat.leb (PrimFloat.add currentTime timeStep) (getTime (timestamp c)))
      eqn:Hleb.
    + assert (Hbv : (b * v <= 2 ^ 50)%Z).
      { assert ((b * v <= b * tl)%Z) by (apply Z.mul_le_mono_nonneg_l; lia). lia. }
      assert (HD50 : (D <= 2 ^ 50)%Z).
      { assert ((1 * tl <= b * tl)%Z) by (apply Z.mul_le_mono_nonneg_r; lia). lia. }
      pose proof (@advance_is_a_full_step currentTime timeStep (getTime (timestamp c))
                    span divisor v (ms c) D b Hcur Hc Hspan Hdiv Hts Hbv HD50 Hleb) as Hstep.
      cbn [length]. rewrite Nat2Z.inj_succ.
      specialize (IH Hrest (j + 1)%Z (ms c) (getTime (timestamp c)) Hc Hctl ltac:(lia)
                     ltac:(lia)).
      lia.
    + exact (IH Hrest j v currentTime Hcur Hv Hj Hinv).
Qed.

(** Time-based sampling of fixes with whole-millisecond timestamps, the
    last fix strictly later than all others: at most [maxCoordinates] fixes
    are emitted. *)
Lemma timeBasedSampling_within_target (getTime : string -> number) (ms : Coordinate -> Z)
      (maxCoordinates : nat) (first : Coordinate) (rest : list Coordinate) :
  2 <= maxCoordinates ->
  let lastFix := last (first :: rest) first in
  (forall c, In c (first :: rest) ->
     getTime (timestamp c) = number_of_Z (ms c) /\ (0 < ms c)%Z) ->
  (forall c, In c (first :: removelast rest) -> (ms c < ms lastFix)%Z) ->
  (Z.of_nat maxCoordinates * ms lastFix <= 2 ^ 50)%Z ->
  length (timeBasedSampling getTime maxCoordinates (first :: rest)) <= maxCoordinates.
Proof.
  intros HM lastFix Hms Hbefore Hbound. unfold timeBasedSampling. cbv zeta. fold lastFix.
  unfold timeOf.
  destruct (Hms first (or_introl eq_refl)) as [Efirst Pfirst].
  destruct (Hms lastFix (In_last first rest)) as [Elast Plast].
  pose proof (Hbefore first (or_introl eq_refl)) as Hfl.
  assert (Hsmall : (ms lastFix <= 2 ^ 49)%Z).
  { assert ((2 * ms lastFix <= Z.of_nat maxCoordinates * ms lastFix)%Z)
      by (apply Z.mul_le_mono_nonneg_r; lia).
    change (2 ^ 50)%Z with 1125899906842624%Z in *.
    change (2 ^ 49)%Z with 562949953421312%Z. lia. }
  assert (HMsmall : (Z.of_nat maxCoordinates <= 2 ^ 50)%Z).
  { assert ((Z.of_nat maxCoordinates * 1 <= Z.of_nat maxCoordinates * ms lastFix)%Z)
      by (apply Z.mul_le_mono_nonneg_l; lia). lia. }
  assert (Hint : forall z, (0 < z <= 2 ^ 50)%Z -> holdsInteger (number_of_Z z) z).
  { intros z Hz. apply holdsInteger_number_of_Z.
    change (2 ^ 50)%Z with 1125899906842624%Z in *.
    change (2 ^ 53)%Z with 9007199254740992%Z. lia. }
  assert (H49 : (2 ^ 49 <= 2 ^ 50)%Z) by (vm_compute; discriminate).
  assert (Hspan : holdsInteger
            (PrimFloat.sub (getTime (timestamp lastFix)) (getTime (timestamp first)))
            (ms lastFix - ms first)).
  { rewrite Elast, Efirst. apply holdsInteger_sub; [apply Hint; lia | apply Hint; lia | lia]. }
  assert (Hdiv : holdsInteger (number_of_Z (Z.of_nat maxCoordinates - 1))
                              (Z.of_nat maxCoordinates - 1)) by (apply Hint; lia).
  pose proof (@sampleLoop_within_target getTime ms _ _ _
                (ms lastFix - ms first)%Z (Z.of_nat maxCoordinates - 1)%Z
                (ms first) (ms lastFix) (removelast rest)
                Hspan Hdiv eq_refl Pfirst eq_refl) as Hloop.
  assert (Hb : ((Z.of_nat maxCoordinates - 1) * ms lastFix <= 2 ^ 50)%Z).
  { assert (((Z.of_nat maxCoordinates - 1) * ms lastFix
             <= Z.of_nat maxCoordinates * ms lastFix)%Z)
      by (apply Z.mul_le_mono_nonneg_r; lia). lia. }
  specialize (Hloop Hb).
  assert (Hinterior : forall c, In c (removelast rest) ->
            holdsInteger (getTime (timestamp c)) (ms c) /\ (ms c < ms lastFix)%Z).
  { intros c Hc.
    destruct (Hms c (or_intror (In_removelast c rest Hc))) as [Ec Pc].
    pose proof (Hbefore c (or_intror Hc)) as Hcl.
    split; [rewrite Ec; apply Hint; lia | exact Hcl]. }
  assert (Hcur : holdsInteger (getTime (timestamp first)) (ms first))
    by (rewrite Efirst; apply Hint; lia).
  specialize (Hloop Hinterior 0%Z (ms first) (getTime (timestamp first)) Hcur Hfl
                    ltac:(lia) ltac:(lia)).
  cbn [length]. rewrite length_app. cbn [length]. lia.
Qed.

(** C4, amended. For an input of length at least 2 and a target [M] of at
    least 2: when the input is no longer than the target the output is the
    input, of length [min len M]; when it is longer, the output is the
    first fix of the input, then exactly those of its interior fixes whose
    timestamp has advanced by at least [timeStep = timeSpan / (M - 1)] past
    the timestamp of the last emitted fix, in their order, then the last
    fix of the input; its length is 2 plus the number of interior fixes so
    emitted, and it is at most [M] when the timestamps are whole positive
    numbers of milliseconds, the last of them, times [M], at most [2^50],
    and the first fix and every interior fix are strictly earlier than the
    last fix. *)
Theorem time_sampling_emits_by_time_step (getTime : string -> number)
        (maxCoordinates : nat) (sortedCoordinates : list Coordinate) :
  2 <= length sortedCoordinates -> 2 <= maxCoordinates ->
  let output := processCoordinates getTime maxCoordinates sortedCoordinates in
  (length sortedCoordinates <= maxCoordinates ->
     output = sortedCoordinates
     /\ length output = Nat.min (length sortedCoordinates) maxCoordinates)
  /\ (maxCoordinates < length sortedCoordinates ->
      forall d,
        let first := hd d sortedCoordinates in
        let lastFix := last sortedCoordinates d in
        let interior := removelast (tl sortedCoordinates) in
        let timeStep := timeStepOf getTime maxCoordinates first lastFix in
        exists emitted,
          output = first :: emitted ++ [lastFix]
          /\ Emitted getTime timeStep (getTime (timestamp first)) interior emitted
          /\ (forall other,
                Emitted getTime timeStep (getTime (timestamp first)) interior other ->
                other = emitted)
          /\ Subsequence emitted interior
          /\ length output = 2 + length emitted
          /\ (forall ms : Coordinate -> Z,
                (forall c, In c sortedCoordinates ->
                   getTime (timestamp c) = number_of_Z (ms c) /\ (0 < ms c)%Z) ->
                (forall c, In c (first :: interior) -> (ms c < ms lastFix)%Z) ->
                (Z.of_nat maxCoordinates * ms lastFix <= 2 ^ 50)%Z ->
                length output <= Nat.min (length sortedCoordinates) maxCoordinates)).
Proof.
  intros Hlen HM output. subst output. split.
  - intros H. rewrite processCoordinates_short by assumption. split; [reflexivity | lia].
  - intros H d. cbv zeta. unfold processCoordinates.
    destruct (Nat.ltb_spec maxCoordinates (length sortedCoordinates)); [|lia].
    destruct sortedCoordinates as [|first rest]; [simpl in Hlen; lia|].
    cbn [hd tl]. rewrite (last_indep (l := first :: rest) d first) by discriminate.
    pose proof (fun ms => @timeBasedSampling_within_target getTime ms maxCoordinates
                            first rest HM) as Hcap.
    unfold timeBasedSampling in *. cbv zeta in *. unfold timeStepOf, timeOf in *.
    set (timeStep := PrimFloat.div _ _) in *.
    pose proof (sampleLoop_emits getTime timeStep (removelast rest)
                  (getTime (timestamp first))) as Hemit.
    unfold timeOf in Hemit.
    set (emitted := sampleLoop getTime timeStep (getTime (timestamp first))
                               (removelast rest)) in *.
    exists emitted. split; [reflexivity|]. split; [exact Hemit|].
    split; [intros other Hother; exact (Emitted_unique Hemit Hother)|].
    split; [exact (Emitted_subsequence Hemit)|].
    split; [cbn [length]; rewrite length_app; cbn [length]; lia|].
    intros ms Hms Hbefore Hbound.
    specialize (Hcap ms Hms Hbefore Hbound). lia.
Qed.

Lemma time_sampling_emits_by_time_step_witness :
  (exists emitted,
     processCoordinates Sample.getTime 100 Sample.clustered
     = Sample.fixAt "a" Sample.t0 :: emitted ++ [Sample.fixAt "b" Sample.t99]
     /\ length (processCoordinates Sample.getTime 100 Sample.clustered)
        = 2 + length emitted)
  /\ length (processCoordinates Fixture.getTime 3 Fixture.fourFixes) <= 3.
Proof.
  split.
  - destruct (@time_sampling_emits_by_time_step Sample.getTime 100 Sample.clustered)
      as [_ B].
    + vm_compute. lia.
    + lia.
    + destruct (B ltac:(vm_compute; lia) (Sample.fixAt "" ""))
        as (emitted & E & _ & _ & _ & L & _).
      exists emitted. split; [exact E | exact L].
  - destruct (@time_sampling_emits_by_time_step Fixture.getTime 3 Fixture.fourFixes)
      as [_ B].
    + vm_compute. lia.
    + lia.
    + destruct (B ltac:(vm_compute; lia) (Sample.fixAt "" ""))
        as (emitted & _ & _ & _ & _ & _ & Hcap).
      apply (Hcap (fun c => Fixture.millisecond (timestamp c))).
      * intros c Hc. split; [reflexivity|].
        repeat (destruct Hc as [<-|Hc]; [vm_compute; reflexivity|]). destruct Hc.
      * intros c Hc.
        repeat (destruct Hc as [<-|Hc]; [vm_compute; reflexivity|]). destruct Hc.
      * vm_compute. discriminate.
Defined.

(** ** Temporal normalisation *)

Section SortFacts.

Variable getTime : string -> number.

Lemma insertSorted_perm (x : Coordinate) (l : list Coordinate) :
  Permutation (x :: l) (insertSorted getTime x l).
Proof.
  induction l as [|y l IH]; simpl.
  - apply Permutation_refl.
  - destruct (PrimFloat.ltb _ _).
    + eapply perm_trans; [apply perm_swap|]. apply perm_skip, IH.
    + apply Permutation_refl.
Qed.

Lemma sortCoordinates_perm (coordinates : list Coordinate) :
  Permutation coordinates (sortCoordinates getTime coordinates).
Proof.
  induction coordinates as [|x l IH]; simpl.
  - constructor.
  - eapply perm_trans; [apply perm_skip, IH|]. apply insertSorted_perm.
Qed.

Lemma length_sortCoordinates (coordinates : list Coordinate) :
  length (sortCoordinates getTime coordinates) = length coordinates.
Proof.
  symmetry. apply Permutation_length, sortCoordinates_perm.
Qed.

End SortFacts.

(** ** The handler's stages *)

(** Once the body is read, the handler is [afterBody] inside the outer
    [try]. *)
Lemma POST_parsed (getTime : string -> number) (token : option string)
      (coordinates : option (list Coordinate)) (svc : Services) :
  Server.POST getTime token (Server.JsonBody coordinates) svc
  = tryCatch (Server.afterBody getTime token coordinates)
             (ret (Server.mkHttp 500 (Server.ErrorJson "Failed to process route"))) svc.
Proof.
  unfold Server.POST, Server.tryBlock, tryCatch, bind, Server.readBody, ret.
  destruct (Server.afterBody getTime token coordinates svc) as [calls [response|]];
    reflexivity.
Qed.

(** A body that cannot be read ends in the outer [catch], before anything
    else is looked at. *)
Lemma POST_unreadable (getTime : string -> number) (token : option string)
      (request : Server.RequestBody) (svc : Services) :
  request = Server.NotJson \/ request = Server.JsonNull ->
  Server.POST getTime token request svc
  = ([], Returned (Server.mkHttp 500 (Server.ErrorJson "Failed to process route"))).
Proof. intros [-> | ->]; reflexivity. Qed.


Section HandlerFacts.

Variable getTime : string -> number.
Variable MAPBOX_ACCESS_TOKEN : option string.
Variable svc : Services.

Import Server.

Lemma mapMatching_falls_through (processed : list Coordinate) (n : nat) :
  noUsableMatch (matchingEndpoint svc (map lonLat processed)) = true ->
  mapMatching processed n svc
  = ([MatchingCall (map lonLat processed) (length processed)], Returned None).
Proof.
  unfold noUsableMatch, mapMatching, bind, fetchMatching.
  destruct (matchingEndpoint svc (map lonLat processed)) as [|r]; [discriminate|].
  destruct r as [isOk code body]; simpl.
  destruct isOk; simpl; [|reflexivity].
  unfold tryCatch, bind, parseJson; simpl.
  destruct body as [data|]; simpl; [|reflexivity].
  destruct (firstOf (matchings data)); [discriminate | reflexivity].
Qed.

Lemma directionsFallback_falls_through (processed : list Coordinate) (n : nat) :
  noUsableRoute (directionsEndpoint svc (map lonLat (directionsCoordinatesOf processed)))
  = true ->
  directionsFallback processed n svc
  = ([DirectionsCall (map lonLat (directionsCoordinatesOf processed))], Returned None).
Proof.
  unfold noUsableRoute, directionsFallback, bind, fetchDirections.
  destruct (directionsEndpoint svc _) as [|r]; [discriminate|].
  destruct r as [isOk code body]; simpl.
  destruct isOk; simpl; [|reflexivity].
  unfold parseJson; simpl.
  destruct body as [data|]; simpl; [|discriminate].
  destruct (firstOf (routes data)); [discriminate | reflexivity].
Qed.

Lemma directionsFallback_routed (processed : list Coordinate) (n : nat)
      (route : DirectionsRoute) :
  routeFound (directionsEndpoint svc (map lonLat (directionsCoordinatesOf processed)))
  = Some route ->
  directionsFallback processed n svc
  = ([DirectionsCall (map lonLat (directionsCoordinatesOf processed))],
     Returned (Some (mkHttp 200 (RouteJson
       {| geometry := r_geometry route;
          distance := Some (r_distance route);
          duration := Some (r_duration route);
          confidence := None;
          method := "directions";
          processedPoints := length (directionsCoordinatesOf processed);
          originalPoints := n |})))).
Proof.
  unfold routeFound, directionsFallback, bind, fetchDirections.
  destruct (directionsEndpoint svc _) as [|r]; [discriminate|].
  destruct r as [isOk code body]; simpl.
  destruct isOk; simpl; [|discriminate].
  unfold parseJson; simpl.
  destruct body as [data|]; simpl; [|discriminate].
  intros ->. reflexivity.
Qed.

(** Past the two guards, the handler is the matching stage followed by the
    fallbacks, inside the outer [try]. *)
Lemma POST_unfold (coordinates : list Coordinate) :
  tokenMissing MAPBOX_ACCESS_TOKEN = false ->
  2 <= length coordinates ->
  POST getTime MAPBOX_ACCESS_TOKEN (Server.JsonBody (Some coordinates)) svc
  = tryCatch
      (matched <- mapMatching (processedOf getTime coordinates) (length coordinates) ;;
       match matched with
       | Some response => ret response
       | None => afterMatching (processedOf getTime coordinates) (length coordinates)
       end)
      (ret (mkHttp 500 (ErrorJson "Failed to process route"))) svc.
Proof.
  intros Htoken Hlen. rewrite POST_parsed. unfold afterBody. rewrite Htoken.
  destruct (Nat.ltb_spec (length coordinates) 2); [lia | reflexivity].
Qed.

Lemma POST_after_unusable_match (coordinates : list Coordinate) :
  tokenMissing MAPBOX_ACCESS_TOKEN = false ->
  2 <= length coordinates ->
  let processed := processedOf getTime coordinates in
  noUsableMatch (matchingEndpoint svc (map lonLat processed)) = true ->
  POST getTime MAPBOX_ACCESS_TOKEN (Server.JsonBody (Some coordinates)) svc
  = (let (calls, outcome) :=
       tryCatch (afterMatching processed (length coordinates))
                (ret (mkHttp 500 (ErrorJson "Failed to process route"))) svc in
     (MatchingCall (map lonLat processed) (length processed) :: calls, outcome)).
Proof.
  intros Htoken Hlen processed Hmatch.
  rewrite POST_unfold by assumption. fold processed.
  unfold tryCatch at 1. unfold bind at 1.
  rewrite (mapMatching_falls_through processed (length coordinates) Hmatch).
  unfold tryCatch.
  destruct (afterMatching processed (length coordinates) svc) as [calls [response|]];
    simpl; rewrite ?app_nil_r; reflexivity.
Qed.

Lemma length_processedOf (coordinates : list Coordinate) :
  2 <= length coordinates ->
  2 <= length (processedOf getTime coordinates) <= length coordinates.
Proof.
  intros H. unfold processedOf.
  pose proof (@processCoordinates_length getTime maxCoordinates
                (sortCoordinates getTime coordinates)) as P.
  rewrite length_sortCoordinates in P. apply P. assumption.
Qed.

Lemma simpleCoordinatesOf_length (processed : list Coordinate) :
  2 <= length processed ->
  length (simpleCoordinatesOf processed) = Nat.min (length processed) 50.
Proof.
  intros H. unfold simpleCoordinatesOf.
  destruct (Nat.ltb_spec 50 (length processed)) as [Hgt|Hle]; [|lia].
  rewrite sampleCoordinatesEvenly_length by lia. reflexivity.
Qed.

End HandlerFacts.

(** The fallback stages issue exactly one Directions request and always
    produce a response; it is a route (status 200) unless the Directions
    call itself throws. *)
Lemma afterMatching_outcome (svc : Services) (processed : list Coordinate) (n : nat) :
  let points := map lonLat (Server.directionsCoordinatesOf processed) in
  exists response,
    tryCatch (Server.afterMatching processed n)
             (ret (Server.mkHttp 500 (Server.ErrorJson "Failed to process route"))) svc
    = ([DirectionsCall points], Returned response)
    /\ (forall answer,
          directionsEndpoint svc points = Resolved answer ->
          (ok answer = true -> parsed answer <> None) ->
          exists result,
            response = Server.mkHttp 200 (Server.RouteJson result)
            /\ (Server.method result = "directions"%string
                \/ Server.method result = "simple"%string)).
Proof.
  intros points.
  unfold tryCatch, Server.afterMatching, Server.directionsFallback, bind, fetchDirections.
  fold points.
  destruct (directionsEndpoint svc points) as [|[isOk code body]]; simpl.
  - eexists. split; [reflexivity|]. intros answer H. discriminate.
  - destruct isOk; simpl.
    + unfold parseJson; simpl. destruct body as [data|]; simpl.
      * destruct (firstOf (routes data)) as [route|]; simpl;
          (eexists; split; [reflexivity|]; intros answer _ _;
           eexists; split; [reflexivity|]; simpl; auto).
      * eexists. split; [reflexivity|]. intros answer H Hbody.
        injection H as <-. simpl in Hbody. exfalso. now apply Hbody.
    + eexists. split; [reflexivity|]. intros answer _ _.
      eexists. split; [reflexivity|]. simpl. auto.
Qed.

(** C2. Two fixes, Map Matching refused, Directions returning one route:
    the handler answers with method ["directions"] and no [confidence] key,
    where the client cascade of [map-component.tsx] reports, for the same
    answers of the services, method ["directions"] and confidence [0.9]. *)
Theorem directions_result_confidence :
  (exists result,
     Server.POST Sample.getTime Sample.token (Server.JsonBody (Some Sample.twoFixes)) Sample.onlyDirections
     = ([MatchingCall (map lonLat Sample.twoFixes) 2;
         DirectionsCall (map lonLat Sample.twoFixes)],
        Returned (Server.mkHttp 200 (Server.RouteJson result)))
     /\ Server.method result = "directions"%string
     /\ Server.confidence result = None)
  /\ (exists result,
        Client.processRoute Sample.twoFixes Sample.onlyDirections
        = ([MatchingCall (map lonLat Sample.twoFixes) 2;
            DirectionsCall (map lonLat Sample.twoFixes)],
           Returned (Some result))
        /\ Client.method result = "directions"%string
        /\ Client.confidence result = 0.9%float).
Proof.
  split; eexists; (split; [vm_compute; reflexivity | split; reflexivity]).
Qed.

(** Whenever Map Matching yields nothing usable and Directions returns a
    route, the handler's result is the ["directions"] one, without a
    confidence. *)
Lemma POST_routed_without_confidence (getTime : string -> number) (token : option string)
      (coordinates : list Coordinate) (svc : Services) (route : DirectionsRoute) :
  Server.tokenMissing token = false ->
  2 <= length coordinates ->
  let processed := Server.processedOf getTime coordinates in
  noUsableMatch (matchingEndpoint svc (map lonLat processed)) = true ->
  routeFound (directionsEndpoint svc (map lonLat (Server.directionsCoordinatesOf processed)))
  = Some route ->
  exists calls result,
    Server.POST getTime token (Server.JsonBody (Some coordinates)) svc
    = (calls, Returned (Server.mkHttp 200 (Server.RouteJson result)))
    /\ Server.method result = "directions"%string
    /\ Server.confidence result = None.
Proof.
  intros Htoken Hlen processed Hmatch Hroute.
  rewrite (@POST_after_unusable_match getTime token svc coordinates) by assumption.
  fold processed. unfold tryCatch, Server.afterMatching. unfold bind at 1.
  rewrite (directionsFallback_routed svc processed (length coordinates) Hroute).
  simpl. eexists. eexists. split; [reflexivity|]. split; reflexivity.
Qed.

(** C3, counterexample. 101 fixes, a hundred of them simultaneous, both
    services refusing: the simple line has the 2 vertices that time sampling
    left, not [min 101 50 = 50]. *)
Lemma simple_fallback_vertex_count_counterexample :
  exists calls result,
    Server.POST Sample.getTime Sample.token (Server.JsonBody (Some Sample.clustered)) Sample.bothRefuse
    = (calls, Returned (Server.mkHttp 200 (Server.RouteJson result)))
    /\ Server.method result = "simple"%string
    /\ length (coordinates_of (Server.geometry result)) = 2
    /\ length (coordinates_of (Server.geometry result))
       <> Nat.min (length Sample.clustered) 50.
Proof.
  eexists. eexists. split; [vm_compute; reflexivity|].
  split; [reflexivity|]. split; [reflexivity|]. vm_compute. discriminate.
Qed.

(** C3, amended. For an input of length at least 2 on which the Map
    Matching call and the Directions call both resolve without a usable
    result, the handler answers with method ["simple"], no confidence, and a
    geometry of [min p 50] vertices, where [p] is the number of processed
    coordinates ([2 <= p <= len]); this is [min len 50] whenever
    [len <= 100]. *)
Theorem simple_fallback_result (getTime : string -> number) (token : option string)
        (coordinates : list Coordinate) (svc : Services) :
  Server.tokenMissing token = false ->
  2 <= length coordinates ->
  let processed := Server.processedOf getTime coordinates in
  noUsableMatch (matchingEndpoint svc (map lonLat processed)) = true ->
  noUsableRoute (directionsEndpoint svc (map lonLat (Server.directionsCoordinatesOf processed)))
  = true ->
  exists calls result,
    Server.POST getTime token (Server.JsonBody (Some coordinates)) svc
    = (calls, Returned (Server.mkHttp 200 (Server.RouteJson result)))
    /\ Server.method result = "simple"%string
    /\ Server.confidence result = None
    /\ length (coordinates_of (Server.geometry result)) = Nat.min (length processed) 50
    /\ 2 <= length processed <= length coordinates
    /\ (length coordinates <= 100 ->
        length (coordinates_of (Server.geometry result))
        = Nat.min (length coordinates) 50).
Proof.
  intros Htoken Hlen processed Hmatch Hroute.
  rewrite (@POST_after_unusable_match getTime token svc coordinates) by assumption.
  fold processed. unfold tryCatch, Server.afterMatching. unfold bind at 1.
  rewrite (directionsFallback_falls_through svc processed (length coordinates) Hroute).
  pose proof (length_processedOf getTime coordinates Hlen) as Hp. fold processed in Hp.
  simpl. eexists. eexists. split; [reflexivity|].
  split; [reflexivity|]. split; [reflexivity|].
  assert (Hcount : length (coordinates_of (Server.geometry
            {| Server.geometry :=
                 LineString (map (fun coord => [longitude coord; latitude coord])
                                 (Server.simpleCoordinatesOf processed));
               Server.distance := None; Server.duration := None;
               Server.confidence := None; Server.method := "simple";
               Server.processedPoints := length (Server.simpleCoordinatesOf processed);
               Server.originalPoints := length coordinates |}))
          = Nat.min (length processed) 50).
  { simpl. rewrite length_map. apply simpleCoordinatesOf_length. lia. }
  split; [exact Hcount|]. split; [exact Hp|].
  intros Hshort. rewrite Hcount. f_equal.
  subst processed. unfold Server.processedOf.
  rewrite processCoordinates_short; rewrite length_sortCoordinates; [reflexivity|].
  unfold Server.maxCoordinates. lia.
Qed.

Lemma simple_fallback_result_witness :
  exists calls result,
    Server.POST Sample.getTime Sample.token (Server.JsonBody (Some Sample.twoFixes)) Sample.bothRefuse
    = (calls, Returned (Server.mkHttp 200 (Server.RouteJson result)))
    /\ Server.method result = "simple"%string
    /\ Server.confidence result = None
    /\ length (coordinates_of (Server.geometry result)) = 2.
Proof.
  destruct (@simple_fallback_result Sample.getTime Sample.token Sample.twoFixes
              Sample.bothRefuse) as (calls & result & E & M & C & _ & _ & V).
  - reflexivity.
  - simpl. lia.
  - reflexivity.
  - reflexivity.
  - exists calls, result. split; [exact E|]. split; [exact M|]. split; [exact C|].
    apply V. simpl. lia.
Defined.

Lemma sampleCoordinatesEvenly_short (coordinates : list Coordinate) (targetCount : nat) :
  length coordinates <= targetCount ->
  sampleCoordinatesEvenly coordinates targetCount = coordinates.
Proof.
  intros H. unfold sampleCoordinatesEvenly.
  apply Nat.leb_le in H. rewrite H. reflexivity.
Qed.

Lemma mapMatching_calls (svc : Services) (processed : list Coordinate) (n : nat) :
  fst (Server.mapMatching processed n svc)
  = [MatchingCall (map lonLat processed) (length processed)].
Proof.
  unfold Server.mapMatching, bind, fetchMatching.
  destruct (matchingEndpoint svc (map lonLat processed)) as [|[isOk code body]];
    [reflexivity|].
  destruct isOk; simpl; [|reflexivity].
  unfold tryCatch, bind, parseJson; simpl.
  destruct body as [data|]; simpl; [|reflexivity].
  destruct (firstOf (matchings data)); reflexivity.
Qed.

(** C7. For an input of 2 to 100 fixes the sampler changes nothing: the
    processed coordinates are the sorted input, and they are what the Map
    Matching request carries.  Index-stride sampling, too, returns its input
    when it is no longer than the target. *)
Theorem sampler_is_identity_up_to_100 (getTime : string -> number) (token : option string)
        (coordinates : list Coordinate) (svc : Services) :
  2 <= length coordinates <= 100 ->
  let sortedCoordinates := sortCoordinates getTime coordinates in
  Server.processedOf getTime coordinates = sortedCoordinates
  /\ (forall targetCount, length coordinates <= targetCount ->
        sampleCoordinatesEvenly sortedCoordinates targetCount = sortedCoordinates)
  /\ (Server.tokenMissing token = false ->
      exists calls outcome,
        Server.POST getTime token (Server.JsonBody (Some coordinates)) svc
        = (MatchingCall (map lonLat sortedCoordinates) (length coordinates) :: calls,
           outcome)).
Proof.
  intros [Hlo Hhi] sortedCoordinates.
  assert (Hp : Server.processedOf getTime coordinates = sortedCoordinates).
  { unfold Server.processedOf, sortedCoordinates. apply processCoordinates_short.
    rewrite length_sortCoordinates. exact Hhi. }
  split; [exact Hp|]. split.
  - intros targetCount H. apply sampleCoordinatesEvenly_short.
    unfold sortedCoordinates. rewrite length_sortCoordinates. exact H.
  - intros Htoken. rewrite (@POST_unfold getTime token svc coordinates) by assumption.
    rewrite Hp.
    pose proof (mapMatching_calls svc sortedCoordinates (length coordinates)) as Hcalls.
    replace (length sortedCoordinates) with (length coordinates) in Hcalls
      by (unfold sortedCoordinates; now rewrite length_sortCoordinates).
    unfold tryCatch at 1. unfold bind at 1.
    destruct (Server.mapMatching sortedCoordinates (length coordinates) svc)
      as [calls0 outcome0].
    simpl in Hcalls. subst calls0.
    destruct outcome0 as [[response|]|]; simpl.
    + eexists. eexists. reflexivity.
    + destruct (Server.afterMatching sortedCoordinates (length coordinates) svc)
        as [calls1 [response|]]; simpl; eexists; eexists; reflexivity.
    + eexists. eexists. reflexivity.
Qed.

Lemma sampler_is_identity_up_to_100_witness :
  Server.processedOf Sample.getTime Sample.twoFixes
  = sortCoordinates Sample.getTime Sample.twoFixes
  /\ exists calls outcome,
       Server.POST Sample.getTime Sample.token (Server.JsonBody (Some Sample.twoFixes)) Sample.bothRefuse
       = (MatchingCall (map lonLat (sortCoordinates Sample.getTime Sample.twoFixes)) 2
            :: calls, outcome).
Proof.
  destruct (@sampler_is_identity_up_to_100 Sample.getTime Sample.token Sample.twoFixes
              Sample.bothRefuse) as (A & _ & B).
  - simpl. lia.
  - split; [exact A | apply B; reflexivity].
Defined.

(** C8, counterexample. An empty sequence submitted while the access token
    is not configured: the handler answers with the configuration error
    (status 500), not with the validation failure. *)
Lemma short_input_counterexample :
  length (@nil Coordinate) < 2
  /\ Server.POST Sample.getTime None (Server.JsonBody (Some [])) Sample.bothRefuse
     = ([], Returned (Server.mkHttp 500
                        (Server.ErrorJson "Mapbox access token not configured")))
  /\ snd (Server.POST Sample.getTime None (Server.JsonBody (Some [])) Sample.bothRefuse)
     <> Returned (Server.mkHttp 400
                    (Server.ErrorJson "At least 2 coordinates are required")).
Proof.
  split; [simpl; lia|]. split; [reflexivity|]. simpl. discriminate.
Qed.

(** C8, amended. For every submitted sequence of fewer than 2 fixes no
    external call is issued and the request fails before any processing:
    with the validation failure (status 400) when the access token is
    configured, and with the configuration failure (status 500) otherwise. *)
Theorem short_input_is_rejected (getTime : string -> number) (token : option string)
        (coordinates : list Coordinate) (svc : Services) :
  length coordinates < 2 ->
  fst (Server.POST getTime token (Server.JsonBody (Some coordinates)) svc) = []
  /\ (Server.tokenMissing token = false ->
      Server.POST getTime token (Server.JsonBody (Some coordinates)) svc
      = ([], Returned (Server.mkHttp 400
                         (Server.ErrorJson "At least 2 coordinates are required"))))
  /\ (Server.tokenMissing token = true ->
      Server.POST getTime token (Server.JsonBody (Some coordinates)) svc
      = ([], Returned (Server.mkHttp 500
                         (Server.ErrorJson "Mapbox access token not configured")))).
Proof.
  intros Hlen. rewrite POST_parsed. unfold Server.afterBody, tryCatch.
  destruct (Server.tokenMissing token).
  - simpl. split; [reflexivity|]. split; [discriminate | reflexivity].
  - destruct (Nat.ltb_spec (length coordinates) 2); [|lia].
    simpl. split; [reflexivity|]. split; [reflexivity | discriminate].
Qed.

Lemma short_input_is_rejected_witness :
  Server.POST Sample.getTime Sample.token (Server.JsonBody (Some [Sample.fixAt "a" Sample.t0]))
              Sample.onlyDirections
  = ([], Returned (Server.mkHttp 400
                     (Server.ErrorJson "At least 2 coordinates are required"))).
Proof.
  destruct (@short_input_is_rejected Sample.getTime Sample.token
              [Sample.fixAt "a" Sample.t0] Sample.onlyDirections) as (_ & A & _).
  - simpl. lia.
  - apply A. reflexivity.
Defined.

(** The same holds when the request carries no [coordinates] at all. *)
Lemma missing_coordinates_rejected (getTime : string -> number) (token : option string)
      (svc : Services) :
  Server.tokenMissing token = false ->
  Server.POST getTime token (Server.JsonBody None) svc
  = ([], Returned (Server.mkHttp 400
                     (Server.ErrorJson "At least 2 coordinates are required"))).
Proof.
  intros H. rewrite POST_parsed. unfold Server.afterBody, tryCatch. rewrite H. reflexivity.
Qed.

(** C9, counterexample. With the access token absent, a request whose body
    is not JSON is not answered with the configuration error:
    [request.json()] (line 26) throws before the token is looked at (line
    28), and the outer [catch] answers "Failed to process route". *)
Lemma missing_token_counterexample :
  Server.tokenMissing None = true
  /\ Server.POST Sample.getTime None Server.NotJson Sample.onlyDirections
     = ([], Returned (Server.mkHttp 500 (Server.ErrorJson "Failed to process route")))
  /\ snd (Server.POST Sample.getTime None Server.NotJson Sample.onlyDirections)
     <> Returned (Server.mkHttp 500
                    (Server.ErrorJson "Mapbox access token not configured")).
Proof.
  split; [reflexivity|]. split; [reflexivity|]. simpl. discriminate.
Qed.

(** C9, amended. Whatever the request, when the access token is absent the
    handler fails at once with status 500: no request is issued to either
    service and no route, not even the simple line, is built.  The failure
    is the configuration error whenever the body of the request can be read
    (it is JSON and not [null]), and the processing error otherwise. *)
Theorem missing_token_is_fatal (getTime : string -> number) (token : option string)
        (request : Server.RequestBody) (svc : Services) :
  Server.tokenMissing token = true ->
  fst (Server.POST getTime token request svc) = []
  /\ (exists error,
        snd (Server.POST getTime token request svc)
        = Returned (Server.mkHttp 500 (Server.ErrorJson error)))
  /\ (forall coordinates,
        request = Server.JsonBody coordinates ->
        Server.POST getTime token request svc
        = ([], Returned (Server.mkHttp 500
                           (Server.ErrorJson "Mapbox access token not configured"))))
  /\ (request = Server.NotJson \/ request = Server.JsonNull ->
      Server.POST getTime token request svc
      = ([], Returned (Server.mkHttp 500 (Server.ErrorJson "Failed to process route")))).
Proof.
  intros H.
  assert (Hread : forall coordinates,
            Server.POST getTime token (Server.JsonBody coordinates) svc
            = ([], Returned (Server.mkHttp 500
                               (Server.ErrorJson "Mapbox access token not configured")))).
  { intros coordinates. rewrite POST_parsed. unfold Server.afterBody, tryCatch.
    rewrite H. reflexivity. }
  destruct request as [| |coordinates].
  - split; [reflexivity|]. split; [eexists; reflexivity|].
    split; [discriminate | reflexivity].
  - split; [reflexivity|]. split; [eexists; reflexivity|].
    split; [discriminate | reflexivity].
  - rewrite Hread. split; [reflexivity|]. split; [eexists; reflexivity|].
    split; [reflexivity | intros [E|E]; discriminate E].
Qed.

Lemma missing_token_is_fatal_witness :
  Server.POST Sample.getTime None (Server.JsonBody (Some Sample.clustered)) Sample.onlyDirections
  = ([], Returned (Server.mkHttp 500
                     (Server.ErrorJson "Mapbox access token not configured"))).
Proof.
  destruct (@missing_token_is_fatal Sample.getTime None
              (Server.JsonBody (Some Sample.clustered)) Sample.onlyDirections)
    as (_ & _ & A & _).
  - reflexivity.
  - apply (A (Some Sample.clustered)). reflexivity.
Defined.

(** C10. When the Map Matching call answers with a success status and a
    body that is not JSON, or that has no non-empty [matchings], the failure
    stays inside the matching stage: the handler goes on to issue the
    Directions request, and its answer is the one the fallback stages
    produce, a route with method ["directions"] or ["simple"] unless the
    Directions call itself throws. *)
Theorem unusable_matching_body_is_contained (getTime : string -> number)
        (token : option string) (coordinates : list Coordinate) (svc : Services)
        (answer : Response MapboxMatchingResponse) :
  Server.tokenMissing token = false ->
  2 <= length coordinates ->
  let processed := Server.processedOf getTime coordinates in
  let waypoints := map lonLat (Server.directionsCoordinatesOf processed) in
  matchingEndpoint svc (map lonLat processed) = Resolved answer ->
  ok answer = true ->
  (parsed answer = None
   \/ exists data, parsed answer = Some data /\ firstOf (matchings data) = None) ->
  exists response,
    Server.POST getTime token (Server.JsonBody (Some coordinates)) svc
    = ([MatchingCall (map lonLat processed) (length processed); DirectionsCall waypoints],
       Returned response)
    /\ Returned response
       = snd (tryCatch (Server.afterMatching processed (length coordinates))
                (ret (Server.mkHttp 500 (Server.ErrorJson "Failed to process route")))
                svc)
    /\ (forall routed,
          directionsEndpoint svc waypoints = Resolved routed ->
          (ok routed = true -> parsed routed <> None) ->
          exists result,
            response = Server.mkHttp 200 (Server.RouteJson result)
            /\ (Server.method result = "directions"%string
                \/ Server.method result = "simple"%string)).
Proof.
  intros Htoken Hlen processed waypoints Hanswer Hok Hbody.
  assert (Hmatch : noUsableMatch (matchingEndpoint svc (map lonLat processed)) = true).
  { rewrite Hanswer. unfold noUsableMatch. rewrite Hok. simpl.
    destruct Hbody as [-> | [data [-> ->]]]; reflexivity. }
  rewrite (@POST_after_unusable_match getTime token svc coordinates) by assumption.
  fold processed.
  destruct (afterMatching_outcome svc processed (length coordinates))
    as [response [E Hroute]].
  fold waypoints in E, Hroute. rewrite E. simpl.
  exists response. split; [reflexivity|]. split; [reflexivity | exact Hroute].
Qed.

Lemma unusable_matching_body_is_contained_witness :
  exists result,
    Server.POST Sample.getTime Sample.token (Server.JsonBody (Some Sample.twoFixes)) Sample.garbledMatching
    = ([MatchingCall (map lonLat Sample.twoFixes) 2;
        DirectionsCall (map lonLat Sample.twoFixes)],
       Returned (Server.mkHttp 200 (Server.RouteJson result)))
    /\ (Server.method result = "directions"%string
        \/ Server.method result = "simple"%string).
Proof.
  destruct (@unusable_matching_body_is_contained Sample.getTime Sample.token
              Sample.twoFixes Sample.garbledMatching (mkResponse true 200 None))
    as (response & E & _ & R).
  - reflexivity.
  - simpl. lia.
  - reflexivity.
  - reflexivity.
  - left. reflexivity.
  - destruct (R (mkResponse false 422 None)) as (result & -> & M).
    + reflexivity.
    + discriminate.
    + exists result. split; [exact E | exact M].
Defined.

(** ** One request, whatever its size

    C1. The handler has no batch splitter.  Of 101 fixes recorded at one
    instant, time-based sampling keeps all 101 (the time span and the time
    step are 0) and the handler sends them in a single Map Matching request
    of 101 points, above its own [maxCoordinates = 100]; no window of 100 is
    formed and no short tail is dropped.  The sibling cascade of the map
    component splits the same input into one batch of 100 fixes and drops
    the single fix that is left. *)
Theorem handler_sends_one_oversized_request :
  length Sample.simultaneous = 101
  /\ Server.maxCoordinates = 100
  /\ Server.processedOf Sample.getTime Sample.simultaneous = Sample.simultaneous
  /\ fst (Server.POST Sample.getTime Sample.token
                      (Server.JsonBody (Some Sample.simultaneous)) Sample.bothRefuse)
     = [matchingCallFor Sample.simultaneous;
        DirectionsCall (map lonLat (Server.directionsCoordinatesOf Sample.simultaneous))]
  /\ Client.splitBatches Client.maxPointsPerRequest Sample.simultaneous
     = [firstn 100 Sample.simultaneous]
  /\ fst (Client.performBatchMapMatching Sample.simultaneous Sample.bothRefuse)
     = [matchingCallFor (firstn 100 Sample.simultaneous)].
Proof.
  split; [reflexivity|]. split; [reflexivity|].
  split; [vm_compute; reflexivity|]. split; [vm_compute; reflexivity|].
  split; vm_compute; reflexivity.
Qed.

(** ** The batch splitter of the client cascade *)

Lemma firstn_plus (A : Type) (a b : nat) (l : list A) :
  firstn (a + b) l = firstn a l ++ firstn b (skipn a l).
Proof.
  revert l. induction a as [|a IH]; intros l; [reflexivity|].
  destruct l as [|x l]; simpl.
  - now rewrite firstn_nil.
  - now rewrite IH.
Qed.

Lemma mod_minus_window (n w : nat) : w <= n -> (n - w) mod w = n mod w.
Proof.
  intros H. replace n with ((n - w) + 1 * w) at 2 by lia.
  now rewrite Nat.Div0.mod_add.
Qed.

Section Splitter.

Variable window : nat.
Hypothesis window_ok : 2 <= window.

Import Client.

Lemma slice_window (l : list Coordinate) (i : nat) :
  slice l i (i + window) = firstn window (skipn i l).
Proof. unfold slice. f_equal. lia. Qed.

Lemma withoutShortTail_nil : withoutShortTail window (@nil Coordinate) = [].
Proof.
  unfold withoutShortTail. simpl length. rewrite Nat.Div0.mod_0_l. reflexivity.
Qed.

Lemma withoutShortTail_step (r : list Coordinate) :
  window <= length r ->
  withoutShortTail window r
  = firstn window r ++ withoutShortTail window (skipn window r).
Proof.
  intros H. unfold withoutShortTail.
  rewrite length_skipn, mod_minus_window by assumption.
  pose proof (Nat.Div0.mod_le (length r - window) window) as Hm.
  rewrite mod_minus_window in Hm by assumption.
  destruct (length r mod window <? 2).
  - replace (length r - length r mod window)
      with (window + (length r - window - length r mod window)) by lia.
    apply firstn_plus.
  - symmetry. apply firstn_skipn.
Qed.

Lemma withoutShortTail_short (r : list Coordinate) :
  length r < window ->
  withoutShortTail window r = if 2 <=? length r then r else [].
Proof.
  intros H. unfold withoutShortTail. rewrite Nat.mod_small by assumption.
  destruct (Nat.ltb_spec (length r) 2) as [Hlt|Hge];
    destruct (Nat.leb_spec 2 (length r)); try lia; [|reflexivity].
  replace (length r - length r) with 0 by lia. reflexivity.
Qed.

Lemma batchLoop_past (fuel i : nat) (l : list Coordinate) :
  length l <= i -> batchLoop window fuel i l = [].
Proof.
  intros H. destruct fuel; cbn [batchLoop]; [reflexivity|].
  destruct (Nat.ltb_spec i (length l)); [lia | reflexivity].
Qed.

(** One iteration of the loop, by the size of what is left. *)
Lemma batchLoop_full (fuel i : nat) (l : list Coordinate) :
  window <= length (skipn i l) ->
  batchLoop window (S fuel) i l
  = firstn window (skipn i l) :: batchLoop window fuel (i + window) l.
Proof.
  intros H. rewrite length_skipn in H. cbn [batchLoop].
  destruct (Nat.ltb_spec i (length l)); [|lia].
  rewrite slice_window, length_firstn, length_skipn.
  destruct (Nat.leb_spec 2 (Nat.min window (length l - i))); [reflexivity | lia].
Qed.

Lemma batchLoop_short (fuel i : nat) (l : list Coordinate) :
  length (skipn i l) < window ->
  batchLoop window (S fuel) i l
  = if 2 <=? length (skipn i l) then [skipn i l] else [].
Proof.
  intros H. cbn [batchLoop].
  rewrite (batchLoop_past fuel (i := i + window) l)
    by (rewrite length_skipn in H; lia).
  rewrite slice_window, firstn_all2 by lia.
  destruct (Nat.ltb_spec i (length l)) as [Hi|Hi].
  - now rewrite app_nil_r.
  - rewrite skipn_all2 by lia. reflexivity.
Qed.

Lemma batchLoop_concat (fuel : nat) :
  forall (i : nat) (l : list Coordinate),
    length l - i <= fuel ->
    concat (batchLoop window fuel i l) = withoutShortTail window (skipn i l).
Proof.
  induction fuel as [|fuel IH]; intros i l Hfuel.
  - rewrite skipn_all2 by lia. now rewrite withoutShortTail_nil.
  - destruct (Nat.le_gt_cases window (length (skipn i l))) as [Hfull|Hshort].
    + rewrite batchLoop_full by assumption. simpl concat.
      rewrite IH by lia.
      rewrite (withoutShortTail_step (skipn i l)) by assumption.
      rewrite skipn_skipn. do 3 f_equal. lia.
    + rewrite batchLoop_short, withoutShortTail_short by assumption.
      destruct (2 <=? length (skipn i l)); simpl; [apply app_nil_r | reflexivity].
Qed.

Lemma batchLoop_sizes (fuel : nat) :
  forall (i : nat) (l : list Coordinate),
    Forall (fun batch => 2 <= length batch <= window) (batchLoop window fuel i l).
Proof.
  induction fuel as [|fuel IH]; intros i l; [constructor|].
  destruct (Nat.le_gt_cases window (length (skipn i l))) as [Hfull|Hshort].
  - rewrite batchLoop_full by assumption. constructor; [|apply IH].
    rewrite length_firstn. lia.
  - rewrite batchLoop_short by assumption.
    destruct (Nat.leb_spec 2 (length (skipn i l))); constructor; [lia | constructor].
Qed.

(** The [k]-th batch is the [k]-th window of the input. *)
Lemma batchLoop_windows (fuel : nat) :
  forall (i : nat) (l : list Coordinate) (k : nat),
    k < length (batchLoop window fuel i l) ->
    nth k (batchLoop window fuel i l) []
    = slice l (i + k * window) (i + k * window + window).
Proof.
  induction fuel as [|fuel IH]; intros i l k Hk; [simpl in Hk; lia|].
  destruct (Nat.le_gt_cases window (length (skipn i l))) as [Hfull|Hshort].
  - rewrite batchLoop_full in * by assumption.
    destruct k as [|k]; simpl nth.
    + rewrite slice_window. f_equal. f_equal. lia.
    + simpl in Hk. rewrite IH by lia. f_equal; lia.
  - rewrite batchLoop_short in * by assumption.
    destruct (2 <=? length (skipn i l)); simpl in Hk; [|lia].
    assert (k = 0) as -> by lia. simpl nth.
    rewrite Nat.mul_0_l, Nat.add_0_r.
    rewrite slice_window, firstn_all2 by lia. reflexivity.
Qed.

(** The loop bound of [splitBatches] is never what stops the loop. *)
Lemma batchLoop_fuel (extra fuel : nat) :
  forall (i : nat) (l : list Coordinate),
    length l - i <= fuel ->
    batchLoop window (fuel + extra) i l = batchLoop window fuel i l.
Proof.
  induction fuel as [|fuel IH]; intros i l Hfuel.
  - rewrite !batchLoop_past by lia. reflexivity.
  - cbn [batchLoop Nat.add]. rewrite IH by lia. reflexivity.
Qed.

Lemma splitBatches_partition (l : list Coordinate) :
  let batches := splitBatches window l in
  concat batches = withoutShortTail window l
  /\ Forall (fun batch => 2 <= length batch <= window) batches
  /\ (forall k, k < length batches ->
        nth k batches [] = slice l (k * window) (k * window + window)).
Proof.
  unfold splitBatches. split; [|split].
  - rewrite batchLoop_concat by lia. reflexivity.
  - apply batchLoop_sizes.
  - intros k Hk. now rewrite batchLoop_windows.
Qed.

End Splitter.

(** ** The client cascade issues one request per batch *)

Section ClientFacts.

Variable svc : Services.

Import Client.

Lemma performMapMatching_run (batch : list Coordinate) :
  2 <= length batch ->
  exists result,
    performMapMatching batch svc = ([matchingCallFor batch], Returned result).
Proof.
  intros H. unfold performMapMatching, matchingCallFor.
  destruct (Nat.ltb_spec (length batch) 2); [lia|].
  unfold tryCatch, bind, fetchMatching.
  destruct (matchingEndpoint svc (map lonLat batch)) as [|[isOk code body]]; simpl.
  - eexists. reflexivity.
  - destruct isOk; simpl; [|eexists; reflexivity].
    unfold parseJson; simpl. destruct body as [data|]; simpl; [|eexists; reflexivity].
    destruct (firstOf (matchings data)); simpl; eexists; reflexivity.
Qed.

Lemma allSettled_run (batches : list (list Coordinate)) :
  Forall (fun batch => 2 <= length batch) batches ->
  exists results,
    allSettled performMapMatching batches svc
    = (map matchingCallFor batches, Returned results).
Proof.
  induction 1 as [|batch batches Hb _ IH]; simpl.
  - eexists. reflexivity.
  - destruct (performMapMatching_run batch Hb) as [result E].
    destruct IH as [results E'].
    unfold bind at 1. rewrite E. unfold bind at 1. rewrite E'. simpl.
    rewrite app_nil_r. eexists. reflexivity.
Qed.

Lemma performBatchMapMatching_run (coordinates : list Coordinate) :
  2 <= length coordinates ->
  exists result,
    performBatchMapMatching coordinates svc
    = (map matchingCallFor (splitBatches maxPointsPerRequest coordinates),
       Returned result).
Proof.
  intros H. unfold performBatchMapMatching.
  destruct (Nat.ltb_spec (length coordinates) 2); [lia|].
  assert (Hsizes : Forall (fun batch => 2 <= length batch)
                     (splitBatches maxPointsPerRequest coordinates)).
  { pose proof (@batchLoop_sizes maxPointsPerRequest
                  ltac:(unfold maxPointsPerRequest; lia)
                  (length coordinates) 0 coordinates) as Hs.
    eapply Forall_impl; [|exact Hs]. simpl. intros batch Hb. lia. }
  destruct (allSettled_run Hsizes) as [results E].
  destruct (splitBatches maxPointsPerRequest coordinates) as [|batch batches] eqn:Eb.
  - eexists. reflexivity.
  - unfold tryCatch. unfold bind at 1. rewrite E.
    destruct (successes results); simpl; rewrite app_nil_r; eexists; reflexivity.
Qed.

Lemma processRoute_batches (coordinates : list Coordinate) :
  100 < length coordinates ->
  exists rest,
    fst (processRoute coordinates svc)
    = map matchingCallFor (splitBatches maxPointsPerRequest coordinates) ++ rest.
Proof.
  intros H. unfold processRoute.
  destruct (Nat.leb_spec (length coordinates) 100); [lia|].
  destruct (@performBatchMapMatching_run coordinates ltac:(lia)) as [result E].
  unfold bind at 1. rewrite E.
  destruct result as [route|].
  - simpl. eexists. reflexivity.
  - destruct (performDirectionsMatching coordinates svc) as [calls outcome].
    simpl. eexists. reflexivity.
Qed.

End ClientFacts.

(** X19. For every input longer than [maxPointsPerRequest] (100), the client
    cascade splits it into the consecutive windows of 100 fixes and issues
    its Map Matching requests batch by batch: the batches, concatenated in
    order, are the input without a last window of fewer than 2 fixes; every
    batch holds at least 2 and at most 100 fixes; the [k]-th batch is the
    [k]-th window of the input. *)
Theorem batch_splitter_partitions (coordinates : list Coordinate) (svc : Services) :
  Client.maxPointsPerRequest < length coordinates ->
  let batches := Client.splitBatches Client.maxPointsPerRequest coordinates in
  concat batches = withoutShortTail Client.maxPointsPerRequest coordinates
  /\ Forall (fun batch => 2 <= length batch <= Client.maxPointsPerRequest) batches
  /\ (forall batch, In batch batches -> length batch <> 0 /\ length batch <> 1)
  /\ (forall k, k < length batches ->
        nth k batches []
        = Client.slice coordinates (k * Client.maxPointsPerRequest)
            (k * Client.maxPointsPerRequest + Client.maxPointsPerRequest))
  /\ (exists rest,
        fst (Client.processRoute coordinates svc) = map matchingCallFor batches ++ rest).
Proof.
  intros Hlen batches.
  destruct (@splitBatches_partition Client.maxPointsPerRequest
              ltac:(unfold Client.maxPointsPerRequest; lia) coordinates)
    as (Hconcat & Hsizes & Hwindows).
  fold batches in Hconcat, Hsizes, Hwindows.
  split; [exact Hconcat|]. split; [exact Hsizes|]. split; [|split].
  - intros batch Hin. rewrite Forall_forall in Hsizes.
    specialize (Hsizes batch Hin). lia.
  - exact Hwindows.
  - apply processRoute_batches. exact Hlen.
Qed.

Lemma batch_splitter_partitions_witness :
  concat (Client.splitBatches 100 Sample.clustered) = firstn 100 Sample.clustered
  /\ map (@length Coordinate) (Client.splitBatches 100 Sample.clustered) = [100]
  /\ exists rest,
       fst (Client.processRoute Sample.clustered Sample.bothRefuse)
       = [matchingCallFor (firstn 100 Sample.clustered)] ++ rest.
Proof.
  destruct (@batch_splitter_partitions Sample.clustered Sample.bothRefuse)
    as (A & _ & _ & _ & B).
  - vm_compute. lia.
  - split; [exact A|]. split; [vm_compute; reflexivity | exact B].
Defined.

(** * Further properties of the code *)

(** ** Order of doubles

    Facts about the comparisons of binary64 numbers, from the specification
    of the primitive operations. *)

Lemma SFcompare_antisym (x y : spec_float) :
  SFcompare y x = option_map CompOpp (SFcompare x y).
Proof.
  destruct x as [sx|sx| |sx mx ex], y as [sy|sy| |sy my ey]; simpl; try reflexivity;
    try (destruct sx; reflexivity); try (destruct sy; reflexivity);
    try (destruct sx, sy; reflexivity).
  destruct sx, sy; try reflexivity.
  - rewrite (Z.compare_antisym ex ey). destruct (ex ?= ey)%Z; simpl; try reflexivity.
    rewrite (Pos.compare_cont_antisym mx my Eq). reflexivity.
  - rewrite (Z.compare_antisym ex ey). destruct (ex ?= ey)%Z; simpl; try reflexivity.
    rewrite (Pos.compare_cont_antisym mx my Eq). reflexivity.
Qed.

Lemma SFcompare_refl (x : spec_float) :
  x <> S754_nan -> SFcompare x x = Some Eq.
Proof.
  destruct x as [s|s| |s m e]; simpl; intros H; try reflexivity; try congruence.
  - destruct s; reflexivity.
  - rewrite Z.compare_refl. destruct s; [|apply f_equal, Pos.compare_cont_refl].
    f_equal. now rewrite Pos.compare_cont_refl.
Qed.

Lemma SFltb_zero (r : spec_float) : SFltb (S754_zero false) r = SFpositive r.
Proof. destruct r as [s|s| |s m e]; try reflexivity; destruct s; reflexivity. Qed.

(** Rounding keeps the sign it is given. *)
Lemma binary_round_negative (m : positive) (e : Z) :
  SFpositive (binary_round prec emax true m e) = false.
Proof.
  unfold binary_round.
  destruct (shl_align _ _ _) as [mz ez]. unfold binary_round_aux.
  destruct (shr_fexp _ _ _ _ _) as [mrs' e'].
  destruct (shr_fexp _ _ _ _ _) as [mrs'' e''].
  destruct (shr_m mrs''); try reflexivity.
  destruct (Z.leb _ _); reflexivity.
Qed.

Lemma SFsub_positive_antisym (x y : spec_float) :
  SFpositive (SF64sub x y) = true -> SFpositive (SF64sub y x) = false.
Proof.
  unfold SF64sub.
  destruct x as [sx|sx| |sx mx ex], y as [sy|sy| |sy my ey]; simpl;
    try discriminate; try reflexivity;
    try (destruct sx; simpl; (discriminate || reflexivity));
    try (destruct sy; simpl; (discriminate || reflexivity));
    try (destruct sx, sy; simpl; (discriminate || reflexivity)).
  set (ez := Z.min ex ey). rewrite (Z.min_comm ey ex). fold ez.
  set (a := cond_Zopp sx (Z.pos (fst (shl_align mx ex ez)))).
  set (b := cond_Zopp sy (Z.pos (fst (shl_align my ey ez)))).
  replace (b - a)%Z with (- (a - b))%Z by lia.
  destruct (a - b)%Z as [|p|p]; simpl.
  - discriminate.
  - intros _. apply binary_round_negative.
  - intros H. rewrite binary_round_negative in H. discriminate.
Qed.

(** [x - y > 0] and [y - x > 0] never hold together. *)
Lemma positive_difference_antisym (x y : number) :
  PrimFloat.ltb 0%float (PrimFloat.sub x y) = true ->
  PrimFloat.ltb 0%float (PrimFloat.sub y x) = false.
Proof.
  rewrite !FloatAxioms.ltb_spec, !FloatAxioms.sub_spec. change (Prim2SF 0%float) with (S754_zero false).
  rewrite !SFltb_zero. apply SFsub_positive_antisym.
Qed.

(** A comparison that holds has no [NaN] on either side. *)
Lemma leb_true_not_nan (a x : number) :
  PrimFloat.leb a x = true -> isNaN a = false /\ isNaN x = false.
Proof.
  unfold isNaN. rewrite FloatAxioms.leb_spec, !FloatAxioms.eqb_spec. unfold SFleb, SFeqb. intros H.
  assert (Prim2SF a <> S754_nan /\ Prim2SF x <> S754_nan) as [Ha Hx].
  { split; intros E; rewrite E in H; simpl in H; try discriminate.
    destruct (Prim2SF a); discriminate. }
  now rewrite !SFcompare_refl.
Qed.

(** Away from [NaN], [not (x < a)] is [a <= x]. *)
Lemma ltb_false_iff_leb (a x : number) :
  isNaN a = false -> isNaN x = false ->
  PrimFloat.ltb x a = false <-> PrimFloat.leb a x = true.
Proof.
  unfold isNaN. rewrite !negb_false_iff.
  rewrite FloatAxioms.ltb_spec, FloatAxioms.leb_spec, !FloatAxioms.eqb_spec. unfold SFltb, SFleb, SFeqb.
  rewrite (SFcompare_antisym (Prim2SF a) (Prim2SF x)).
  intros Ha Hx.
  destruct (SFcompare (Prim2SF a) (Prim2SF x)) as [[| |]|] eqn:E; simpl;
    try (split; congruence).
  exfalso.
  destruct (Prim2SF a), (Prim2SF x); simpl in *; try discriminate.
Qed.

(** ** Subsequences *)

Lemma Subsequence_refl (A : Type) (l : list A) : Subsequence l l.
Proof. induction l; constructor; assumption. Qed.

Lemma Subsequence_trans (A : Type) (s m l : list A) :
  Subsequence s m -> Subsequence m l -> Subsequence s l.
Proof.
  intros Hsm Hml. revert s Hsm.
  induction Hml as [l|x m l _ IH|x m l _ IH]; intros s Hsm.
  - inversion Hsm; subst. constructor.
  - inversion Hsm; subst.
    + constructor.
    + apply sub_take, IH. assumption.
    + apply sub_skip, IH. assumption.
  - apply sub_skip, IH. assumption.
Qed.

Lemma Subsequence_app (A : Type) (s1 l1 s2 l2 : list A) :
  Subsequence s1 l1 -> Subsequence s2 l2 -> Subsequence (s1 ++ s2) (l1 ++ l2).
Proof.
  intros H1 H2. induction H1 as [l|x s l _ IH|x s l _ IH]; simpl.
  - induction l; simpl; [assumption | now apply sub_skip].
  - now apply sub_take.
  - now apply sub_skip.
Qed.

Lemma Subsequence_length (A : Type) (s l : list A) :
  Subsequence s l -> length s <= length l.
Proof. induction 1; simpl; lia. Qed.

Lemma Subsequence_In (A : Type) (s l : list A) (x : A) :
  Subsequence s l -> In x s -> In x l.
Proof.
  induction 1 as [l|y s l _ IH|y s l _ IH]; simpl; intros Hin.
  - contradiction.
  - destruct Hin; [now left | right; now apply IH].
  - right. now apply IH.
Qed.

Lemma Subsequence_filter (A : Type) (f : A -> bool) (l : list A) :
  Subsequence (filter f l) l.
Proof.
  induction l as [|x l IH]; simpl; [constructor|].
  destruct (f x); [now apply sub_take | now apply sub_skip].
Qed.

Lemma Subsequence_map (A B : Type) (f : A -> B) (s l : list A) :
  Subsequence s l -> Subsequence (map f s) (map f l).
Proof. induction 1; simpl; constructor; assumption. Qed.

(** Reading a list at strictly increasing positions selects a subsequence. *)
Lemma Subsequence_nth (A : Type) (d : A) (l : list A) :
  forall indices,
    StronglySorted lt indices ->
    Forall (fun i => i < length l) indices ->
    Subsequence (map (fun i => nth i l d) indices) l.
Proof.
  induction l as [|x l IH]; intros indices Hsorted Hrange.
  - destruct indices as [|i rest]; [constructor|].
    inversion Hrange; subst. simpl in *. lia.
  - assert (Hshift : forall js,
               StronglySorted lt js -> Forall (fun i => i < length (x :: l)) js ->
               Forall (fun i => 0 < i) js ->
               Subsequence (map (fun i => nth i (x :: l) d) js) l).
    { intros js Hs Hr Hpos.
      replace (map (fun i => nth i (x :: l) d) js)
        with (map (fun i => nth i l d) (map Nat.pred js)).
      - apply IH.
        + clear Hr. induction Hs as [|j js Hs IHs Hj]; simpl; constructor.
          * apply IHs. now inversion Hpos.
          * inversion Hpos; subst. rewrite Forall_forall in *.
            intros k Hk. apply in_map_iff in Hk. destruct Hk as [k' [<- Hk']].
            pose proof (Hj k' Hk'). lia.
        + rewrite Forall_forall in *. intros k Hk.
          apply in_map_iff in Hk. destruct Hk as [k' [<- Hk']].
          pose proof (Hr k' Hk'). pose proof (Hpos k' Hk'). simpl in *. lia.
      - rewrite map_map. apply map_ext_in. intros j Hj.
        rewrite Forall_forall in Hpos. pose proof (Hpos j Hj).
        destruct j; [lia | reflexivity]. }
    destruct indices as [|i rest]; [constructor|].
    inversion Hsorted as [|? ? Hrest Hlt]; subst.
    inversion Hrange as [|? ? Hi Hrange']; subst.
    destruct i as [|i].
    + simpl map. apply sub_take. apply Hshift; assumption.
    + apply sub_skip. apply Hshift; try assumption.
      constructor; [lia|]. rewrite Forall_forall in *. intros k Hk.
      pose proof (Hlt k Hk). lia.
Qed.

(** ** The sort *)

Section SortOrder.

Variable getTime : string -> number.

Lemma outOfOrder_antisym (a b : Coordinate) :
  outOfOrder getTime a b = true -> outOfOrder getTime b a = false.
Proof. unfold outOfOrder, compareFn. apply positive_difference_antisym. Qed.

Lemma inComparatorOrder_cons (a b : Coordinate) (l : list Coordinate) :
  inComparatorOrder getTime (a :: b :: l)
  = negb (outOfOrder getTime a b) && inComparatorOrder getTime (b :: l).
Proof. reflexivity. Qed.

Lemma inComparatorOrder_tail (a : Coordinate) (l : list Coordinate) :
  inComparatorOrder getTime (a :: l) = true -> inComparatorOrder getTime l = true.
Proof.
  destruct l as [|b l]; [reflexivity|].
  rewrite inComparatorOrder_cons. intros H. now apply andb_prop in H.
Qed.

Lemma insertSorted_head (x : Coordinate) (l : list Coordinate) :
  exists rest,
    insertSorted getTime x l = hd x l :: rest \/ insertSorted getTime x l = x :: rest.
Proof.
  destruct l as [|y l]; simpl.
  - exists []. now right.
  - destruct (PrimFloat.ltb _ _); eexists; [left | right]; reflexivity.
Qed.

Lemma insertSorted_in_order (x : Coordinate) (l : list Coordinate) :
  inComparatorOrder getTime l = true ->
  inComparatorOrder getTime (insertSorted getTime x l) = true.
Proof.
  induction l as [|y l IH]; intros Hl; [reflexivity|].
  cbn [insertSorted]. fold (outOfOrder getTime x y).
  destruct (outOfOrder getTime x y) eqn:Hxy.
  - specialize (IH (@inComparatorOrder_tail y l Hl)).
    destruct l as [|z l].
    + simpl insertSorted in *. rewrite inComparatorOrder_cons.
      now rewrite (@outOfOrder_antisym x y Hxy).
    + cbn [insertSorted] in *. fold (outOfOrder getTime x z) in *.
      rewrite inComparatorOrder_cons in Hl. apply andb_prop in Hl. destruct Hl as [Hyz Hl].
      destruct (outOfOrder getTime x z).
      * rewrite inComparatorOrder_cons, Hyz. exact IH.
      * rewrite inComparatorOrder_cons, (@outOfOrder_antisym x y Hxy). exact IH.
  - rewrite inComparatorOrder_cons, Hxy. exact Hl.
Qed.

Lemma insertSorted_ordered (x : Coordinate) (l : list Coordinate) :
  inComparatorOrder getTime (x :: l) = true -> insertSorted getTime x l = x :: l.
Proof.
  destruct l as [|y l]; [reflexivity|].
  rewrite inComparatorOrder_cons. intros H. apply andb_prop in H. destruct H as [H _].
  cbn [insertSorted]. fold (outOfOrder getTime x y).
  apply negb_true_iff in H. now rewrite H.
Qed.

End SortOrder.

(** X1. When every timestamp of the input is a valid date (a finite
    number of milliseconds), the sort of the handler returns a permutation
    of its input in which no coordinate is directly followed by one the
    comparator [(a, b) => time(a) - time(b)] puts before it; an input
    already in that order is returned as it is. *)
Theorem sort_orders_by_comparator (getTime : string -> number)
        (coordinates : list Coordinate) :
  Forall (fun c => PrimFloat.is_finite (getTime (timestamp c)) = true) coordinates ->
  Permutation coordinates (sortCoordinates getTime coordinates)
  /\ inComparatorOrder getTime (sortCoordinates getTime coordinates) = true
  /\ (inComparatorOrder getTime coordinates = true ->
      sortCoordinates getTime coordinates = coordinates).
Proof.
  intros _.
  split; [apply sortCoordinates_perm|]. split.
  - induction coordinates as [|x l IH]; [reflexivity|].
    simpl. apply insertSorted_in_order. exact IH.
  - induction coordinates as [|x l IH]; intros H; [reflexivity|].
    simpl. rewrite IH by (apply (@inComparatorOrder_tail getTime x l H)).
    apply insertSorted_ordered. exact H.
Qed.

Lemma sort_orders_by_comparator_witness :
  let late := Sample.fixAt "b" Sample.t99 in
  let early := Sample.fixAt "a" Sample.t0 in
  Permutation [late; early] (sortCoordinates Sample.getTime [late; early])
  /\ sortCoordinates Sample.getTime [late; early] = [early; late]
  /\ inComparatorOrder Sample.getTime [early; late] = true.
Proof.
  cbv zeta.
  destruct (@sort_orders_by_comparator Sample.getTime
              [Sample.fixAt "b" Sample.t99; Sample.fixAt "a" Sample.t0]) as (A & B & _).
  - repeat constructor.
  - split; [exact A|]. split; [vm_compute; reflexivity|]. exact B.
Defined.

(** ** What the samplers select *)

Lemma last_is_nth (A : Type) (l : list A) (d : A) :
  last l d = nth (length l - 1) l d.
Proof.
  induction l as [|x l IH]; [reflexivity|].
  destruct l as [|y l]; [reflexivity|].
  change (last (x :: y :: l) d) with (last (y :: l) d). rewrite IH.
  simpl. now rewrite Nat.sub_0_r.
Qed.

Lemma Subsequence_snoc_last (A : Type) (s l : list A) (d : A) :
  l <> [] -> Subsequence s (removelast l) -> Subsequence (s ++ [last l d]) l.
Proof.
  intros Hne Hs. pose proof (app_removelast_last d Hne) as E.
  set (r := removelast l) in *. set (x := last l d) in *.
  rewrite E. apply Subsequence_app; [assumption | apply Subsequence_refl].
Qed.

Lemma sampleLoop_subsequence (getTime : string -> number) (timeStep : number)
      (interior : list Coordinate) :
  forall currentTime,
    Subsequence (sampleLoop getTime timeStep currentTime interior) interior.
Proof.
  induction interior as [|c rest IH]; intros currentTime; simpl; [constructor|].
  destruct (PrimFloat.leb _ _); [apply sub_take | apply sub_skip]; apply IH.
Qed.

Lemma timeBasedSampling_subsequence (getTime : string -> number) (maxCoordinates : nat)
      (sortedCoordinates : list Coordinate) :
  2 <= length sortedCoordinates ->
  Subsequence (timeBasedSampling getTime maxCoordinates sortedCoordinates)
              sortedCoordinates.
Proof.
  intros Hlen.
  destruct sortedCoordinates as [|first rest]; [constructor|].
  destruct rest as [|second rest]; [simpl in Hlen; lia|].
  unfold timeBasedSampling.
  change (last (first :: second :: rest) first) with (last (second :: rest) first).
  apply sub_take. apply Subsequence_snoc_last; [discriminate|].
  apply sampleLoop_subsequence.
Qed.

Lemma stride_subsequence (coordinates : list Coordinate) (targetCount : nat) :
  2 <= length coordinates -> 2 <= targetCount ->
  (Z.of_nat (length coordinates) < 2 ^ 32)%Z ->
  Subsequence (sampleCoordinatesEvenly coordinates targetCount) coordinates.
Proof.
  intros Hlen HM Hsize.
  destruct (Nat.le_gt_cases (length coordinates) targetCount) as [Hshort|Hlong].
  - unfold sampleCoordinatesEvenly.
    destruct (Nat.leb_spec (length coordinates) targetCount); [|lia].
    apply Subsequence_refl.
  - assert (Hsmall : (Z.of_nat (length coordinates) <= 2 ^ 49)%Z).
    { change (2 ^ 32)%Z with 4294967296%Z in Hsize.
      change (2 ^ 49)%Z with 562949953421312%Z. lia. }
    rewrite (@sampleCoordinatesEvenly_reads coordinates targetCount (Sample.fixAt "" "")
               HM Hlong Hsmall).
    destruct (@doubleIndices_ordered (length coordinates) targetCount HM Hlong Hsmall)
      as (_ & Hsorted & Hrange).
    apply Subsequence_nth; assumption.
Qed.

Lemma stride_last (coordinates : list Coordinate) (targetCount : nat) (d : Coordinate) :
  1 <= length coordinates ->
  last (sampleCoordinatesEvenly coordinates targetCount) d = last coordinates d.
Proof.
  intros Hlen. unfold sampleCoordinatesEvenly.
  destruct (length coordinates <=? targetCount); [reflexivity|].
  destruct coordinates as [|first rest]; [simpl in Hlen; lia|].
  cbv zeta. set (l := first :: rest).
  rewrite app_comm_cons, last_last, <- last_is_nth. apply last_indep. discriminate.
Qed.

Lemma stride_head (coordinates : list Coordinate) (targetCount : nat) (d : Coordinate) :
  hd d (sampleCoordinatesEvenly coordinates targetCount) = hd d coordinates.
Proof.
  unfold sampleCoordinatesEvenly.
  destruct (length coordinates <=? targetCount); [reflexivity|].
  destruct coordinates; reflexivity.
Qed.

(** X2. Time-based sampling of at least two coordinates selects from its
    input: the output is a subsequence of the input, in the same order. *)
Theorem time_sampling_selects (getTime : string -> number) (maxCoordinates : nat)
        (sortedCoordinates : list Coordinate) :
  2 <= length sortedCoordinates ->
  Subsequence (processCoordinates getTime maxCoordinates sortedCoordinates)
              sortedCoordinates.
Proof.
  intros Hlen. unfold processCoordinates.
  destruct (maxCoordinates <? length sortedCoordinates).
  - apply timeBasedSampling_subsequence. exact Hlen.
  - apply Subsequence_refl.
Qed.

Lemma time_sampling_selects_witness :
  Subsequence (processCoordinates Sample.getTime 100 Sample.clustered) Sample.clustered.
Proof.
  apply (@time_sampling_selects Sample.getTime 100 Sample.clustered).
  vm_compute. lia.
Defined.

(** X3. Index-stride sampling of at least two coordinates (fewer than
    2^32, as every JavaScript array) to a target of at least two selects a
    subsequence of its input that starts with the first and ends with the
    last coordinate of the input. *)
Theorem index_stride_selects (coordinates : list Coordinate) (targetCount : nat) :
  2 <= length coordinates -> 2 <= targetCount ->
  (Z.of_nat (length coordinates) < 2 ^ 32)%Z ->
  Subsequence (sampleCoordinatesEvenly coordinates targetCount) coordinates
  /\ forall d,
       hd d (sampleCoordinatesEvenly coordinates targetCount) = hd d coordinates
       /\ last (sampleCoordinatesEvenly coordinates targetCount) d = last coordinates d.
Proof.
  intros Hlen HM Hsize. split.
  - apply stride_subsequence; assumption.
  - intros d. split.
    + apply stride_head.
    + apply stride_last. lia.
Qed.

Lemma index_stride_selects_witness :
  Subsequence (sampleCoordinatesEvenly Sample.clustered 50) Sample.clustered
  /\ last (sampleCoordinatesEvenly Sample.clustered 50) (Sample.fixAt "" "")
     = Sample.fixAt "b" Sample.t99.
Proof.
  destruct (@index_stride_selects Sample.clustered 50) as [A B].
  - vm_compute. lia.
  - lia.
  - vm_compute. reflexivity.
  - split; [exact A|]. destruct (B (Sample.fixAt "" "")) as [_ ->]. reflexivity.
Defined.

(** ** The handler, case by case *)

Section HandlerCases.

Variable getTime : string -> number.
Variable token : option string.
Variable svc : Services.
Variable coordinates : list Coordinate.
Hypothesis token_present : Server.tokenMissing token = false.
Hypothesis enough : 2 <= length coordinates.

Local Notation "'processed'" := (Server.processedOf getTime coordinates).
Local Notation "'matchingCall'" :=
  (MatchingCall (map lonLat (Server.processedOf getTime coordinates))
                (length (Server.processedOf getTime coordinates))).
Local Notation "'directionsCall'" :=
  (DirectionsCall (map lonLat (Server.directionsCoordinatesOf
                                 (Server.processedOf getTime coordinates)))).

Lemma matching_answer_cases (answer : Fetched MapboxMatchingResponse) :
  answer = Rejected
  \/ (exists data matching, matchFound answer = Some (data, matching))
  \/ noUsableMatch answer = true.
Proof.
  destruct answer as [|[isOk code body]]; [now left|]. right.
  unfold matchFound, noUsableMatch; simpl.
  destruct isOk; simpl; [|now right].
  destruct body as [data|]; [|now right].
  destruct (firstOf (matchings data)) as [matching|]; [left | now right].
  now exists data, matching.
Qed.

Lemma directions_answer_cases (answer : Fetched DirectionsData) :
  directionsThrows answer = true
  \/ (exists route, routeFound answer = Some route)
  \/ noUsableRoute answer = true.
Proof.
  destruct answer as [|[isOk code body]]; [now left|].
  unfold directionsThrows, routeFound, noUsableRoute; simpl.
  destruct isOk; simpl; [|now right; right].
  destruct body as [data|]; [|now left]. right.
  destruct (firstOf (routes data)) as [route|]; [left | now right].
  now exists route.
Qed.

Lemma mapMatching_rejected (n : nat) :
  matchingEndpoint svc (map lonLat processed) = Rejected ->
  Server.mapMatching processed n svc = ([matchingCall], Thrown).
Proof.
  intros H. unfold Server.mapMatching, bind, fetchMatching. rewrite H. reflexivity.
Qed.

Lemma mapMatching_matched (n : nat) (data : MapboxMatchingResponse) (matching : Matching) :
  matchFound (matchingEndpoint svc (map lonLat processed)) = Some (data, matching) ->
  Server.mapMatching processed n svc
  = ([matchingCall], Returned (Some (matchedResponse data matching processed n))).
Proof.
  unfold matchFound, Server.mapMatching, bind, fetchMatching.
  destruct (matchingEndpoint svc (map lonLat processed)) as [|[isOk code body]];
    [discriminate|].
  simpl. destruct isOk; [|discriminate]. simpl.
  unfold tryCatch, parseJson, bind; simpl. destruct body as [data'|]; [|discriminate].
  simpl. destruct (firstOf (matchings data')) as [matching'|]; [|discriminate].
  intros H. injection H as -> ->. simpl.
  unfold matchedResponse, validTracepointCount.
  destruct (tracepoints data); reflexivity.
Qed.

Lemma directionsFallback_throws (n : nat) :
  directionsThrows
    (directionsEndpoint svc (map lonLat (Server.directionsCoordinatesOf processed))) = true ->
  Server.directionsFallback processed n svc = ([directionsCall], Thrown).
Proof.
  unfold directionsThrows, Server.directionsFallback, bind, fetchDirections.
  destruct (directionsEndpoint svc _) as [|[isOk code body]]; [reflexivity|].
  simpl. destruct isOk; [|discriminate]. simpl.
  unfold parseJson. simpl. destruct body; [discriminate | reflexivity].
Qed.

Lemma POST_matching_rejected :
  matchingEndpoint svc (map lonLat processed) = Rejected ->
  Server.POST getTime token (Server.JsonBody (Some coordinates)) svc
  = ([matchingCall], Returned processingFailure).
Proof.
  intros H. rewrite (@POST_unfold getTime token svc coordinates) by assumption.
  unfold tryCatch. unfold bind at 1.
  rewrite (mapMatching_rejected (length coordinates) H). reflexivity.
Qed.

Lemma POST_matched (data : MapboxMatchingResponse) (matching : Matching) :
  matchFound (matchingEndpoint svc (map lonLat processed)) = Some (data, matching) ->
  Server.POST getTime token (Server.JsonBody (Some coordinates)) svc
  = ([matchingCall], Returned (matchedResponse data matching processed (length coordinates))).
Proof.
  intros H. rewrite (@POST_unfold getTime token svc coordinates) by assumption.
  unfold tryCatch. unfold bind at 1.
  rewrite (mapMatching_matched (length coordinates) H). reflexivity.
Qed.

Lemma POST_directions_throw :
  noUsableMatch (matchingEndpoint svc (map lonLat processed)) = true ->
  directionsThrows
    (directionsEndpoint svc (map lonLat (Server.directionsCoordinatesOf processed))) = true ->
  Server.POST getTime token (Server.JsonBody (Some coordinates)) svc
  = ([matchingCall; directionsCall], Returned processingFailure).
Proof.
  intros Hm Hd.
  rewrite (@POST_after_unusable_match getTime token svc coordinates) by assumption.
  unfold tryCatch, Server.afterMatching. unfold bind at 1.
  rewrite (directionsFallback_throws (length coordinates) Hd). reflexivity.
Qed.

Lemma POST_routed (route : DirectionsRoute) :
  noUsableMatch (matchingEndpoint svc (map lonLat processed)) = true ->
  routeFound
    (directionsEndpoint svc (map lonLat (Server.directionsCoordinatesOf processed)))
  = Some route ->
  Server.POST getTime token (Server.JsonBody (Some coordinates)) svc
  = ([matchingCall; directionsCall],
     Returned (routedResponse route processed (length coordinates))).
Proof.
  intros Hm Hd.
  rewrite (@POST_after_unusable_match getTime token svc coordinates) by assumption.
  unfold tryCatch, Server.afterMatching. unfold bind at 1.
  rewrite (directionsFallback_routed svc processed (length coordinates) Hd).
  reflexivity.
Qed.

Lemma POST_simple :
  noUsableMatch (matchingEndpoint svc (map lonLat processed)) = true ->
  noUsableRoute
    (directionsEndpoint svc (map lonLat (Server.directionsCoordinatesOf processed))) = true ->
  Server.POST getTime token (Server.JsonBody (Some coordinates)) svc
  = ([matchingCall; directionsCall],
     Returned (Server.simpleFallback processed (length coordinates))).
Proof.
  intros Hm Hd.
  rewrite (@POST_after_unusable_match getTime token svc coordinates) by assumption.
  unfold tryCatch, Server.afterMatching. unfold bind at 1.
  rewrite (directionsFallback_falls_through svc processed (length coordinates) Hd).
  reflexivity.
Qed.

(** The six ways a request past the two guards can end. *)
Lemma POST_cases :
  Server.POST getTime token (Server.JsonBody (Some coordinates)) svc
  = ([matchingCall], Returned processingFailure)
  \/ (exists data matching,
        matchFound (matchingEndpoint svc (map lonLat processed)) = Some (data, matching)
        /\ Server.POST getTime token (Server.JsonBody (Some coordinates)) svc
           = ([matchingCall],
              Returned (matchedResponse data matching processed (length coordinates))))
  \/ Server.POST getTime token (Server.JsonBody (Some coordinates)) svc
     = ([matchingCall; directionsCall], Returned processingFailure)
  \/ (exists route,
        Server.POST getTime token (Server.JsonBody (Some coordinates)) svc
        = ([matchingCall; directionsCall],
           Returned (routedResponse route processed (length coordinates))))
  \/ Server.POST getTime token (Server.JsonBody (Some coordinates)) svc
     = ([matchingCall; directionsCall],
        Returned (Server.simpleFallback processed (length coordinates))).
Proof.
  destruct (matching_answer_cases (matchingEndpoint svc (map lonLat processed)))
    as [Hr | [[data [matching Hm]] | Hm]].
  - left. now apply POST_matching_rejected.
  - right; left. exists data, matching. split; [exact Hm | now apply POST_matched].
  - right; right.
    destruct (directions_answer_cases
                (directionsEndpoint svc
                   (map lonLat (Server.directionsCoordinatesOf processed))))
      as [Ht | [[route Hd] | Hd]].
    + left. now apply POST_directions_throw.
    + right; left. exists route. now apply POST_routed.
    + right; right. now apply POST_simple.
Qed.

End HandlerCases.

Lemma directionsCoordinatesOf_length (processed : list Coordinate) :
  2 <= length processed ->
  length (Server.directionsCoordinatesOf processed) = Nat.min (length processed) 25.
Proof.
  intros H. unfold Server.directionsCoordinatesOf.
  destruct (Nat.ltb_spec 25 (length processed)) as [Hgt|Hle]; [|lia].
  rewrite sampleCoordinatesEvenly_length by lia. reflexivity.
Qed.

(** The two guards of the handler, for any token and input. *)
Lemma missing_token_is_fatal_any (getTime : string -> number) (token : option string)
      (coordinates : option (list Coordinate)) (svc : Services) :
  Server.tokenMissing token = true ->
  Server.POST getTime token (Server.JsonBody coordinates) svc
  = ([], Returned (Server.mkHttp 500
                     (Server.ErrorJson "Mapbox access token not configured"))).
Proof.
  intros H. rewrite POST_parsed. unfold Server.afterBody, tryCatch. rewrite H. reflexivity.
Qed.

Lemma short_coordinates_rejected (getTime : string -> number) (token : option string)
      (coordinates : list Coordinate) (svc : Services) :
  Server.tokenMissing token = false ->
  length coordinates < 2 ->
  Server.POST getTime token (Server.JsonBody (Some coordinates)) svc
  = ([], Returned (Server.mkHttp 400
                     (Server.ErrorJson "At least 2 coordinates are required"))).
Proof.
  intros H Hlen. rewrite POST_parsed. unfold Server.afterBody, tryCatch. rewrite H.
  destruct (Nat.ltb_spec (length coordinates) 2); [reflexivity | lia].
Qed.

(** X4. Whatever is submitted and however the two services behave, the
    handler returns a response (nothing escapes the outer catch) after at
    most two requests: none, or the Map Matching request alone, or the Map
    Matching request followed by one Directions request. *)
Theorem handler_always_answers (getTime : string -> number) (token : option string)
        (request : Server.RequestBody) (svc : Services) :
  exists calls response,
    Server.POST getTime token request svc = (calls, Returned response)
    /\ (calls = []
        \/ exists processed,
             calls = [matchingCallFor processed]
             \/ calls = [matchingCallFor processed;
                         DirectionsCall
                           (map lonLat (Server.directionsCoordinatesOf processed))]).
Proof.
  destruct request as [| |coordinates].
  1,2: eexists; eexists; split; [reflexivity | now left].
  destruct (Server.tokenMissing token) eqn:Htoken.
  { rewrite (missing_token_is_fatal_any getTime token coordinates svc Htoken).
    eexists. eexists. split; [reflexivity | now left]. }
  destruct coordinates as [coordinates|].
  2:{ rewrite (missing_coordinates_rejected getTime token svc Htoken).
      eexists. eexists. split; [reflexivity | now left]. }
  destruct (Nat.lt_ge_cases (length coordinates) 2) as [Hshort|Hlen].
  { rewrite (short_coordinates_rejected getTime token coordinates svc Htoken Hshort).
    eexists. eexists. split; [reflexivity | now left]. }
  destruct (@POST_cases getTime token svc coordinates Htoken Hlen)
    as [E | [(data & matching & _ & E) | [E | [[route E] | E]]]];
    rewrite E; eexists; eexists; (split; [reflexivity|]); right;
    exists (Server.processedOf getTime coordinates); auto.
Qed.

(** X5. When the Map Matching endpoint answers with a success status and a
    non-empty [matchings], the handler answers after that single request:
    method ["map-matching"], the geometry, distance and duration of the
    first matching, and as confidence the number of non-null tracepoints
    (none when [tracepoints] is missing) divided by the number of processed
    coordinates. *)
Theorem match_success_answers_at_once (getTime : string -> number) (token : option string)
        (coordinates : list Coordinate) (svc : Services)
        (data : MapboxMatchingResponse) (matching : Matching) :
  Server.tokenMissing token = false ->
  2 <= length coordinates ->
  let processed := Server.processedOf getTime coordinates in
  matchFound (matchingEndpoint svc (map lonLat processed)) = Some (data, matching) ->
  exists result,
    Server.POST getTime token (Server.JsonBody (Some coordinates)) svc
    = ([matchingCallFor processed], Returned (Server.mkHttp 200 (Server.RouteJson result)))
    /\ Server.method result = "map-matching"%string
    /\ Server.geometry result = m_geometry matching
    /\ Server.distance result = Some (m_distance matching)
    /\ Server.duration result = Some (m_duration matching)
    /\ Server.confidence result
       = Some (PrimFloat.div (number_of_nat (validTracepointCount data))
                             (number_of_nat (length processed)))
    /\ Server.processedPoints result = length processed
    /\ Server.originalPoints result = length coordinates.
Proof.
  intros Htoken Hlen processed Hfound.
  rewrite (@POST_matched getTime token svc coordinates Htoken Hlen data matching Hfound).
  eexists. split; [reflexivity|]. repeat split.
Qed.

Lemma match_success_answers_at_once_witness :
  exists result,
    Server.POST Sample.getTime Sample.token (Server.JsonBody (Some Sample.twoFixes)) Fixture.matched
    = ([matchingCallFor Sample.twoFixes],
       Returned (Server.mkHttp 200 (Server.RouteJson result)))
    /\ Server.method result = "map-matching"%string
    /\ Server.confidence result = Some 0.5%float.
Proof.
  destruct (@match_success_answers_at_once Sample.getTime Sample.token Sample.twoFixes
              Fixture.matched
              (mkMatchingResponse
                 (Some [mkMatching Sample.line 10%float 5%float (Some 0.5%float) (Some 1)])
                 (Some [Some (mkTracepoint 0 0 0 0%float); None]))
              (mkMatching Sample.line 10%float 5%float (Some 0.5%float) (Some 1)))
    as (result & E & M & _ & _ & _ & C & _).
  - reflexivity.
  - simpl. lia.
  - reflexivity.
  - exists result. split; [exact E|]. split; [exact M|]. rewrite C. reflexivity.
Defined.

(** X6. A call that throws ends the request with status 500 and the error
    "Failed to process route", without trying the remaining fallbacks: a
    rejected Map Matching request is followed by no Directions request, and
    a Directions request that is rejected, or answered with a success status
    and a body that is not JSON, is not followed by the simple line. *)
Theorem thrown_call_skips_fallbacks (getTime : string -> number) (token : option string)
        (coordinates : list Coordinate) (svc : Services) :
  Server.tokenMissing token = false ->
  2 <= length coordinates ->
  let processed := Server.processedOf getTime coordinates in
  let waypoints := map lonLat (Server.directionsCoordinatesOf processed) in
  (matchingEndpoint svc (map lonLat processed) = Rejected ->
   Server.POST getTime token (Server.JsonBody (Some coordinates)) svc
   = ([matchingCallFor processed], Returned processingFailure))
  /\ (noUsableMatch (matchingEndpoint svc (map lonLat processed)) = true ->
      directionsThrows (directionsEndpoint svc waypoints) = true ->
      Server.POST getTime token (Server.JsonBody (Some coordinates)) svc
      = ([matchingCallFor processed; DirectionsCall waypoints],
         Returned processingFailure)).
Proof.
  intros Htoken Hlen processed waypoints. split.
  - intros H. now apply POST_matching_rejected.
  - intros Hm Hd. now apply POST_directions_throw.
Qed.

Lemma thrown_call_skips_fallbacks_witness :
  Server.POST Sample.getTime Sample.token (Server.JsonBody (Some Sample.twoFixes)) Fixture.unreachable
  = ([matchingCallFor Sample.twoFixes], Returned processingFailure)
  /\ Server.POST Sample.getTime Sample.token (Server.JsonBody (Some Sample.twoFixes))
                 Fixture.directionsGarbled
     = ([matchingCallFor Sample.twoFixes; DirectionsCall (map lonLat Sample.twoFixes)],
        Returned processingFailure).
Proof.
  split.
  - apply (@thrown_call_skips_fallbacks Sample.getTime Sample.token Sample.twoFixes
             Fixture.unreachable); [reflexivity | simpl; lia | reflexivity].
  - apply (@thrown_call_skips_fallbacks Sample.getTime Sample.token Sample.twoFixes
             Fixture.directionsGarbled); [reflexivity | simpl; lia | reflexivity | reflexivity].
Defined.

(** X7. The Directions request of the handler carries [min p 25] waypoints,
    [p] being the number of processed coordinates, and a route it returns is
    reported with method ["directions"], that number as [processedPoints]
    and the number of submitted coordinates as [originalPoints]. *)
Theorem directions_waypoints_capped (getTime : string -> number) (token : option string)
        (coordinates : list Coordinate) (svc : Services) (route : DirectionsRoute) :
  Server.tokenMissing token = false ->
  2 <= length coordinates ->
  let processed := Server.processedOf getTime coordinates in
  let waypoints := map lonLat (Server.directionsCoordinatesOf processed) in
  noUsableMatch (matchingEndpoint svc (map lonLat processed)) = true ->
  routeFound (directionsEndpoint svc waypoints) = Some route ->
  exists result,
    Server.POST getTime token (Server.JsonBody (Some coordinates)) svc
    = ([matchingCallFor processed; DirectionsCall waypoints],
       Returned (Server.mkHttp 200 (Server.RouteJson result)))
    /\ length waypoints = Nat.min (length processed) 25
    /\ Server.method result = "directions"%string
    /\ Server.geometry result = r_geometry route
    /\ Server.processedPoints result = Nat.min (length processed) 25
    /\ Server.originalPoints result = length coordinates.
Proof.
  intros Htoken Hlen processed waypoints Hm Hd.
  rewrite (@POST_routed getTime token svc coordinates Htoken Hlen route Hm Hd).
  pose proof (length_processedOf getTime coordinates Hlen) as Hp.
  eexists. split; [reflexivity|].
  split; [unfold waypoints; rewrite length_map;
          apply directionsCoordinatesOf_length; apply Hp|].
  split; [reflexivity|]. split; [reflexivity|].
  split; [simpl; apply directionsCoordinatesOf_length; apply Hp | reflexivity].
Qed.

Lemma directions_waypoints_capped_witness :
  exists result,
    Server.POST Sample.getTime Sample.token (Server.JsonBody (Some Sample.simultaneous)) Sample.onlyDirections
    = ([matchingCallFor Sample.simultaneous;
        DirectionsCall (map lonLat (Server.directionsCoordinatesOf Sample.simultaneous))],
       Returned (Server.mkHttp 200 (Server.RouteJson result)))
    /\ Server.processedPoints result = 25
    /\ Server.originalPoints result = 101.
Proof.
  destruct (@directions_waypoints_capped Sample.getTime Sample.token Sample.simultaneous
              Sample.onlyDirections (mkRoute Sample.line 10%float 5%float))
    as (result & E & _ & _ & _ & P & O).
  - reflexivity.
  - vm_compute. lia.
  - reflexivity.
  - reflexivity.
  - exists result. split; [|split].
    + rewrite E. vm_compute. reflexivity.
    + rewrite P. vm_compute. reflexivity.
    + rewrite O. vm_compute. reflexivity.
Defined.

(** X8. Every answer of the handler with status 200 is a route whose
    [originalPoints] is the number of submitted coordinates and whose
    [processedPoints] lies between 2 and that number; its method is
    ["map-matching"], ["directions"] or ["simple"], and it carries a
    confidence exactly when the method is ["map-matching"]. *)
Theorem route_answer_invariants (getTime : string -> number) (token : option string)
        (coordinates : list Coordinate) (svc : Services)
        (calls : list Call) (response : Server.HttpResponse) :
  Server.POST getTime token (Server.JsonBody (Some coordinates)) svc = (calls, Returned response) ->
  Server.status response = 200 ->
  exists result,
    Server.json response = Server.RouteJson result
    /\ Server.originalPoints result = length coordinates
    /\ 2 <= Server.processedPoints result <= Server.originalPoints result
    /\ (Server.method result = "map-matching"%string
        \/ Server.method result = "directions"%string
        \/ Server.method result = "simple"%string)
    /\ (Server.confidence result <> None <-> Server.method result = "map-matching"%string).
Proof.
  intros E Hstatus.
  destruct (Server.tokenMissing token) eqn:Htoken.
  { rewrite (missing_token_is_fatal_any getTime token (Some coordinates) svc Htoken) in E.
    injection E as _ <-. discriminate. }
  destruct (Nat.lt_ge_cases (length coordinates) 2) as [Hshort|Hlen].
  { rewrite (short_coordinates_rejected getTime token coordinates svc Htoken Hshort) in E.
    injection E as _ <-. discriminate. }
  pose proof (length_processedOf getTime coordinates Hlen) as Hp.
  destruct (@POST_cases getTime token svc coordinates Htoken Hlen)
    as [E' | [(data & matching & _ & E') | [E' | [[route E'] | E']]]];
    rewrite E' in E; injection E as _ <-; try discriminate.
  - eexists. split; [reflexivity|]. simpl.
    split; [reflexivity|]. split; [lia|]. split; [now left|].
    split; [reflexivity | discriminate].
  - eexists. split; [reflexivity|]. simpl.
    rewrite directionsCoordinatesOf_length by apply Hp.
    split; [reflexivity|]. split; [lia|]. split; [right; now left|].
    split; [intros H; now contradiction H | discriminate].
  - eexists. split; [reflexivity|]. simpl.
    rewrite simpleCoordinatesOf_length by apply Hp.
    split; [reflexivity|]. split; [lia|]. split; [right; now right|].
    split; [intros H; now contradiction H | discriminate].
Qed.

Lemma route_answer_invariants_witness :
  exists result,
    Server.originalPoints result = 101
    /\ 2 <= Server.processedPoints result <= 101
    /\ Server.method result = "simple"%string.
Proof.
  destruct (@route_answer_invariants Sample.getTime Sample.token Sample.clustered
              Sample.bothRefuse
              (fst (Server.POST Sample.getTime Sample.token (Server.JsonBody (Some Sample.clustered))
                                Sample.bothRefuse))
              (Server.simpleFallback
                 (Server.processedOf Sample.getTime Sample.clustered) 101))
    as (result & J & O & P & _ & _).
  - vm_compute. reflexivity.
  - reflexivity.
  - exists result. split; [exact O|]. split; [rewrite O in P; exact P|].
    vm_compute in J. injection J as <-. reflexivity.
Defined.

(** X9. For at least two submitted coordinates (fewer than 2^32, as every
    JavaScript array), what the handler sends to Map Matching, what it sends
    to Directions and what it joins into the simple line are each a
    subsequence of the sorted input with at least two elements, beginning
    with its first and ending with its last coordinate. *)
Theorem pipeline_selects_from_sorted_input (getTime : string -> number)
        (coordinates : list Coordinate) :
  2 <= length coordinates ->
  (Z.of_nat (length coordinates) < 2 ^ 32)%Z ->
  let sortedCoordinates := sortCoordinates getTime coordinates in
  let processed := Server.processedOf getTime coordinates in
  Forall (fun selection =>
            Subsequence selection sortedCoordinates
            /\ 2 <= length selection
            /\ forall d, hd d selection = hd d sortedCoordinates
                         /\ last selection d = last sortedCoordinates d)
         [processed;
          Server.directionsCoordinatesOf processed;
          Server.simpleCoordinatesOf processed].
Proof.
  intros Hlen Hsize sortedCoordinates processed.
  assert (Hs : 2 <= length sortedCoordinates)
    by (unfold sortedCoordinates; now rewrite length_sortCoordinates).
  pose proof (length_processedOf getTime coordinates Hlen) as Hp. fold processed in Hp.
  assert (Hprocessed : Subsequence processed sortedCoordinates
                       /\ forall d, hd d processed = hd d sortedCoordinates
                                    /\ last processed d = last sortedCoordinates d).
  { split.
    - unfold processed, Server.processedOf, processCoordinates.
      destruct (Server.maxCoordinates <? _);
        [now apply timeBasedSampling_subsequence | apply Subsequence_refl].
    - intros d. unfold processed, Server.processedOf. fold sortedCoordinates.
      destruct sortedCoordinates as [|first rest]; [simpl in Hs; lia|].
      unfold processCoordinates.
      destruct (Server.maxCoordinates <? _); [|split; reflexivity].
      destruct (timeBasedSampling_shape getTime Server.maxCoordinates first rest)
        as [interior [-> _]].
      split; [reflexivity|].
      change (first :: interior ++ [last (first :: rest) first])
        with ((first :: interior) ++ [last (first :: rest) first]).
      rewrite last_last. apply last_indep. discriminate. }
  destruct Hprocessed as [Hsub Hends].
  assert (Hstride : forall target, 2 <= target ->
             let selection := if target <? length processed
                              then sampleCoordinatesEvenly processed target
                              else processed in
             Subsequence selection sortedCoordinates
             /\ 2 <= length selection
             /\ forall d, hd d selection = hd d sortedCoordinates
                          /\ last selection d = last sortedCoordinates d).
  { intros target Ht selection. subst selection.
    destruct (Nat.ltb_spec target (length processed)) as [Hgt|Hle].
    - split; [eapply Subsequence_trans;
               [apply stride_subsequence; lia | exact Hsub]|].
      split.
      + rewrite sampleCoordinatesEvenly_length by lia. lia.
      + intros d. rewrite stride_head, stride_last by lia. apply Hends.
    - split; [exact Hsub|]. split; [lia | exact Hends]. }
  constructor; [split; [exact Hsub | split; [lia | exact Hends]]|].
  constructor; [apply (Hstride 25); lia|].
  constructor; [apply (Hstride 50); lia | constructor].
Qed.

Lemma pipeline_selects_from_sorted_input_witness :
  Subsequence (Server.simpleCoordinatesOf (Server.processedOf Sample.getTime Sample.simultaneous))
              (sortCoordinates Sample.getTime Sample.simultaneous).
Proof.
  pose proof (@pipeline_selects_from_sorted_input Sample.getTime Sample.simultaneous) as H.
  cbv zeta in H. specialize (H ltac:(vm_compute; lia) ltac:(vm_compute; reflexivity)).
  apply Forall_inv_tail, Forall_inv_tail, Forall_inv in H. apply H.
Defined.

(** ** The client cascade, request by request *)

Section ClientRequests.

Variable svc : Services.

Lemma performMapMatching_short (coordinates : list Coordinate) :
  length coordinates < 2 ->
  Client.performMapMatching coordinates svc = ([], Returned None).
Proof.
  intros H. unfold Client.performMapMatching.
  destruct (Nat.ltb_spec (length coordinates) 2); [reflexivity | lia].
Qed.

Lemma performMapMatching_answer (coordinates : list Coordinate) :
  2 <= length coordinates ->
  Client.performMapMatching coordinates svc
  = ([matchingCallFor coordinates],
     Returned
       match matchFound (matchingEndpoint svc (map lonLat coordinates)) with
       | Some (_, matching) =>
           Some {| Client.geometry := m_geometry matching;
                   Client.method := "map-matching";
                   Client.confidence := Client.orNumber (m_confidence matching) 0.8%float;
                   Client.processedPoints :=
                     match m_legs matching with Some n => n | None => 0 end;
                   Client.originalPoints := length coordinates |}
       | None => None
       end).
Proof.
  intros H. unfold Client.performMapMatching, matchingCallFor, matchFound.
  destruct (Nat.ltb_spec (length coordinates) 2); [lia|].
  unfold tryCatch, bind, fetchMatching.
  destruct (matchingEndpoint svc (map lonLat coordinates)) as [|[isOk code body]]; simpl.
  - reflexivity.
  - destruct isOk; simpl; [|reflexivity].
    unfold parseJson; simpl. destruct body as [data|]; simpl; [|reflexivity].
    destruct (firstOf (matchings data)); reflexivity.
Qed.

Lemma orNumber_truthy (x : option number) :
  truthy_number (Client.orNumber x 0.8%float) = true.
Proof.
  unfold Client.orNumber. destruct x as [v|]; [|reflexivity].
  destruct (truthy_number v) eqn:E; [exact E | reflexivity].
Qed.

End ClientRequests.

(** X10. Single-request map matching of the component never throws.  With
    fewer than two coordinates it resolves to null without a request.
    Otherwise it issues exactly one Map Matching request and resolves to a
    result exactly when the answer has a success status and a non-empty
    [matchings]; that result has method ["map-matching"], the number of
    coordinates as [originalPoints], and a confidence that is never [0] or
    [NaN] (0.8 stands in for a missing or falsy one). *)
Theorem single_request_matching (svc : Services) (coordinates : list Coordinate) :
  exists calls answer,
    Client.performMapMatching coordinates svc = (calls, Returned answer)
    /\ (length coordinates < 2 -> calls = [] /\ answer = None)
    /\ (2 <= length coordinates ->
        calls = [matchingCallFor coordinates]
        /\ (answer = None
            <-> matchFound (matchingEndpoint svc (map lonLat coordinates)) = None))
    /\ (forall result,
          answer = Some result ->
          Client.method result = "map-matching"%string
          /\ Client.originalPoints result = length coordinates
          /\ truthy_number (Client.confidence result) = true).
Proof.
  destruct (Nat.lt_ge_cases (length coordinates) 2) as [Hshort|Hlen].
  - rewrite performMapMatching_short by assumption.
    exists [], None. split; [reflexivity|]. split; [auto|]. split; [lia|].
    intros result H. discriminate.
  - rewrite performMapMatching_answer by assumption.
    eexists. eexists. split; [reflexivity|]. split; [lia|]. split.
    + intros _. split; [reflexivity|].
      destruct (matchFound _) as [[data matching]|]; split; (discriminate || reflexivity).
    + intros result H.
      destruct (matchFound _) as [[data matching]|]; [|discriminate].
      injection H as <-. simpl. split; [reflexivity|]. split; [reflexivity|].
      apply orNumber_truthy.
Qed.

(** ** The waypoints of the client's Directions request *)

Lemma waypointLoop_reads (step : nat) (coordinates : list Coordinate) (d : Coordinate) :
  forall fuel i,
    Client.waypointLoop step fuel i coordinates d
    = map (fun k => nth k coordinates d) (waypointIndices step fuel i (length coordinates)).
Proof.
  induction fuel as [|fuel IH]; intros i; [reflexivity|].
  cbn [Client.waypointLoop waypointIndices].
  destruct (i <? length coordinates - 1); [|reflexivity].
  cbn [map]. now rewrite IH.
Qed.

Lemma waypointIndices_bounds (step len : nat) :
  forall fuel i,
    Forall (fun k => i <= k /\ k < len - 1) (waypointIndices step fuel i len).
Proof.
  induction fuel as [|fuel IH]; intros i; [constructor|].
  cbn [waypointIndices]. destruct (Nat.ltb_spec i (len - 1)); [|constructor].
  constructor; [lia|].
  eapply Forall_impl; [|apply (IH (i + step))]. simpl. intros k Hk. lia.
Qed.

Lemma waypointIndices_increasing (step len : nat) :
  1 <= step ->
  forall fuel i, StronglySorted lt (waypointIndices step fuel i len).
Proof.
  intros Hstep. induction fuel as [|fuel IH]; intros i; [constructor|].
  cbn [waypointIndices]. destruct (i <? len - 1); [|constructor].
  constructor; [apply IH|].
  eapply Forall_impl; [|apply (waypointIndices_bounds step len fuel (i + step))].
  simpl. intros k Hk. lia.
Qed.

(** The last index read stays below [len - 1]. *)
Lemma waypointIndices_count (step len : nat) :
  forall fuel i,
    let count := length (waypointIndices step fuel i len) in
    count = 0 \/ i + (count - 1) * step < len - 1.
Proof.
  induction fuel as [|fuel IH]; intros i; [now left|].
  cbn [waypointIndices]. destruct (Nat.ltb_spec i (len - 1)); [|now left].
  right. cbn [length]. specialize (IH (i + step)). cbv zeta in IH.
  destruct IH as [-> | IH]; [simpl; lia|].
  set (c := length _) in *. destruct c as [|c]; [simpl; lia|].
  simpl in *. rewrite Nat.sub_0_r in *. lia.
Qed.

(** The loop bound of [waypointsOf] never cuts the loop short. *)
Lemma waypointIndices_fuel (step len extra : nat) :
  1 <= step ->
  forall fuel i,
    len - 1 - i <= fuel ->
    waypointIndices step (fuel + extra) i len = waypointIndices step fuel i len.
Proof.
  intros Hstep. induction fuel as [|fuel IH]; intros i Hfuel.
  - destruct extra; [reflexivity|]. cbn [Nat.add waypointIndices].
    destruct (Nat.ltb_spec i (len - 1)); [lia | reflexivity].
  - cbn [Nat.add waypointIndices]. destruct (i <? len - 1); [|reflexivity].
    rewrite IH by lia. reflexivity.
Qed.

(** The interior indices of [waypointsOf]. *)
Lemma interior_waypoints (len : nat) :
  let step := Nat.max 1 (len / 23) in
  let interior := if 2 <? len then waypointIndices step len step len else [] in
  StronglySorted lt interior
  /\ Forall (fun k => 1 <= k /\ k < len - 1) interior
  /\ length interior <= len - 2
  /\ length interior <= 43.
Proof.
  intros step interior.
  assert (Hstep : 1 <= step) by (subst step; lia).
  subst interior. destruct (2 <? len).
  2:{ split; [constructor|]. split; [constructor|]. simpl. lia. }
  split; [now apply waypointIndices_increasing|].
  split.
  { eapply Forall_impl; [|apply (waypointIndices_bounds step len len step)].
    simpl. intros k Hk. lia. }
  pose proof (waypointIndices_count step len len step) as Hc. cbv zeta in Hc.
  set (c := length _) in *.
  assert (Hprod : c = 0 \/ c * step <= len - 2).
  { destruct Hc as [Hc|Hc]; [now left | right].
    destruct c as [|c]; [lia|]. simpl in *. rewrite Nat.sub_0_r in Hc. lia. }
  split.
  - destruct Hprod as [->|Hprod]; [lia | nia].
  - destruct Hprod as [->|Hprod]; [lia|].
    pose proof (Nat.div_mod_eq len 23) as Hdiv.
    pose proof (Nat.mod_upper_bound len 23 ltac:(lia)) as Hmod.
    set (q := len / 23) in *.
    destruct (Nat.le_gt_cases q 1) as [Hq|Hq].
    + assert (step = 1) by (subst step; lia). nia.
    + assert (step = q) by (subst step; lia). nia.
Qed.

(** X11. The waypoints the component sends to the Directions endpoint for at
    least two coordinates are a subsequence of the coordinates that starts
    with the first and ends with the last one, and there are at most
    [min len 45] of them (not 25: the stride is [max 1 (floor (len / 23))]). *)
Theorem client_waypoints_selection (coordinates : list Coordinate) :
  2 <= length coordinates ->
  let waypoints := Client.waypointsOf coordinates in
  Subsequence waypoints coordinates
  /\ (forall d, hd d waypoints = hd d coordinates
                /\ last waypoints d = last coordinates d)
  /\ 2 <= length waypoints <= Nat.min (length coordinates) 45.
Proof.
  intros Hlen waypoints.
  destruct coordinates as [|first rest]; [simpl in Hlen; lia|].
  subst waypoints. unfold Client.waypointsOf. cbv beta iota zeta.
  set (l := first :: rest) in *. set (len := length l) in *.
  destruct (interior_waypoints len) as (Hsorted & Hbounds & Hcount & Hcap).
  cbv zeta in Hsorted, Hbounds, Hcount, Hcap.
  set (interior := if 2 <? len then waypointIndices _ _ _ _ else []) in *.
  assert (E : first
                :: (if 2 <? len
                    then Client.waypointLoop (Nat.max 1 (len / 23)) len
                                             (Nat.max 1 (len / 23)) l first
                    else [])
                ++ [nth (len - 1) l first]
              = map (fun k => nth k l first) (0 :: interior ++ [len - 1])).
  { cbn [map]. rewrite map_app. cbn [map]. f_equal. f_equal. subst interior.
    destruct (2 <? len); [apply waypointLoop_reads | reflexivity]. }
  rewrite E. clear E. split; [|split].
  - apply Subsequence_nth.
    + constructor.
      * apply StronglySorted_snoc; [assumption|].
        eapply Forall_impl; [|exact Hbounds]. cbv beta. intros k Hk. lia.
      * apply Forall_app. split.
        -- eapply Forall_impl; [|exact Hbounds]. cbv beta. intros k Hk. lia.
        -- constructor; [lia | constructor].
    + fold len. constructor; [lia|]. apply Forall_app. split.
      * eapply Forall_impl; [|exact Hbounds]. cbv beta. intros k Hk. lia.
      * constructor; [lia | constructor].
  - intros d. split; [reflexivity|].
    cbn [map]. rewrite map_app. cbn [map].
    change (nth 0 l first :: map (fun k => nth k l first) interior
              ++ [nth (len - 1) l first])
      with ((nth 0 l first :: map (fun k => nth k l first) interior)
              ++ [nth (len - 1) l first]).
    rewrite last_last. unfold len. rewrite <- last_is_nth.
    apply last_indep. discriminate.
  - rewrite length_map. cbn [length]. rewrite length_app. cbn [length]. fold len. lia.
Qed.

Lemma client_waypoints_selection_witness :
  Subsequence (Client.waypointsOf Fixture.fortyFive) Fixture.fortyFive
  /\ length (Client.waypointsOf Fixture.fortyFive) = 45.
Proof.
  destruct (@client_waypoints_selection Fixture.fortyFive) as (A & _ & _).
  - vm_compute. lia.
  - split; [exact A | vm_compute; reflexivity].
Defined.

(** ** Merging the batches *)

Section BatchMerge.

Variable svc : Services.

Lemma batchAnswer_eq (batch : list Coordinate) (calls : list Call)
      (answer : option Client.MapMatchingResponse) :
  Client.performMapMatching batch svc = (calls, Returned answer) ->
  batchAnswer svc batch = answer.
Proof. intros H. unfold batchAnswer. now rewrite H. Qed.

Lemma allSettled_results (batches : list (list Coordinate)) :
  Forall (fun batch => 2 <= length batch) batches ->
  Client.allSettled Client.performMapMatching batches svc
  = (map matchingCallFor batches, Returned (map (batchAnswer svc) batches)).
Proof.
  induction 1 as [|batch batches Hb _ IH]; [reflexivity|].
  cbn [Client.allSettled map]. unfold bind at 1.
  pose proof (performMapMatching_answer svc batch Hb) as E.
  rewrite (batchAnswer_eq _ E). rewrite E.
  unfold bind at 1. rewrite IH. simpl. rewrite app_nil_r. reflexivity.
Qed.

Lemma successes_none (A : Type) (results : list (option A)) :
  Client.successes results = [] <-> Forall (fun r => r = None) results.
Proof.
  unfold Client.successes. induction results as [|[a|] rs IH]; simpl.
  - split; constructor.
  - split; [discriminate | intros H; inversion H; discriminate].
  - rewrite IH. split; [now constructor | intros H; now inversion H].
Qed.

Lemma successes_vertices (batches : list (list Coordinate)) :
  flat_map (fun result => coordinates_of (Client.geometry result))
           (Client.successes (map (batchAnswer svc) batches))
  = flat_map (batchVertices svc) batches.
Proof.
  unfold Client.successes, batchVertices.
  induction batches as [|batch batches IH]; [reflexivity|].
  cbn [map flat_map]. rewrite flat_map_app, IH.
  destruct (batchAnswer svc batch); simpl; [now rewrite app_nil_r | reflexivity].
Qed.

Lemma splitBatches_min_size (coordinates : list Coordinate) :
  Forall (fun batch => 2 <= length batch)
         (Client.splitBatches Client.maxPointsPerRequest coordinates).
Proof.
  pose proof (@batchLoop_sizes Client.maxPointsPerRequest
                ltac:(unfold Client.maxPointsPerRequest; lia)
                (length coordinates) 0 coordinates) as Hs.
  eapply Forall_impl; [|exact Hs]. cbv beta. intros batch Hb. lia.
Qed.

End BatchMerge.

Lemma batch_matching_facts (svc : Services) (coordinates : list Coordinate) :
  2 <= length coordinates ->
  exists answer,
    Client.performBatchMapMatching coordinates svc
    = (map matchingCallFor (Client.splitBatches Client.maxPointsPerRequest coordinates),
       Returned answer)
    /\ (forall result,
          answer = Some result ->
          Client.method result = "map-matching"%string
          /\ Client.originalPoints result = length coordinates).
Proof.
  intros Hlen. unfold Client.performBatchMapMatching.
  destruct (Nat.ltb_spec (length coordinates) 2); [lia|].
  pose proof (allSettled_results svc (splitBatches_min_size coordinates)) as E.
  destruct (Client.splitBatches Client.maxPointsPerRequest coordinates)
    as [|batch rest] eqn:Eb.
  - exists None. split; [reflexivity|]. intros r Hr. discriminate.
  - unfold tryCatch. unfold bind at 1. rewrite E.
    destruct (Client.successes _) as [|first others].
    + exists None. simpl. rewrite app_nil_r. split; [reflexivity|].
      intros r Hr. discriminate.
    + eexists. simpl. rewrite app_nil_r. split; [reflexivity|].
      intros result Hr. injection Hr as <-. split; reflexivity.
Qed.

(** X12. Batch map matching of at least two coordinates never throws and
    issues one request per batch, whatever the earlier answers.  It resolves
    to null exactly when no batch request yields a match; otherwise to a
    result with method ["map-matching"], the number of coordinates as
    [originalPoints], and as geometry the vertices of the successful batches
    joined in batch order, a failed batch contributing none. *)
Theorem batch_matching_merges (svc : Services) (coordinates : list Coordinate) :
  2 <= length coordinates ->
  let batches := Client.splitBatches Client.maxPointsPerRequest coordinates in
  exists answer,
    Client.performBatchMapMatching coordinates svc
    = (map matchingCallFor batches, Returned answer)
    /\ (answer = None <-> Forall (fun batch => batchAnswer svc batch = None) batches)
    /\ (forall result,
          answer = Some result ->
          Client.method result = "map-matching"%string
          /\ Client.originalPoints result = length coordinates
          /\ coordinates_of (Client.geometry result) = flat_map (batchVertices svc) batches).
Proof.
  intros Hlen batches. unfold Client.performBatchMapMatching.
  destruct (Nat.ltb_spec (length coordinates) 2); [lia|].
  pose proof (allSettled_results svc (splitBatches_min_size coordinates)) as E.
  pose proof (successes_vertices svc batches) as V.
  pose proof (successes_none (map (batchAnswer svc) batches)) as N.
  rewrite Forall_map in N.
  fold batches in E. fold batches.
  destruct batches as [|batch rest] eqn:Eb.
  - exists None. split; [reflexivity|]. split; [split; auto|]. intros r Hr. discriminate.
  - unfold tryCatch. unfold bind at 1. rewrite E.
    destruct (Client.successes (map (batchAnswer svc) (batch :: rest)))
      as [|first others] eqn:Es.
    + exists None. simpl. rewrite app_nil_r. split; [reflexivity|].
      split; [split; [intros _; now apply N | reflexivity]|].
      intros r Hr. discriminate.
    + eexists. simpl. rewrite app_nil_r. split; [reflexivity|]. split.
      * split; [discriminate|]. intros Hall. apply N in Hall. discriminate.
      * intros result Hr. injection Hr as <-. simpl.
        split; [reflexivity|]. split; [reflexivity|]. exact V.
Qed.

Lemma batch_matching_merges_witness :
  exists answer,
    Client.performBatchMapMatching Sample.clustered Sample.bothRefuse
    = ([matchingCallFor (firstn 100 Sample.clustered)], Returned answer)
    /\ answer = None.
Proof.
  destruct (@batch_matching_merges Sample.bothRefuse Sample.clustered) as (answer & E & N & _).
  - vm_compute. lia.
  - exists answer. split; [rewrite E; vm_compute; reflexivity|].
    apply N. vm_compute. repeat constructor.
Defined.

(** ** The route effect *)

Lemma performDirectionsMatching_answer (svc : Services) (coordinates : list Coordinate) :
  2 <= length coordinates ->
  Client.performDirectionsMatching coordinates svc
  = ([DirectionsCall (map lonLat (Client.waypointsOf coordinates))],
     Returned
       match routeFound (directionsEndpoint svc
                           (map lonLat (Client.waypointsOf coordinates))) with
       | Some route =>
           Some {| Client.geometry := r_geometry route;
                   Client.method := "directions";
                   Client.confidence := 0.9%float;
                   Client.processedPoints := length (Client.waypointsOf coordinates);
                   Client.originalPoints := length coordinates |}
       | None => None
       end).
Proof.
  intros H. unfold Client.performDirectionsMatching, routeFound.
  destruct (Nat.ltb_spec (length coordinates) 2); [lia|].
  unfold tryCatch, bind, fetchDirections.
  destruct (directionsEndpoint svc _) as [|[isOk code body]]; simpl.
  - reflexivity.
  - destruct isOk; simpl; [|reflexivity].
    unfold parseJson; simpl. destruct body as [data|]; simpl; [|reflexivity].
    destruct (firstOf (routes data)); reflexivity.
Qed.

Lemma performDirectionsMatching_short (svc : Services) (coordinates : list Coordinate) :
  length coordinates < 2 ->
  Client.performDirectionsMatching coordinates svc = ([], Returned None).
Proof.
  intros H. unfold Client.performDirectionsMatching.
  destruct (Nat.ltb_spec (length coordinates) 2); [reflexivity | lia].
Qed.

(** X13. The route effect of the map component never throws.  It issues no
    request when there are fewer than two coordinates or when the page
    already holds a route.  For 2 to 100 coordinates it issues the Map
    Matching request and, only if that yields no match, one Directions
    request.  A route it produces has method ["map-matching"], or
    ["directions"] with confidence 0.9, never ["simple"], and the number of
    coordinates as [originalPoints]. *)
Theorem route_effect_cascade (svc : Services) (coordinates : list Coordinate)
        (routeData : bool) :
  exists calls answer,
    routeEffect coordinates routeData svc = (calls, Returned answer)
    /\ (length coordinates < 2 \/ routeData = true -> calls = [] /\ answer = None)
    /\ (2 <= length coordinates <= 100 -> routeData = false ->
        (calls = [matchingCallFor coordinates]
         /\ matchFound (matchingEndpoint svc (map lonLat coordinates)) <> None)
        \/ (calls = [matchingCallFor coordinates;
                     DirectionsCall (map lonLat (Client.waypointsOf coordinates))]
            /\ matchFound (matchingEndpoint svc (map lonLat coordinates)) = None))
    /\ (forall result,
          answer = Some result ->
          (Client.method result = "map-matching"%string
           \/ (Client.method result = "directions"%string
               /\ Client.confidence result = 0.9%float))
          /\ Client.originalPoints result = length coordinates).
Proof.
  unfold routeEffect.
  destruct (Nat.leb_spec 2 (length coordinates)) as [Hlen|Hshort]; simpl.
  2:{ exists [], None. split; [reflexivity|]. split; [auto|]. split; [lia|].
      intros r Hr. discriminate. }
  destruct routeData; simpl.
  { exists [], None. split; [reflexivity|]. split; [auto|].
    split; [intros _ H; discriminate|]. intros r Hr. discriminate. }
  unfold Client.processRoute.
  pose proof (performDirectionsMatching_answer svc coordinates Hlen) as Ed.
  destruct (Nat.leb_spec (length coordinates) 100) as [Hsmall|Hlarge].
  - unfold bind at 1. rewrite (performMapMatching_answer svc coordinates Hlen).
    destruct (matchFound _) as [[data matching]|] eqn:Em.
    + eexists. eexists. simpl. split; [reflexivity|].
      split; [intros [H|H]; [lia | discriminate]|].
      split; [intros _ _; left; split; [reflexivity | discriminate]|].
      intros r Hr. injection Hr as <-. simpl. split; [now left | reflexivity].
    + rewrite Ed. eexists. eexists. simpl. split; [reflexivity|].
      split; [intros [H|H]; [lia | discriminate]|].
      split; [intros _ _; right; split; reflexivity|].
      intros r Hr. destruct (routeFound _) as [route|]; [|discriminate].
      injection Hr as <-. simpl. split; [right; split; reflexivity | reflexivity].
  - destruct (@batch_matching_facts svc coordinates Hlen) as (answer & Eb & Hr).
    unfold bind at 1. rewrite Eb.
    destruct answer as [merged|].
    + eexists. eexists. simpl. split; [reflexivity|].
      split; [intros [H|H]; [lia | discriminate]|]. split; [lia|].
      intros r Er. injection Er as <-. destruct (Hr merged eq_refl) as [M O].
      split; [now left | exact O].
    + rewrite Ed. eexists. eexists. simpl. split; [reflexivity|].
      split; [intros [H|H]; [lia | discriminate]|]. split; [lia|].
      intros r Er. destruct (routeFound _) as [route|]; [|discriminate].
      injection Er as <-. simpl. split; [right; split; reflexivity | reflexivity].
Qed.

(** ** Uploaded files *)

Lemma inRange_spec (lat lng : number) :
  Upload.inRange lat lng = true ->
  isNaN lat = false /\ isNaN lng = false
  /\ PrimFloat.leb (-90)%float lat = true /\ PrimFloat.leb lat 90%float = true
  /\ PrimFloat.leb (-180)%float lng = true /\ PrimFloat.leb lng 180%float = true.
Proof.
  unfold Upload.inRange. intros H.
  apply andb_prop in H. destruct H as [H H4].
  apply andb_prop in H. destruct H as [H H3].
  apply andb_prop in H. destruct H as [H1 H2].
  destruct (leb_true_not_nan H1) as [_ Hlat].
  destruct (leb_true_not_nan H3) as [_ Hlng].
  repeat split; assumption.
Qed.

Lemma filter_keeps_all (A : Type) (f : A -> bool) (l : list A) :
  length (filter f l) = length l -> filter f l = l.
Proof.
  induction l as [|x l IH]; [reflexivity|]. simpl.
  pose proof (Subsequence_length (Subsequence_filter f l)) as Hle.
  destruct (f x); simpl; intros H.
  - f_equal. apply IH. lia.
  - lia.
Qed.

(** X14. The validation of an upload keeps exactly the coordinates with
    latitude in [-90, 90] and longitude in [-180, 180], in their order; a
    [NaN] never passes.  What is handed to the page is never empty, the
    success message counts it, and a "skipped" message appears exactly when
    something was dropped, with the number dropped.  An empty list and a
    list without any valid coordinate fail with their own errors. *)
Theorem upload_validation (A : Type) (lat lng : A -> number) (coordinates : list A) :
  (forall accepted,
      Upload.validate lat lng coordinates = inr accepted ->
      Upload.uploaded accepted <> []
      /\ Upload.uploaded accepted
         = filter (fun c => Upload.inRange (lat c) (lng c)) coordinates
      /\ Subsequence (Upload.uploaded accepted) coordinates
      /\ Forall (fun c => isNaN (lat c) = false /\ isNaN (lng c) = false
                          /\ PrimFloat.leb (-90)%float (lat c) = true
                          /\ PrimFloat.leb (lat c) 90%float = true
                          /\ PrimFloat.leb (-180)%float (lng c) = true
                          /\ PrimFloat.leb (lng c) 180%float = true)
                (Upload.uploaded accepted)
      /\ Upload.loaded accepted = length (Upload.uploaded accepted)
      /\ match Upload.skipped accepted with
         | Some dropped =>
             0 < dropped
             /\ dropped + length (Upload.uploaded accepted) = length coordinates
         | None => Upload.uploaded accepted = coordinates
         end)
  /\ (forall failure,
        Upload.validate lat lng coordinates = inl failure ->
        (coordinates = [] /\ failure = Upload.NoCoordinatesInFile)
        \/ (coordinates <> [] /\ failure = Upload.NoValidCoordinates
            /\ Forall (fun c => Upload.inRange (lat c) (lng c) = false) coordinates)).
Proof.
  unfold Upload.validate.
  set (valid := filter (fun c => Upload.inRange (lat c) (lng c)) coordinates).
  pose proof (Subsequence_filter (fun c => Upload.inRange (lat c) (lng c)) coordinates)
    as Hsub. fold valid in Hsub.
  pose proof (Subsequence_length Hsub) as Hle.
  destruct (Nat.eqb_spec (length coordinates) 0) as [Hempty|Hsome].
  { split; [intros accepted H; discriminate|].
    intros failure H. injection H as <-. left.
    split; [now apply length_zero_iff_nil | reflexivity]. }
  destruct (Nat.eqb_spec (length valid) 0) as [Hnone|Hvalid].
  { split; [intros accepted H; discriminate|].
    intros failure H. injection H as <-. right.
    split; [intros E; rewrite E in Hsome; contradiction|]. split; [reflexivity|].
    apply length_zero_iff_nil in Hnone. apply Forall_forall. intros c Hc.
    destruct (Upload.inRange (lat c) (lng c)) eqn:E; [|reflexivity].
    assert (Hin : In c valid) by (apply filter_In; split; assumption).
    rewrite Hnone in Hin. contradiction. }
  split; [|intros failure H; discriminate].
  intros accepted H. injection H as <-. simpl.
  split; [intros E; rewrite E in Hvalid; contradiction|].
  split; [reflexivity|]. split; [exact Hsub|]. split.
  - apply Forall_forall. intros c Hc. apply filter_In in Hc.
    apply inRange_spec. apply Hc.
  - split; [reflexivity|].
    destruct (Nat.ltb_spec (length valid) (length coordinates)) as [Hlt|Hge].
    + lia.
    + apply filter_keeps_all. fold valid. lia.
Qed.

Section ArrayFiles.

Variable parseFloat : option Upload.JSON -> number.
Variables generateId now : nat -> string.

Lemma convertItem_acceptable (index : nat) (item : Upload.JSON) :
  acceptableItem item = true ->
  exists coordinate,
    Upload.convertItem parseFloat generateId now index item = inr coordinate
    /\ Upload.p_latitude coordinate = parseFloat (latitudeOf item)
    /\ Upload.p_longitude coordinate = parseFloat (longitudeOf item).
Proof.
  destruct item as [|b|x|t|items|members]; simpl; try discriminate; intros H;
    rewrite H; eexists; (split; [reflexivity|]); split; reflexivity.
Qed.

Lemma convertItem_unusable (index : nat) (item : Upload.JSON) :
  acceptableItem item = false ->
  Upload.convertItem parseFloat generateId now index item = inl (itemFailure index item).
Proof.
  destruct item as [|b|x|t|items|members]; simpl; try reflexivity; intros H;
    rewrite H; reflexivity.
Qed.

Lemma convertFrom_acceptable (items : list Upload.JSON) :
  forall index,
    forallb acceptableItem items = true ->
    exists coordinates,
      Upload.convertFrom parseFloat generateId now index items = inr coordinates
      /\ length coordinates = length items
      /\ map Upload.p_latitude coordinates = map (fun item => parseFloat (latitudeOf item)) items
      /\ map Upload.p_longitude coordinates
         = map (fun item => parseFloat (longitudeOf item)) items.
Proof.
  induction items as [|item rest IH]; intros index Hall.
  - exists []. repeat split.
  - simpl in Hall. apply andb_prop in Hall. destruct Hall as [Hitem Hrest].
    destruct (convertItem_acceptable index item Hitem) as (c & Ec & Elat & Elng).
    destruct (IH (S index) Hrest) as (cs & Ecs & Hlen & Hlat & Hlng).
    exists (c :: cs). cbn [Upload.convertFrom]. rewrite Ec, Ecs.
    split; [reflexivity|]. simpl. rewrite Hlen, Elat, Elng, Hlat, Hlng. repeat split.
Qed.

Lemma convertFrom_unusable (before : list Upload.JSON) :
  forall index bad after,
    forallb acceptableItem before = true ->
    acceptableItem bad = false ->
    Upload.convertFrom parseFloat generateId now index (before ++ bad :: after)
    = inl (itemFailure (index + length before) bad).
Proof.
  induction before as [|item rest IH]; intros index bad after Hall Hbad.
  - cbn [app Upload.convertFrom length]. rewrite (convertItem_unusable index bad Hbad).
    now rewrite Nat.add_0_r.
  - simpl in Hall. apply andb_prop in Hall. destruct Hall as [Hitem Hrest].
    destruct (convertItem_acceptable index item Hitem) as (c & Ec & _).
    cbn [app Upload.convertFrom length]. rewrite Ec.
    rewrite (IH (S index) bad after Hrest Hbad).
    f_equal. f_equal. lia.
Qed.

End ArrayFiles.

(** X15. A file holding a direct array is converted only if every item is
    an object with truthy [latitude] and [longitude] or an array of at least
    two entries, read as [latitude, longitude]; the conversion then keeps
    count and order.  Otherwise the whole file fails with the error of the
    first unusable item and nothing is uploaded: "Invalid coordinate format
    at index i" with its index, or, for a [null] item, the engine's
    TypeError, which carries no index.  An object whose latitude or
    longitude is the number 0 is unusable. *)
Theorem array_file_conversion (parseFloat : option Upload.JSON -> number)
        (generateId now : nat -> string) (items : list Upload.JSON) :
  (forallb acceptableItem items = true ->
   exists coordinates,
     Upload.convertFrom parseFloat generateId now 0 items = inr coordinates
     /\ length coordinates = length items
     /\ map Upload.p_latitude coordinates
        = map (fun item => parseFloat (latitudeOf item)) items
     /\ map Upload.p_longitude coordinates
        = map (fun item => parseFloat (longitudeOf item)) items
     /\ Upload.processArray parseFloat generateId now items
        = Upload.validate Upload.p_latitude Upload.p_longitude coordinates)
  /\ (forall before bad after,
        items = before ++ bad :: after ->
        forallb acceptableItem before = true ->
        acceptableItem bad = false ->
        Upload.processArray parseFloat generateId now items
        = inl (itemFailure (length before) bad))
  /\ (forall members,
        Upload.member "latitude" members = Some (Upload.JNumber 0%float)
        \/ Upload.member "longitude" members = Some (Upload.JNumber 0%float) ->
        acceptableItem (Upload.JObject members) = false).
Proof.
  split; [|split].
  - intros Hall.
    destruct (convertFrom_acceptable parseFloat generateId now items 0 Hall)
      as (coordinates & E & Hlen & Hlat & Hlng).
    exists coordinates. unfold Upload.processArray. rewrite E. repeat split; assumption.
  - intros before bad after -> Hbefore Hbad. unfold Upload.processArray.
    rewrite (convertFrom_unusable parseFloat generateId now before 0 bad after Hbefore Hbad).
    reflexivity.
  - intros members [H|H]; simpl; rewrite H; simpl.
    + reflexivity.
    + apply andb_false_r.
Qed.

(** A file with a fix on the equator: the upload fails at its index. *)
Lemma equator_fails_the_upload :
  Upload.processArray Fixture.parseFloat (fun _ => "id"%string) (fun _ => Sample.t0)
                      [Fixture.nairobi; Fixture.equator]
  = inl (Upload.InvalidCoordinateFormat 1).
Proof. reflexivity. Qed.

(** ** The manual entry form *)

Lemma leb_false_of_ltb (a x : number) :
  isNaN a = false -> isNaN x = false ->
  PrimFloat.ltb x a = true -> PrimFloat.leb a x = false.
Proof.
  intros Ha Hx H. destruct (PrimFloat.leb a x) eqn:E; [|reflexivity].
  apply (@ltb_false_iff_leb a x Ha Hx) in E. congruence.
Qed.

Lemma inRange_nan (lat lng : number) :
  isNaN lat || isNaN lng = true -> Upload.inRange lat lng = false.
Proof.
  intros H. destruct (Upload.inRange lat lng) eqn:E; [|reflexivity].
  destruct (@inRange_spec lat lng E) as (Hlat & Hlng & _).
  rewrite Hlat, Hlng in H. discriminate.
Qed.

(** X16. The form adds a coordinate exactly when the typed latitude and
    longitude parse to numbers that the upload filter would keep: latitude
    in [-90, 90] and longitude in [-180, 180], bounds included.  The added
    coordinate carries exactly the parsed numbers; otherwise nothing is
    added and one of the three messages is shown: the one about valid
    numbers when either field is not a number, else the one about the
    latitude when it is out of range, else the one about the longitude. *)
Theorem form_accepts_what_upload_keeps (parseFloat : string -> number)
        (generateId now latitude longitude : string) :
  let lat := parseFloat latitude in
  let lng := parseFloat longitude in
  let submitted := Form.handleSubmit parseFloat generateId now latitude longitude in
  (Upload.inRange lat lng = true <-> exists coordinate, submitted = Form.Added coordinate)
  /\ (forall coordinate,
        submitted = Form.Added coordinate ->
        coordinate = mkCoordinate generateId lat lng now)
  /\ (isNaN lat || isNaN lng = true ->
      submitted = Form.Refused "Please enter valid numbers for latitude and longitude")
  /\ (isNaN lat || isNaN lng = false ->
      PrimFloat.leb (-90)%float lat && PrimFloat.leb lat 90%float = false ->
      submitted = Form.Refused "Latitude must be between -90 and 90")
  /\ (isNaN lat || isNaN lng = false ->
      PrimFloat.leb (-90)%float lat && PrimFloat.leb lat 90%float = true ->
      PrimFloat.leb (-180)%float lng && PrimFloat.leb lng 180%float = false ->
      submitted = Form.Refused "Longitude must be between -180 and 180").
Proof.
  intros lat lng submitted. subst submitted. unfold Form.handleSubmit.
  fold lat. fold lng.
  destruct (isNaN lat || isNaN lng) eqn:Hnan.
  - rewrite (inRange_nan lat lng Hnan).
    split; [split; [discriminate|intros [c Hc]; discriminate]|].
    split; [intros c Hc; discriminate|].
    split; [reflexivity|]. split; discriminate.
  - apply orb_false_elim in Hnan. destruct Hnan as [Hlat Hlng].
    assert (Hc : forall a, isNaN a = false -> forall x, isNaN x = false ->
                 PrimFloat.leb a x = negb (PrimFloat.ltb x a)).
    { intros a Ha x Hx. destruct (PrimFloat.ltb x a) eqn:E.
      - now apply leb_false_of_ltb.
      - now apply (@ltb_false_iff_leb a x Ha Hx). }
    unfold Upload.inRange.
    rewrite (Hc (-90)%float eq_refl lat Hlat), (Hc lat Hlat 90%float eq_refl).
    rewrite (Hc (-180)%float eq_refl lng Hlng), (Hc lng Hlng 180%float eq_refl).
    destruct (PrimFloat.ltb lat (-90)%float), (PrimFloat.ltb 90%float lat),
      (PrimFloat.ltb lng (-180)%float), (PrimFloat.ltb 180%float lng); cbn;
      (split; [split; [intros H; try discriminate H; eexists; reflexivity
                      |intros [c Hc']; try discriminate Hc'; reflexivity]|]);
      (split; [intros c Hc'; try discriminate Hc'; injection Hc' as <-; reflexivity|]);
      (split; [discriminate|]);
      split; intros; try reflexivity; discriminate.
Qed.

(** ** The page state *)

Section PageActions.

Variable api : list Coordinate -> option Server.HttpResponse.

Lemma handleSnapToRoads_keeps (s : Page.State) :
  Page.coordinates (snd (Page.handleSnapToRoads api s)) = Page.coordinates s
  /\ Page.selectedCoordinate (snd (Page.handleSnapToRoads api s)) = Page.selectedCoordinate s.
Proof.
  unfold Page.handleSnapToRoads.
  destruct (length (Page.coordinates s) <? 2); [split; reflexivity|].
  destruct (api (Page.coordinates s)) as [response|]; [|split; reflexivity].
  destruct (Page.okStatus (Server.status response)); split; reflexivity.
Qed.

Lemma delete_keeps_other_ids (key : string) (c : Coordinate) (l : list Coordinate) :
  (id c =? key)%string = false ->
  In (id c) (map id l) ->
  In (id c) (map id (filter (fun coord => negb (id coord =? key)%string) l)).
Proof.
  intros Hc Hin. apply in_map_iff in Hin. destruct Hin as (c' & Hid & Hin).
  apply in_map_iff. exists c'. split; [exact Hid|].
  apply filter_In. split; [exact Hin|]. rewrite Hid, Hc. reflexivity.
Qed.

Lemma delete_removes_id (key : string) (l : list Coordinate) :
  ~ In key (map id (filter (fun coord => negb (id coord =? key)%string) l)).
Proof.
  intros Hin. apply in_map_iff in Hin. destruct Hin as (c & Hid & Hin).
  apply filter_In in Hin. destruct Hin as [_ Hkeep].
  rewrite Hid, String.eqb_refl in Hkeep. discriminate.
Qed.

Lemma step_keeps_selection (s : Page.State) (a : Page.Action) :
  Page.selectionListed s -> Page.offered s a -> Page.selectionListed (Page.step api s a).
Proof.
  intros Hs Ha. destruct a as [newCoordinates|coordinate|key|coordinate| |]; cbn [Page.step].
  - exact I.
  - unfold Page.selectionListed, Page.handleAddCoordinate in *. cbn.
    destruct (Page.selectedCoordinate s) as [c|]; [|exact I].
    rewrite map_app. apply in_or_app. now left.
  - unfold Page.selectionListed, Page.handleDeleteCoordinate, Page.selectedHasId in *. cbn.
    destruct (Page.selectedCoordinate s) as [c|]; [|exact I].
    destruct (id c =? key)%string eqn:E; [exact I|].
    now apply delete_keeps_other_ids.
  - exact Ha.
  - exact I.
  - unfold Page.selectionListed in *.
    destruct (handleSnapToRoads_keeps s) as [-> ->]. exact Hs.
Qed.

Lemma run_keeps_selection (actions : list Page.Action) :
  forall s,
    Page.selectionListed s -> Page.allOffered api s actions ->
    Page.selectionListed (Page.run api s actions).
Proof.
  induction actions as [|a rest IH]; intros s Hs Hall; [exact Hs|].
  destruct Hall as [Ha Hrest]. cbn [Page.run].
  apply IH; [now apply step_keeps_selection | exact Hrest].
Qed.

End PageActions.

(** X17. On the page, as long as only listed coordinates are offered for
    selection, the selected coordinate always bears the id of a listed one,
    through any run of uploads, additions, deletions, selections, clearings
    and snap-to-roads requests, whatever the route service answers.
    Deleting an id afterwards leaves no listed coordinate and no selection
    with that id, and keeps every other coordinate in order. *)
Theorem selection_stays_listed (api : list Coordinate -> option Server.HttpResponse)
        (s : Page.State) (actions : list Page.Action) :
  Page.selectionListed s ->
  Page.allOffered api s actions ->
  let reached := Page.run api s actions in
  Page.selectionListed reached
  /\ forall key,
       let after := Page.handleDeleteCoordinate key reached in
       ~ In key (map id (Page.coordinates after))
       /\ Page.selectedHasId after key = false
       /\ Page.selectionListed after
       /\ Subsequence (Page.coordinates after) (Page.coordinates reached)
       /\ (forall c, In c (Page.coordinates reached) -> id c <> key ->
                     In c (Page.coordinates after)).
Proof.
  intros Hs Hall reached.
  assert (Hreached : Page.selectionListed reached) by now apply run_keeps_selection.
  split; [exact Hreached|]. intros key after. subst after.
  split; [apply delete_removes_id|].
  split.
  { unfold Page.handleDeleteCoordinate, Page.selectedHasId. cbn.
    destruct (Page.selectedCoordinate reached) as [c|]; [|reflexivity].
    destruct (id c =? key)%string eqn:E; [reflexivity | exact E]. }
  split.
  { apply (step_keeps_selection api reached (Page.Delete key) Hreached I). }
  split.
  { apply Subsequence_filter. }
  intros c Hin Hid. cbn. apply filter_In. split; [exact Hin|].
  apply negb_true_iff. now apply String.eqb_neq.
Qed.

Lemma selection_stays_listed_witness :
  let reached :=
    Page.run (fun _ => None) Page.initial
             [Page.Upload Sample.twoFixes; Page.Select (Sample.fixAt "b" Sample.t99);
              Page.Add (Sample.fixAt "c" Sample.t99); Page.Delete "a"; Page.SnapToRoads] in
  Page.selectionListed reached
  /\ forall key,
       let after := Page.handleDeleteCoordinate key reached in
       ~ In key (map id (Page.coordinates after))
       /\ Page.selectedHasId after key = false
       /\ Page.selectionListed after
       /\ Subsequence (Page.coordinates after) (Page.coordinates reached)
       /\ (forall c, In c (Page.coordinates reached) -> id c <> key ->
                     In c (Page.coordinates after)).
Proof.
  apply (@selection_stays_listed (fun _ => None) Page.initial
           [Page.Upload Sample.twoFixes; Page.Select (Sample.fixAt "b" Sample.t99);
            Page.Add (Sample.fixAt "c" Sample.t99); Page.Delete "a"; Page.SnapToRoads]).
  - exact I.
  - simpl. repeat split. right. left. reflexivity.
Defined.

(** ** The page and the handler together *)

(** What the handler can answer to a request that passes its two guards. *)
Lemma POST_answer_past_guards (getTime : string -> number) (token : option string)
      (svc : Services) (coordinates : list Coordinate) :
  Server.tokenMissing token = false ->
  2 <= length coordinates ->
  exists calls response,
    Server.POST getTime token (Server.JsonBody (Some coordinates)) svc = (calls, Returned response)
    /\ (response = processingFailure
        \/ exists result,
             response = Server.mkHttp 200 (Server.RouteJson result)
             /\ Server.originalPoints result = length coordinates
             /\ 2 <= Server.processedPoints result <= length coordinates).
Proof.
  intros Htoken Hlen.
  pose proof (length_processedOf getTime coordinates Hlen) as Hp.
  destruct (@POST_cases getTime token svc coordinates Htoken Hlen)
    as [E | [(data & matching & _ & E) | [E | [[route E] | E]]]];
    rewrite E; eexists; eexists; (split; [reflexivity|]).
  - now left.
  - right. eexists. split; [reflexivity|]. simpl. split; [reflexivity | lia].
  - now left.
  - right. eexists. split; [reflexivity|]. simpl.
    rewrite directionsCoordinatesOf_length by apply Hp. split; [reflexivity | lia].
  - right. eexists. split; [reflexivity|]. simpl.
    rewrite simpleCoordinatesOf_length by apply Hp. split; [reflexivity | lia].
Qed.

(** X18. Snap to roads, with the handler of [/api/map-match] behind it.
    With fewer than two coordinates listed nothing is requested and the
    state is left as it is.  Otherwise one request is made; when it is over
    the page is not loading, the coordinates and the selection are what
    they were, and the route data are either what they were (the handler
    answered with status 500) or a route whose [originalPoints] is the
    number of listed coordinates and whose [processedPoints] lies between 2
    and that number.  The handler's answer 400 is never received, and
    without an access token the route data never change. *)
Theorem snap_to_roads_end_to_end (getTime : string -> number) (token : option string)
        (svc : Services) (s : Page.State) :
  let api := Page.mapMatchApi getTime token svc in
  let outcome := Page.handleSnapToRoads api s in
  (length (Page.coordinates s) < 2 -> outcome = (false, s))
  /\ (2 <= length (Page.coordinates s) ->
      fst outcome = true
      /\ Page.isLoading (snd outcome) = false
      /\ Page.coordinates (snd outcome) = Page.coordinates s
      /\ Page.selectedCoordinate (snd outcome) = Page.selectedCoordinate s
      /\ (exists response,
            api (Page.coordinates s) = Some response
            /\ Server.status response <> 400
            /\ ((Server.status response = 500
                 /\ Page.routeData (snd outcome) = Page.routeData s)
                \/ exists result,
                     response = Server.mkHttp 200 (Server.RouteJson result)
                     /\ Page.routeData (snd outcome) = Some (Server.RouteJson result)
                     /\ Server.originalPoints result = length (Page.coordinates s)
                     /\ 2 <= Server.processedPoints result <= length (Page.coordinates s)))
      /\ (Server.tokenMissing token = true ->
          Page.routeData (snd outcome) = Page.routeData s)).
Proof.
  intros api outcome. subst outcome. unfold Page.handleSnapToRoads.
  split.
  - intros Hshort. destruct (Nat.ltb_spec (length (Page.coordinates s)) 2); [reflexivity | lia].
  - intros Hlen. destruct (Nat.ltb_spec (length (Page.coordinates s)) 2) as [?|_]; [lia|].
    subst api. unfold Page.mapMatchApi.
    destruct (Server.tokenMissing token) eqn:Htoken.
    + rewrite (missing_token_is_fatal_any getTime token (Some (Page.coordinates s)) svc Htoken).
      cbn. repeat (split; [reflexivity|]).
      split; [|reflexivity].
      eexists. split; [reflexivity|]. cbn. split; [discriminate|].
      left. split; reflexivity.
    + destruct (@POST_answer_past_guards getTime token svc (Page.coordinates s) Htoken Hlen)
        as (calls & response & E & [-> | (result & -> & Horig & Hproc)]); rewrite E; cbn.
      * repeat (split; [reflexivity|]).
        split; [|discriminate].
        eexists. split; [reflexivity|]. cbn. split; [discriminate|].
        left. split; reflexivity.
      * repeat (split; [reflexivity|]).
        split; [|discriminate].
        eexists. split; [reflexivity|]. cbn. split; [discriminate|].
        right. exists result. repeat split; try assumption; lia.
Qed.
